(** * Nested comments of the posting system: model and verified properties

    The development follows the backend of the repository:

    - the Sequelize [Comment] model ([getCommentDepth], the [beforeCreate]
      hook, [getCommentTree]);
    - the Sequelize comment routes ([GET /post/:postId], [GET /:id],
      [POST /], [DELETE /:id], [GET /:id/replies]);
    - the PostgreSQL comment routes, which add pagination to the listing;
    - the update route [PUT /:id] and the instance methods of the model
      ([getDepth], [getPreview], the [word_count] of [getCommentData]);
    - the [Post] model's [canUserView] and the PostgreSQL post routes
      [GET /api/posts] and [GET /api/posts/:id], the latter with its
      recursive comment query and single-loop tree builder.

    Tables are lists of rows, a request handler is a computation in a small
    state-and-divergence monad over the database, and the comment tree is
    built, as in the JavaScript, over a heap of shared mutable objects. *)

From stdpp Require Import base option list gmap strings sorting.
From Stdlib Require Import ZArith Lia Ascii DecimalString.

Set Warnings "-register-all".

Local Open Scope string_scope.
Local Open Scope list_scope.
Local Open Scope Z_scope.

(** ** Data model *)

(** A row of table [comments].  [parent_id = None] is SQL NULL;
    [created_at] is the timestamp in milliseconds. *)
Record Comment := mkComment {
  id : Z;
  post_id : Z;
  user_id : Z;
  parent_id : option Z;
  content : string;
  is_published : bool;
  created_at : Z
}.

(** A row of table [reactions], restricted to the columns the comment routes
    read. *)
Record Reaction := mkReaction {
  comment_id : option Z;
  emoji_name : string;
  emoji_unicode : string
}.

(** The relational store.  Posts and users are only tested for existence, so
    their tables are kept as lists of primary keys.  [comments_id_seq] is the
    auto-increment sequence of [comments.id]. *)
Record DB := mkDB {
  posts : list Z;
  users : list Z;
  comments : list Comment;
  reactions : list Reaction;
  comments_id_seq : Z
}.

#[global] Instance Comment_eq_dec : EqDecision Comment.
Proof. solve_decision. Defined.

(** ** JavaScript helpers *)

(** Truthiness of a nullable integer: [null], [undefined] and [0] are
    falsy. *)
Definition truthy (v : option Z) : bool :=
  match v with
  | Some n => negb (n =? 0)
  | None => false
  end.

(** [\s] on the characters the model covers. *)
Definition is_space (a : ascii) : bool :=
  let n := nat_of_ascii a in
  ((9 <=? n) && (n <=? 13))%nat || (n =? 32)%nat.

Fixpoint ltrim (s : string) : string :=
  match s with
  | String a s' => if is_space a then ltrim s' else s
  | EmptyString => EmptyString
  end.

Fixpoint rtrim (s : string) : string :=
  match s with
  | String a s' =>
      match rtrim s' with
      | EmptyString => if is_space a then EmptyString else String a EmptyString
      | r => String a r
      end
  | EmptyString => EmptyString
  end.

(** [String.prototype.trim] and the validator's [trim()] sanitizer. *)
Definition trim (s : string) : string := rtrim (ltrim s).

(** [isLength({ min, max })]. *)
Definition isLength (min max : nat) (s : string) : bool :=
  ((min <=? String.length s) && (String.length s <=? max))%nat.

(** [isInt({ min: 1 })] on a value that is already an integer. *)
Definition isInt_min1 (n : Z) : bool := 1 <=? n.

(** Template-literal rendering of a non-negative count. *)
Definition string_of_nat (n : nat) : string :=
  NilEmpty.string_of_uint (Nat.to_uint n).

(** ** Handlers as computations over the store *)

(** The queries on [posts], [users] and [comments] that a handler can issue;
    they are recorded in order.  Reactions are read along with the comments
    and leave no record. *)
Inductive Query :=
| Post_findByPk_q (pk : Z)
| User_findByPk_q (pk : Z)
| Comment_findByPk_q (pk : Z)
| Comment_findAll_q
| Comment_count_q
| Comment_create_q
| Comment_destroy_q (pk : Z).

Record World := mkWorld {
  db : DB;
  queries : list Query;   (* data accesses issued so far, oldest first *)
  now : Z                 (* the clock read by DataTypes.NOW *)
}.

(** An [async] computation: [None] stands for a call that never returns. *)
Definition Async (A : Type) : Type := World -> option (A * World).

#[global] Instance Async_ret : MRet Async := fun A a w => Some (a, w).
#[global] Instance Async_bind : MBind Async := fun A B f m w =>
  match m w with
  | Some (a, w') => f a w'
  | None => None
  end.

Definition diverge {A} : Async A := fun _ => None.

Definition issue (q : Query) : Async unit := fun w =>
  Some (tt, mkWorld (db w) (queries w ++ [q]) (now w)).

Definition read {A} (f : DB -> A) : Async A := fun w => Some (f (db w), w).

Definition clock : Async Z := fun w => Some (now w, w).

Definition write (f : DB -> DB) : Async unit := fun w =>
  Some (tt, mkWorld (f (db w)) (queries w) (now w)).

(** What a handler does with the response object. *)
Inductive Response (A : Type) :=
| Success (status : nat) (data : A) (message : string)
| Failure (status : nat) (message type : string)
| NextError (error : string).   (* next(error): left to the error middleware *)
Arguments Success {A} status data message.
Arguments Failure {A} status message type.
Arguments NextError {A} error.

Definition statusOf {A} (r : Response A) : nat :=
  match r with
  | Success s _ _ => s
  | Failure s _ _ => s
  | NextError _ => 500%nat
  end.

(** ** The Sequelize [Comment] model *)

(** Rows selected by a primary key; the first one is the row found. *)
Definition findByPk (rows : list Comment) (pk : Z) : option Comment :=
  List.find (fun c => id c =? pk) rows.

Definition Post_findByPk (pk : Z) : Async (option Z) :=
  _ ← issue (Post_findByPk_q pk);
  read (fun d => List.find (fun p => p =? pk) (posts d)).

Definition User_findByPk (pk : Z) : Async (option Z) :=
  _ ← issue (User_findByPk_q pk);
  read (fun d => List.find (fun u => u =? pk) (users d)).

Definition Comment_findByPk (pk : Z) : Async (option Comment) :=
  _ ← issue (Comment_findByPk_q pk);
  read (fun d => findByPk (comments d) pk).

(** [Comment.getCommentDepth]: the recursion of the source, with the number
    of nested calls bounded by [fuel]. *)
Fixpoint getCommentDepth_rec (fuel : nat) (commentId : option Z) : Async nat :=
  match fuel with
  | O => diverge
  | S fuel' =>
      match commentId with
      | Some pk =>
          if negb (truthy commentId) then mret 0%nat
          else
            comment ← Comment_findByPk pk;
            match comment with
            | None => mret 0%nat
            | Some c =>
                if negb (truthy (parent_id c)) then mret 0%nat
                else
                  d ← getCommentDepth_rec fuel' (parent_id c);
                  mret (1 + d)%nat
            end
      | None => mret 0%nat
      end
  end.

(** A chain of distinct rows is no longer than the table, so a call that is
    still running after [length rows + 1] nested calls is on a cycle and
    never returns. *)
Definition Comment_getCommentDepth (commentId : option Z) : Async nat :=
  fun w => getCommentDepth_rec (S (length (comments (db w)))) commentId w.

(** The values given to [Comment.create]. *)
Record CommentValues := mkValues {
  v_post_id : Z;
  v_user_id : Z;
  v_parent_id : option Z;
  v_content : string
}.

(** Hook [beforeCreate]: [inl msg] is [throw new Error(msg)]. *)
Definition beforeCreate (v : CommentValues) : Async (string + unit) :=
  match v_parent_id v with
  | Some p =>
      if truthy (v_parent_id v) then
        parentComment ← Comment_findByPk p;
        match parentComment with
        | None => mret (inl "Parent comment must belong to the same post")
        | Some pc =>
            if negb (post_id pc =? v_post_id v)
            then mret (inl "Parent comment must belong to the same post")
            else
              depth ← Comment_getCommentDepth (v_parent_id v);
              if (5 <=? depth)%nat
              then mret (inl "Maximum comment nesting depth exceeded")
              else mret (inr tt)
        end
      else mret (inr tt)
  | None => mret (inr tt)
  end.

Definition insert_comment (c : Comment) (d : DB) : DB :=
  mkDB (posts d) (users d) (comments d ++ [c]) (reactions d)
       (comments_id_seq d + 1).

(** [Comment.create]: hook [beforeValidate] trims the content, the column
    validators [len] and [notEmpty] run, hook [beforeCreate] runs, and the row
    is inserted with the next value of the sequence, [is_published] at its
    default and [created_at] at the current time. *)
Definition Comment_create (v : CommentValues) : Async (string + Comment) :=
  let content' := trim (v_content v) in
  if negb (isLength 1 2000 content')
  then mret (inl "Comment content must be between 1 and 2000 characters")
  else
    hook ← beforeCreate v;
    match hook with
    | inl e => mret (inl e)
    | inr _ =>
        _ ← issue Comment_create_q;
        pk ← read comments_id_seq;
        t ← clock;
        let c := mkComment pk (v_post_id v) (v_user_id v) (v_parent_id v)
                           content' true t in
        _ ← write (insert_comment c);
        mret (inr c)
    end.

(** [Comment.count({ where: { parent_id } })]. *)
Definition count_children (rows : list Comment) (pk : Z) : nat :=
  length (List.filter (fun c => bool_decide (parent_id c = Some pk)) rows).

Definition Comment_count (pk : Z) : Async nat :=
  _ ← issue Comment_count_q;
  read (fun d => count_children (comments d) pk).

(** The foreign key [comments.parent_id] is declared [ON DELETE CASCADE]:
    rows that reference a removed row are removed in turn, round after round,
    until no remaining row references a removed one.  Every round but the last
    removes a row, so [length rows] rounds are enough. *)
Definition references (gone : list Z) (c : Comment) : bool :=
  match parent_id c with
  | Some p => bool_decide (p ∈ gone)
  | None => false
  end.

Fixpoint cascade (fuel : nat) (gone : list Z) (rows : list Comment)
  : list Comment :=
  match fuel with
  | O => rows
  | S fuel' =>
      match List.filter (references gone) rows with
      | [] => rows
      | hit =>
          cascade fuel' (map id hit)
                  (List.filter (fun c => negb (references gone c)) rows)
      end
  end.

Definition delete_row (pk : Z) (rows : list Comment) : list Comment :=
  let rest := List.filter (fun c => negb (id c =? pk)) rows in
  cascade (length rest) [pk] rest.

(** Reactions reference comments with [ON DELETE CASCADE] as well. *)
Definition surviving_reactions (before after : list Comment) (rs : list Reaction)
  : list Reaction :=
  List.filter
    (fun r => match comment_id r with
              | Some c => negb (bool_decide (c ∈ map id before)
                                && negb (bool_decide (c ∈ map id after)))
              | None => true
              end) rs.

Definition destroy_comment (pk : Z) (d : DB) : DB :=
  let after := delete_row pk (comments d) in
  mkDB (posts d) (users d) after
       (surviving_reactions (comments d) after (reactions d))
       (comments_id_seq d).

(** [comment.destroy()]. *)
Definition Comment_destroy (pk : Z) : Async unit :=
  _ ← issue (Comment_destroy_q pk);
  write (destroy_comment pk).

(** ** Sorting and reaction tallies *)

(** [Array.prototype.sort(compare)]: a stable sort; an element moves in front
    of another one only when the comparator is positive.  The same function
    serves for SQL [ORDER BY], whose order among equal keys is the table
    order here. *)
Fixpoint insert_sorted {A} (compare : A -> A -> Z) (x : A) (l : list A)
  : list A :=
  match l with
  | [] => [x]
  | y :: l' =>
      if compare x y <=? 0 then x :: y :: l'
      else y :: insert_sorted compare x l'
  end.

Definition Array_sort {A} (compare : A -> A -> Z) (l : list A) : list A :=
  foldr (insert_sorted compare) [] l.

(** The comparator of [sortReplies], and of [ORDER BY created_at DESC|ASC]:
    [sort === 'newest' ? dateB - dateA : dateA - dateB]. *)
Definition by_date {A} (created : A -> Z) (sort : string) (a b : A) : Z :=
  if String.eqb sort "newest" then created b - created a
  else created a - created b.

Definition order_by_created_at (sort : string) (rows : list Comment)
  : list Comment :=
  Array_sort (by_date created_at sort) rows.

(** One entry of [reaction_counts]. *)
Record ReactionCount := mkReactionCount {
  rc_emoji_name : string;
  rc_emoji_unicode : string;
  rc_count : nat
}.

(** The object [reactionCounts], keyed by emoji name.  The response carries
    [Object.values] of it; the enumeration order is not modelled. *)
Definition count_reaction (acc : gmap string ReactionCount) (r : Reaction)
  : gmap string ReactionCount :=
  let key := emoji_name r in
  let entry := default (mkReactionCount (emoji_name r) (emoji_unicode r) 0)
                       (acc !! key) in
  <[key := mkReactionCount (rc_emoji_name entry) (rc_emoji_unicode entry)
                           (S (rc_count entry))]> acc.

Definition group_reactions (rs : list Reaction) : gmap string ReactionCount :=
  foldl count_reaction ∅ rs.

(** The association [reactions] of a comment, as loaded by [include]. *)
Definition reactions_of (d : DB) (pk : Z) : list Reaction :=
  List.filter (fun r => bool_decide (comment_id r = Some pk)) (reactions d).

(** An instance of the model as a query loads it: the row and the
    associations that [include] asked for. *)
Record Instance := mkInstance {
  i_row : Comment;
  i_replies : option (list Comment);
  i_reactions : option (list Reaction)
}.

(** The plain object that the routes work on. *)
Record Plain := mkPlain {
  p_row : Comment;
  p_replies : option (list Comment);
  p_reactions : option (list Reaction)
}.

(** The model's [toJSON]: the columns that [getCommentData] copies and, when
    it is loaded, [replies].  The other loaded associations, [reactions]
    among them, are not copied. *)
Definition toJSON (i : Instance) : Plain :=
  mkPlain (i_row i) (i_replies i) None.

(** The grouping of the routes, [if (commentJson.reactions) { ... }] followed
    by [Object.values(reactionCounts)]. *)
Definition reaction_counts_of (reactions : option (list Reaction))
  : gmap string ReactionCount :=
  match reactions with
  | Some rs => group_reactions rs
  | None => ∅
  end.

(** ** The Sequelize comment routes *)

(** [handleValidationErrors]: answer 400 when a validator complained,
    otherwise run the next handler. *)
Definition handleValidationErrors {A} (errors : list string)
    (next : Async (Response A)) : Async (Response A) :=
  match errors with
  | [] => next
  | _ :: _ => mret (Failure 400 "Validation failed" "VALIDATION_ERROR")
  end.

Definition check (ok : bool) (msg : string) : list string :=
  if ok then [] else [msg].

Definition optional {A} (v : option A) (ok : A -> bool) (msg : string)
  : list string :=
  match v with
  | Some x => check (ok x) msg
  | None => []
  end.

(** The body of [POST /api/comments]. *)
Record CreateBody := mkCreateBody {
  b_post_id : Z;
  b_user_id : Z;
  b_content : string;
  b_parent_id : option Z
}.

Definition create_validators (b : CreateBody) : list string :=
  check (isInt_min1 (b_post_id b))
        "Post ID is required and must be a positive integer"
  ++ check (isInt_min1 (b_user_id b))
        "User ID is required and must be a positive integer"
  ++ check (isLength 1 2000 (trim (b_content b)))
        "Content must be between 1 and 2000 characters"
  ++ optional (b_parent_id b) isInt_min1
        "Parent ID must be a positive integer".

(** The parent checks of [POST /]: [Some r] is an early [return] of [r]. *)
Definition check_parent (post_id' : Z) (parent_id' : option Z)
  : Async (option (Response (option Comment))) :=
  match parent_id' with
  | Some p =>
      if truthy parent_id' then
        parentComment ← Comment_findByPk p;
        match parentComment with
        | None => mret (Some (Failure 404 "Parent comment not found" "NOT_FOUND"))
        | Some pc =>
            if negb (post_id pc =? post_id')
            then mret (Some (Failure 400
                   "Parent comment must belong to the same post" "INVALID_PARENT"))
            else
              depth ← Comment_getCommentDepth parent_id';
              if (5 <=? depth)%nat
              then mret (Some (Failure 400
                     "Maximum comment nesting depth exceeded (5 levels)"
                     "MAX_DEPTH_EXCEEDED"))
              else mret None
        end
      else mret None
  | None => mret None
  end.

(** [POST /api/comments]. *)
Definition post_comment (b : CreateBody) : Async (Response (option Comment)) :=
  handleValidationErrors (create_validators b) (
    let content' := trim (b_content b) in
    post ← Post_findByPk (b_post_id b);
    match post with
    | None => mret (Failure 404 "Post not found" "NOT_FOUND")
    | Some _ =>
        user ← User_findByPk (b_user_id b);
        match user with
        | None => mret (Failure 404 "User not found" "NOT_FOUND")
        | Some _ =>
            early ← check_parent (b_post_id b) (b_parent_id b);
            match early with
            | Some r => mret r
            | None =>
                created ← Comment_create
                  (mkValues (b_post_id b) (b_user_id b) (b_parent_id b) content');
                match created with
                | inl e => mret (NextError e)
                | inr comment =>
                    newComment ← Comment_findByPk (id comment);
                    mret (Success 201 newComment
                            (if truthy (b_parent_id b)
                             then "Reply created successfully"
                             else "Comment created successfully"))
                end
            end
        end
    end).

Definition id_validators (pk : Z) : list string :=
  check (isInt_min1 pk) "Comment ID must be a positive integer".

(** [DELETE /api/comments/:id]. *)
Definition delete_comment (pk : Z) : Async (Response unit) :=
  handleValidationErrors (id_validators pk) (
    comment ← Comment_findByPk pk;
    match comment with
    | None => mret (Failure 404 "Comment not found" "NOT_FOUND")
    | Some c =>
        replyCount ← Comment_count pk;
        _ ← Comment_destroy (id c);
        mret (Success 200 tt
                ("Comment deleted successfully" +:+
                 (if (0 <? replyCount)%nat
                  then " along with " +:+ string_of_nat replyCount +:+ " replies"
                  else "")))
    end).

(** The data of [GET /api/comments/:id]: the row, its included replies and
    its reaction tallies. *)
Record CommentJson := mkCommentJson {
  j_comment : Comment;
  j_replies : list Comment;
  j_reaction_counts : gmap string ReactionCount
}.

(** The association [replies] with [where: { is_published: true }]. *)
Definition published_replies (rows : list Comment) (pk : Z) : list Comment :=
  List.filter (fun c => bool_decide (parent_id c = Some pk) && is_published c)
              rows.

(** [GET /api/comments/:id]. *)
Definition get_comment (pk : Z) : Async (Response CommentJson) :=
  handleValidationErrors (id_validators pk) (
    comment ← Comment_findByPk pk;
    match comment with
    | None => mret (Failure 404 "Comment not found" "NOT_FOUND")
    | Some c =>
        comment' ← read (fun d =>
          mkInstance c (Some (published_replies (comments d) (id c)))
                     (Some (reactions_of d (id c))));
        let commentJson := toJSON comment' in
        mret (Success 200
                (mkCommentJson (p_row commentJson)
                               (default [] (p_replies commentJson))
                               (reaction_counts_of (p_reactions commentJson)))
                "")
    end).

(** The query string of the listing routes. *)
Record ListQuery := mkListQuery {
  q_sort : option string;
  q_limit : option Z;
  q_page : option Z
}.

Definition isInt_range (lo hi : Z) (n : Z) : bool := (lo <=? n) && (n <=? hi).

Definition isIn_sort (s : string) : bool :=
  String.eqb s "newest" || String.eqb s "oldest".

Definition replies_validators (pk : Z) (q : ListQuery) : list string :=
  check (isInt_min1 pk) "Comment ID must be a positive integer"
  ++ optional (q_sort q) isIn_sort "Sort must be newest or oldest"
  ++ optional (q_limit q) (isInt_range 1 50) "Limit must be between 1 and 50".

(** [parseInt(req.query.limit) || dflt]. *)
Definition limit_or (v : option Z) (dflt : Z) : Z :=
  match v with
  | Some n => if n =? 0 then dflt else n
  | None => dflt
  end.

(** SQL [LIMIT n]. *)
Definition sql_limit {A} (n : Z) (rows : list A) : list A :=
  take (Z.to_nat n) rows.

(** The data of [GET /api/comments/:id/replies]. *)
Record RepliesJson := mkRepliesJson {
  parent_comment_id : Z;
  replies : list (Comment * gmap string ReactionCount);
  r_total_count : nat;
  r_sort : string
}.

(** [GET /api/comments/:id/replies]. *)
Definition get_comment_replies (pk : Z) (q : ListQuery)
  : Async (Response RepliesJson) :=
  handleValidationErrors (replies_validators pk q) (
    let sort := default "oldest" (q_sort q) in
    let limit := limit_or (q_limit q) 20 in
    parentComment ← Comment_findByPk pk;
    match parentComment with
    | None => mret (Failure 404 "Comment not found" "NOT_FOUND")
    | Some _ =>
        _ ← issue Comment_findAll_q;
        found ← read (fun d =>
          sql_limit limit
            (order_by_created_at sort (published_replies (comments d) pk)));
        processedReplies ← read (fun d =>
          map (fun reply =>
                 let replyJson :=
                   toJSON (mkInstance reply None
                                      (Some (reactions_of d (id reply)))) in
                 (p_row replyJson, reaction_counts_of (p_reactions replyJson)))
              found);
        mret (Success 200
                (mkRepliesJson pk processedReplies (length found) sort) "")
    end).

(** ** The tree builder

    The routes turn each fetched row into a plain object ([commentJson],
    [commentData]) that carries the row, what the route attaches to it, and a
    [replies] array.  The objects are shared: the same object sits in
    [processedComments], in [commentMap] and, once linked, in the [replies]
    array of its parent.  The heap below holds the objects by their position
    in [processedComments]; arrays hold such positions. *)

Section TreeBuilder.
(** [A] is what an object carries besides [replies]; [row] reads the
    columns of the comment out of it. *)
Context {A : Type} (row : A -> Comment).

Record Obj := mkObj {
  o_data : A;
  o_replies : list nat
}.

(** [processedComments]: every object starts with [replies = []]. *)
Definition process (cs : list A) : list Obj := map (fun c => mkObj c []) cs.

(** First loop: [commentMap.set(comment.id, comment)]; [i] is the position
    of the head of [cs]. *)
Fixpoint set_all (i : nat) (cs : list A) (commentMap : gmap Z nat)
  : gmap Z nat :=
  match cs with
  | [] => commentMap
  | c :: cs' => set_all (S i) cs' (<[id (row c) := i]> commentMap)
  end.

(** [parent.replies.push(comment)]. *)
Definition push_reply (parent child : nat) (heap : list Obj) : list Obj :=
  match heap !! parent with
  | Some o => <[parent := mkObj (o_data o) (o_replies o ++ [child])]> heap
  | None => heap
  end.

Record Build := mkBuild {
  heap : list Obj;
  rootComments : list nat
}.

(** The body of the second loop for the object at position [i]. *)
Definition link (commentMap : gmap Z nat) (i : nat) (c : A) (st : Build)
  : Build :=
  if truthy (parent_id (row c)) then
    match parent_id (row c) ≫= (commentMap !!.) with
    | Some parent => mkBuild (push_reply parent i (heap st)) (rootComments st)
    | None => st
    end
  else mkBuild (heap st) (rootComments st ++ [i]).

Fixpoint link_all (commentMap : gmap Z nat) (i : nat) (cs : list A)
    (st : Build) : Build :=
  match cs with
  | [] => st
  | c :: cs' => link_all commentMap (S i) cs' (link commentMap i c st)
  end.

(** Both loops. *)
Definition build (cs : list A) : Build :=
  link_all (set_all 0 cs ∅) 0 cs (mkBuild (process cs) []).

Definition created_of (heap : list Obj) (r : nat) : Z :=
  match heap !! r with
  | Some o => created_at (row (o_data o))
  | None => 0
  end.

(** [sortReplies]: sorts the [replies] arrays in place, going down from
    [comments].  [None]: more than [fuel] nested calls. *)
Fixpoint sortReplies (fuel : nat) (sort : string) (comments : list nat)
    (heap : list Obj) : option (list Obj) :=
  match fuel with
  | O => None
  | S fuel' =>
      foldl (fun acc r =>
               h ← acc;
               match h !! r with
               | Some o =>
                   match o_replies o with
                   | [] => Some h
                   | _ :: _ =>
                       let sorted :=
                         Array_sort (by_date (created_of h) sort) (o_replies o) in
                       sortReplies fuel' sort sorted
                                   (<[r := mkObj (o_data o) sorted]> h)
                   end
               | None => Some h
               end)
            (Some heap) comments
  end.

(** The nested value that [res.json] serializes. *)
Inductive Tree := Node (data : A) (replies : list Tree).

Fixpoint toTree (fuel : nat) (heap : list Obj) (r : nat) : option Tree :=
  match fuel with
  | O => None
  | S fuel' =>
      o ← heap !! r;
      rs ← mapM (toTree fuel' heap) (o_replies o);
      Some (Node (o_data o) rs)
  end.

Definition toForest (heap : list Obj) (roots : list nat) : option (list Tree) :=
  mapM (toTree (S (length heap)) heap) roots.

(** Tree assembly without the sort pass ([Comment.getCommentTree]). *)
Definition assemble (cs : list A) : option (list Tree) :=
  let b := build cs in toForest (heap b) (rootComments b).

(** Tree assembly followed by [sortReplies(rootComments)]. *)
Definition assemble_sorted (sort : string) (cs : list A)
  : option (list Tree) :=
  let b := build cs in
  h ← sortReplies (S (length (heap b))) sort (rootComments b) (heap b);
  toForest h (rootComments b).

(** The single loop of [GET /api/posts/:id]: the object of a row is stored
    in [commentMap] first; it is pushed to the result when [parent_id] is
    [null], to its parent when [commentMap] already holds one, and nowhere
    otherwise. *)
Definition link_one (i : nat) (c : A) (st : gmap Z nat * Build)
  : gmap Z nat * Build :=
  let commentMap := <[id (row c) := i]> (fst st) in
  let b := snd st in
  match parent_id (row c) with
  | None => (commentMap, mkBuild (heap b) (rootComments b ++ [i]))
  | Some p =>
      match commentMap !! p with
      | Some parent =>
          (commentMap, mkBuild (push_reply parent i (heap b)) (rootComments b))
      | None => (commentMap, b)
      end
  end.

Fixpoint link_each (i : nat) (cs : list A) (st : gmap Z nat * Build)
  : gmap Z nat * Build :=
  match cs with
  | [] => st
  | c :: cs' => link_each (S i) cs' (link_one i c st)
  end.

Definition assemble_single_pass (cs : list A) : option (list Tree) :=
  let b := snd (link_each 0 cs (∅, mkBuild (process cs) [])) in
  toForest (heap b) (rootComments b).

(** Pre-order traversal. *)
Fixpoint flatten (t : Tree) : list A :=
  match t with
  | Node a rs => a :: flat_map flatten rs
  end.

Definition flatten_forest (ts : list Tree) : list A := flat_map flatten ts.

(** The timestamps of the nodes of one level. *)
Definition created (t : Tree) : Z :=
  match t with Node a _ => created_at (row a) end.

(** The order of [sort] on timestamps: non-increasing for ['newest'],
    non-decreasing otherwise. *)
Definition in_order (sort : string) (x y : Z) : Prop :=
  if String.eqb sort "newest" then y <= x else x <= y.

(** Siblings are in the order of [sort] at every level of the forest. *)
Inductive SortedTree (sort : string) : Tree -> Prop :=
| SortedNode a rs :
    Sorted (fun s t => in_order sort (created s) (created t)) rs ->
    Forall (SortedTree sort) rs ->
    SortedTree sort (Node a rs).

Definition SortedForest (sort : string) (ts : list Tree) : Prop :=
  Sorted (fun s t => in_order sort (created s) (created t)) ts
  /\ Forall (SortedTree sort) ts.
End TreeBuilder.

Arguments Tree : clear implicits.
Arguments Obj : clear implicits.
Arguments Build : clear implicits.
Arguments Node {A} data replies.
Arguments mkObj {A} o_data o_replies.
Arguments mkBuild {A} heap rootComments.

(** [Comment.getCommentTree(postId)]: all published comments of the post,
    oldest first, assembled without a sort pass. *)
Definition of_post (postId : Z) (c : Comment) : bool :=
  (post_id c =? postId) && is_published c.

Definition Comment_getCommentTree (postId : Z)
  : Async (list (Tree Comment)) :=
  _ ← issue Comment_findAll_q;
  comments ← read (fun d =>
    order_by_created_at "oldest" (List.filter (of_post postId) (comments d)));
  match assemble (fun c => c) comments with
  | Some rootComments => mret rootComments
  | None => diverge
  end.

(** What the Sequelize listing attaches to a comment. *)
Definition Processed : Type := Comment * gmap string ReactionCount.

(** The data of the Sequelize [GET /api/comments/post/:postId]. *)
Record PostCommentsJson := mkPostCommentsJson {
  l_post_id : Z;
  l_comments : list (Tree Processed);
  l_total_count : nat;
  l_sort : string
}.

Definition listing_validators (postId : Z) (q : ListQuery) : list string :=
  check (isInt_min1 postId) "Post ID must be a positive integer"
  ++ optional (q_sort q) isIn_sort "Sort must be newest or oldest"
  ++ optional (q_limit q) (isInt_range 1 100) "Limit must be between 1 and 100".

(** The Sequelize [GET /api/comments/post/:postId]. *)
Definition get_post_comments (postId : Z) (q : ListQuery)
  : Async (Response PostCommentsJson) :=
  handleValidationErrors (listing_validators postId q) (
    let sort := default "oldest" (q_sort q) in
    let limit := limit_or (q_limit q) 50 in
    post ← Post_findByPk postId;
    match post with
    | None => mret (Failure 404 "Post not found" "NOT_FOUND")
    | Some _ =>
        _ ← issue Comment_findAll_q;
        comments ← read (fun d =>
          sql_limit limit
            (order_by_created_at sort
               (List.filter (of_post postId) (comments d))));
        processedComments ← read (fun d =>
          map (fun comment =>
                 let commentJson :=
                   toJSON (mkInstance comment None
                                      (Some (reactions_of d (id comment)))) in
                 (p_row commentJson,
                  reaction_counts_of (p_reactions commentJson)))
              comments);
        match assemble_sorted fst sort processedComments with
        | Some rootComments =>
            mret (Success 200
                    (mkPostCommentsJson postId rootComments (length comments) sort)
                    "")
        | None => diverge
        end
    end).

(** ** The PostgreSQL comment routes

    The listing of this version pages over the top-level comments.  Its
    queries join [media]; the model leaves the join out, which is exact for
    stores where a comment has at most one attachment (the join then adds
    columns and no rows). *)
Module Pg.

(** Modelled from the spec: [Post.findById] of the PostgreSQL models, which
    is not among the sources; it is the "Post-existence lookup by id" of the
    external interfaces. *)
Definition Post_findById (pk : Z) : Async (option Z) := Post_findByPk pk.

(** Modelled from the spec: [Comment.findById] of the PostgreSQL models,
    which is not among the sources; it is the lookup "confirming the comment
    exists". *)
Definition Comment_findById (pk : Z) : Async (option Comment) :=
  Comment_findByPk pk.

(** Modelled from the spec: [Comment.getCommentData] of the PostgreSQL
    models, which is not among the sources; it carries the attributes of the
    comment entity over from the fetched row. *)
Definition getCommentData (c : Comment) : Comment := c.

(** What the listing attaches to a comment: its tallies by emoji name. *)
Definition Processed : Type := Comment * gmap string nat.

Record Pagination := mkPagination {
  current_page : Z;
  total_pages : Z;
  p_total_count : Z;
  p_limit : Z;
  has_next_page : bool;
  has_prev_page : bool
}.

Record PostCommentsJson := mkPostCommentsJson {
  l_post_id : Z;
  l_comments : list (Tree Processed);
  l_total_count : Z;
  l_sort : string;
  pagination : Pagination
}.

Definition listing_validators (postId : Z) (q : ListQuery) : list string :=
  check (isInt_min1 postId) "Post ID must be a positive integer"
  ++ optional (q_sort q) isIn_sort "Sort must be newest or oldest"
  ++ optional (q_limit q) (isInt_range 1 100) "Limit must be between 1 and 100"
  ++ optional (q_page q) isInt_min1 "Page must be a positive integer".

(** [WHERE c.post_id = $1 AND c.is_published = true AND c.parent_id IS NULL]. *)
Definition top_level (postId : Z) (c : Comment) : bool :=
  (post_id c =? postId) && is_published c
  && match parent_id c with None => true | Some _ => false end.

(** [WHERE c.parent_id = ANY($1) AND c.is_published = true]. *)
Definition reply_to (commentIds : list Z) (c : Comment) : bool :=
  match parent_id c with
  | Some p => bool_decide (p ∈ commentIds)
  | None => false
  end && is_published c.

(** [Math.ceil(a / b)] for a count [a] and a positive [b]. *)
Definition ceil_div (a b : Z) : Z := - ((- a) / b).

(** [LIMIT $2 OFFSET $3]. *)
Definition sql_limit_offset {A} (limit offset : Z) (rows : list A) : list A :=
  take (Z.to_nat limit) (drop (Z.to_nat offset) rows).

(** [SELECT comment_id, emoji_name, COUNT( * ) ... GROUP BY comment_id,
    emoji_name], restricted to one comment: the count of each emoji name.
    The order of the entries is not modelled. *)
Definition tally (rs : list Reaction) : gmap string nat :=
  foldl (fun m r => <[emoji_name r := S (default 0%nat (m !! emoji_name r))]> m)
        ∅ rs.

(** [reactionCountsMap.get(comment.id) || []]. *)
Definition reaction_counts (d : DB) (pk : Z) : gmap string nat :=
  tally (reactions_of d pk).

(** [GET /api/comments/post/:postId], paginated. *)
Definition get_post_comments (postId : Z) (q : ListQuery)
  : Async (Response PostCommentsJson) :=
  handleValidationErrors (listing_validators postId q) (
    let sort := default "oldest" (q_sort q) in
    let limit := limit_or (q_limit q) 10 in
    let page := limit_or (q_page q) 1 in
    let offset := (page - 1) * limit in
    post ← Post_findById postId;
    match post with
    | None => mret (Failure 404 "Post not found" "NOT_FOUND")
    | Some _ =>
        _ ← issue Comment_count_q;
        totalCount ← read (fun d =>
          Z.of_nat (length (List.filter (top_level postId) (comments d))));
        _ ← issue Comment_findAll_q;
        commentsResult ← read (fun d =>
          sql_limit_offset limit offset
            (order_by_created_at sort
               (List.filter (top_level postId) (comments d))));
        let commentIds := map id commentsResult in
        repliesResult ←
          match commentIds with
          | [] => mret []
          | _ :: _ =>
              _ ← issue Comment_findAll_q;
              read (fun d =>
                order_by_created_at sort
                  (List.filter (reply_to commentIds) (comments d)))
          end;
        let allComments := commentsResult ++ repliesResult in
        processedComments ← read (fun d =>
          map (fun comment =>
                 (getCommentData comment, reaction_counts d (id comment)))
              allComments);
        match assemble_sorted fst sort processedComments with
        | Some rootComments =>
            let totalPages := ceil_div totalCount limit in
            mret (Success 200
                    (mkPostCommentsJson postId rootComments totalCount sort
                       (mkPagination page totalPages totalCount limit
                                     (page <? totalPages) (1 <? page)))
                    "")
        | None => diverge
        end
    end).

(** The data of [GET /api/comments/:id/replies]. *)
Record RepliesJson := mkRepliesJson {
  parent_comment_id : Z;
  replies : list (Comment * gmap string nat);
  r_total_count : nat;
  r_sort : string
}.

(** [GET /api/comments/:id/replies]. *)
Definition get_comment_replies (pk : Z) (q : ListQuery)
  : Async (Response RepliesJson) :=
  handleValidationErrors (replies_validators pk q) (
    let sort := default "oldest" (q_sort q) in
    let limit := limit_or (q_limit q) 20 in
    parentComment ← Comment_findById pk;
    match parentComment with
    | None => mret (Failure 404 "Comment not found" "NOT_FOUND")
    | Some _ =>
        _ ← issue Comment_findAll_q;
        repliesResult ← read (fun d =>
          sql_limit limit
            (order_by_created_at sort (published_replies (comments d) pk)));
        processedReplies ← read (fun d =>
          map (fun comment =>
                 (getCommentData comment, reaction_counts d (id comment)))
              repliesResult);
        mret (Success 200
                (mkRepliesJson pk processedReplies (length processedReplies) sort)
                "")
    end).

End Pg.

(** ** Notions used by the statements *)

(** Length of the chain that [parent] draws from a node to a node without
    parent. *)
Inductive Rank {A} (parent : A -> option A) : A -> nat -> Prop :=
| Rank_root a : parent a = None -> Rank parent a 0
| Rank_step a p n : parent a = Some p -> Rank parent p n -> Rank parent a (S n).

(** [Hops rows c n]: [n] hops along [parent_id] lead from [c] to a comment
    whose [parent_id] is null, every comment on the way being a row. *)
Inductive Hops (rows : list Comment) : Comment -> nat -> Prop :=
| Hops_root c : truthy (parent_id c) = false -> Hops rows c 0
| Hops_reply c p pc n :
    parent_id c = Some p -> truthy (parent_id c) = true ->
    findByPk rows p = Some pc -> Hops rows pc n ->
    Hops rows c (S n).

(** The row that [parent_id] refers to. *)
Definition parent_row (rows : list Comment) (c : Comment) : option Comment :=
  if truthy (parent_id c) then parent_id c ≫= findByPk rows else None.

(** The depth invariant of the store. *)
Definition DepthInv (rows : list Comment) : Prop :=
  forall c, c ∈ rows -> exists n, Hops rows c n /\ (n <= 5)%nat.

(** The earlier checks of [POST /] pass: the body is valid, the post and the
    user exist. *)
Definition admitted (b : CreateBody) (d : DB) : Prop :=
  create_validators b = []
  /\ b_post_id b ∈ posts d
  /\ b_user_id b ∈ users d.

(** The same world with more recorded accesses. *)
Definition logged (w : World) (qs : list Query) : World :=
  mkWorld (db w) (queries w ++ qs) (now w).

(** A small store: comments A and C on post 1, comment B on post 2. *)
Definition sample_rows : list Comment :=
  [ mkComment 1 1 1 None "A" true 10;
    mkComment 2 2 1 None "B" true 20;
    mkComment 3 1 1 (Some 1) "C" true 30 ].

Definition sample_world : World :=
  mkWorld (mkDB [1; 2] [1] sample_rows [] 4) [] 100.


(** [InSubtree rows pk x]: the row [x] is the comment [pk] or one of its
    descendants along [parent_id]. *)
Inductive InSubtree (rows : list Comment) (pk : Z) : Comment -> Prop :=
| InSubtree_self x : x ∈ rows -> id x = pk -> InSubtree rows pk x
| InSubtree_reply x p :
    x ∈ rows -> parent_id x = Some (id p) -> InSubtree rows pk p ->
    InSubtree rows pk x.

(** The message of [DELETE /:id] for [n] counted replies. *)
Definition deleted_message (n : nat) : string :=
  "Comment deleted successfully" +:+
  (if (0 <? n)%nat then " along with " +:+ string_of_nat n +:+ " replies"
   else "").

(** The comments of the scenario of the specification: roots A and B, and the
    chain C, D, E, F, G below A. *)
Definition thread : list Comment :=
  [ mkComment 1 1 1 None "A" true 10;
    mkComment 2 1 1 None "B" true 20;
    mkComment 3 1 1 (Some 1) "C" true 30;
    mkComment 4 1 1 (Some 3) "D" true 40;
    mkComment 5 1 1 (Some 4) "E" true 50;
    mkComment 6 1 1 (Some 5) "F" true 60;
    mkComment 7 1 1 (Some 6) "G" true 70 ].

Definition thread_world : World :=
  mkWorld (mkDB [1] [1] thread [] 8) [] 100.

(** ** Notions about the built heap *)

Section TreeNotions.
Context {A : Type} (row : A -> Comment).

(** The object that the second loop finds for [comment.parent_id]. *)
Definition parent_of (commentMap : gmap Z nat) (c : A) : option nat :=
  if truthy (parent_id (row c)) then parent_id (row c) ≫= (commentMap !!.)
  else None.

(** The parent of the object at position [i] of [cs]. *)
Definition parent_ix (cs : list A) (i : nat) : option nat :=
  cs !! i ≫= parent_of (set_all row 0 cs ∅).

(** The positions, counted from [i], of the comments of [cs] that the second
    loop pushes to the object [p], and of those it pushes to
    [rootComments]. *)
Fixpoint children_from (commentMap : gmap Z nat) (i : nat) (cs : list A)
    (p : nat) : list nat :=
  match cs with
  | [] => []
  | c :: cs' =>
      (if decide (parent_of commentMap c = Some p) then [i] else [])
      ++ children_from commentMap (S i) cs' p
  end.

Fixpoint roots_from (i : nat) (cs : list A) : list nat :=
  match cs with
  | [] => []
  | c :: cs' =>
      (if truthy (parent_id (row c)) then [] else [i]) ++ roots_from (S i) cs'
  end.

(** The [replies] array of the object at [r]. *)
Definition replies_at (heap : list (Obj A)) (r : nat) : list nat :=
  match heap !! r with
  | Some o => o_replies o
  | None => []
  end.

(** A heap that holds the comments of [cs] linked as the second loop links
    them, whatever the order inside the arrays. *)
Record Linked (cs : list A) (heap : list (Obj A)) (roots : list nat) : Prop := {
  linked_data : forall i, o_data <$> heap !! i = cs !! i;
  linked_replies_nodup : forall p, NoDup (replies_at heap p);
  linked_replies : forall p i,
      i ∈ replies_at heap p <-> parent_ix cs i = Some p;
  linked_roots_nodup : NoDup roots;
  linked_roots : forall i,
      i ∈ roots <-> exists c, cs !! i = Some c
                              /\ truthy (parent_id (row c)) = false
}.

(** The [replies] array of [r] is in the order of [sort]. *)
Definition sorted_at (sort : string) (heap : list (Obj A)) (r : nat) : Prop :=
  Sorted (fun i j => in_order sort (created_of row heap i) (created_of row heap j))
         (replies_at heap r).

(** [heap'] is [heap] after some [replies] arrays were sorted in place. *)
Record Resorted (sort : string) (heap heap' : list (Obj A)) : Prop := {
  resorted_data : forall i, o_data <$> heap' !! i = o_data <$> heap !! i;
  resorted_perm : forall r, replies_at heap' r ≡ₚ replies_at heap r;
  resorted_sorted : forall r,
      replies_at heap' r = replies_at heap r \/ sorted_at sort heap' r
}.

(** [Below heap r x]: the object [x] is [r] or is nested below [r]. *)
Inductive Below (heap : list (Obj A)) : nat -> nat -> Prop :=
| Below_refl r : Below heap r r
| Below_step r c x :
    c ∈ replies_at heap r -> Below heap c x -> Below heap r x.
End TreeNotions.

Section FlattenNotions.
Context {A : Type}.

(** The positions of the objects that the pre-order traversal of the object
    [r] visits, at most [fuel] levels deep. *)
Fixpoint flat_ix (fuel : nat) (heap : list (Obj A)) (r : nat) : list nat :=
  match fuel with
  | O => []
  | S fuel' => r :: (replies_at heap r ≫= flat_ix fuel' heap)
  end.

(** The same objects level by level: [rs], then the replies of [rs], and so
    on for [fuel] levels. *)
Fixpoint layers_upto (fuel : nat) (heap : list (Obj A)) (rs : list nat)
  : list nat :=
  match fuel with
  | O => []
  | S fuel' => rs ++ layers_upto fuel' heap (rs ≫= replies_at heap)
  end.

(** The comments carried by the objects at the positions [l]. *)
Definition data_of (heap : list (Obj A)) (l : list nat) : list A :=
  omap (fun i => o_data <$> heap !! i) l.

(** [x] comes before [y] in [l]. *)
Definition Precedes (l : list A) (x y : A) : Prop :=
  exists l1 l2 l3, l = l1 ++ x :: l2 ++ y :: l3.
End FlattenNotions.

(** A reply whose parent is not in the list. *)
Definition orphan : Comment := mkComment 2 1 1 (Some 1) "reply" true 20.

(** A root and a reply whose parent is not in the list. *)
Definition root_and_orphan : list Comment :=
  [mkComment 1 1 1 None "A" true 10; mkComment 3 1 1 (Some 2) "C" true 30].

(** ** [PUT /api/comments/:id] *)

(** The row [c] with another content. *)
Definition with_content (content' : string) (c : Comment) : Comment :=
  mkComment (id c) (post_id c) (user_id c) (parent_id c) content'
            (is_published c) (created_at c).

(** [UPDATE comments SET content = $1 WHERE id = $2]. *)
Definition set_content (pk : Z) (content' : string) (d : DB) : DB :=
  mkDB (posts d) (users d)
       (map (fun c => if id c =? pk then with_content content' c else c)
            (comments d))
       (reactions d) (comments_id_seq d).

(** [comment.update({ content })]: hook [beforeValidate] trims the content,
    the column validators [len] and [notEmpty] run, and the row is written.
    The statement also sets [updated_at], a column that the rows of the model
    do not carry; it is not among the recorded accesses. *)
Definition Comment_update (pk : Z) (content : string) : Async (string + unit) :=
  let content' := trim content in
  if negb (isLength 1 2000 content')
  then mret (inl "Comment content must be between 1 and 2000 characters")
  else
    _ ← write (set_content pk content');
    mret (inr tt).

Definition update_validators (pk : Z) (content : string) : list string :=
  check (isInt_min1 pk) "Comment ID must be a positive integer"
  ++ check (isLength 1 2000 (trim content))
        "Content must be between 1 and 2000 characters".

(** [PUT /api/comments/:id]. *)
Definition put_comment (pk : Z) (content : string)
  : Async (Response (option Comment)) :=
  handleValidationErrors (update_validators pk content) (
    let content' := trim content in
    comment ← Comment_findByPk pk;
    match comment with
    | None => mret (Failure 404 "Comment not found" "NOT_FOUND")
    | Some c =>
        updated ← Comment_update (id c) content';
        match updated with
        | inl e => mret (NextError e)
        | inr _ =>
            updatedComment ← Comment_findByPk pk;
            mret (Success 200 updatedComment "Comment updated successfully")
        end
    end).

(** ** Integrity of the store *)

(** What the foreign keys and the checks of [POST /] maintain: primary keys
    are distinct and were drawn from the sequence; the post and the author of
    a comment exist; a non-null [parent_id] refers to a comment of the same
    post; a reaction on a comment refers to a comment. *)
Record Consistent (d : DB) : Prop := {
  seq_positive : 1 <= comments_id_seq d;
  ids_distinct : NoDup (map id (comments d));
  ids_drawn : forall c, c ∈ comments d -> 1 <= id c < comments_id_seq d;
  post_exists : forall c, c ∈ comments d -> post_id c ∈ posts d;
  user_exists : forall c, c ∈ comments d -> user_id c ∈ users d;
  parent_resolves : forall c p, c ∈ comments d -> parent_id c = Some p ->
      exists pc, pc ∈ comments d /\ id pc = p /\ post_id pc = post_id c;
  reaction_resolves : forall r c, r ∈ reactions d -> comment_id r = Some c ->
      c ∈ map id (comments d)
}.


(** The thread with reactions on the comments B, C and E. *)
Definition reacted_world : World :=
  mkWorld (mkDB [1] [1] thread
                [ mkReaction (Some 2) "heart" "U+2764";
                  mkReaction (Some 3) "thumbs_up" "U+1F44D";
                  mkReaction (Some 5) "thumbs_up" "U+1F44D" ] 8) [] 100.

(** ** Instance methods of the models *)

(** [comment.getDepth()]: [Comment.getCommentDepth(this.parent_id)]. *)
Definition getDepth (c : Comment) : Async nat :=
  Comment_getCommentDepth (parent_id c).

(** [getPreview(maxLength)] of the [Comment] model (default 100) and of the
    [Post] model (default 200):
    [content.substring(0, maxLength).trim() + '...'] for a content longer
    than [maxLength]. *)
Definition getPreview (maxLength : nat) (content : string) : string :=
  match content with
  | EmptyString => ""
  | _ =>
      if (String.length content <=? maxLength)%nat then content
      else trim (String.substring 0 maxLength content) +:+ "..."
  end.






(** ** The recursive comment query of [GET /api/posts/:id]

    [WITH RECURSIVE comment_tree AS (roots UNION ALL children) SELECT * FROM
    comment_tree ORDER BY level, created_at ASC]: the non-recursive term
    selects the published top-level comments of the post at level 0; the
    recursive term joins the published comments to the rows of the previous
    round on [c.parent_id = ct.id], one level further; the evaluation stops
    at the first round without rows. *)

(** One round of the recursive term over the working table. *)
Definition tree_step (working rows : list Comment) : list Comment :=
  c ← rows;
  ct ← working;
  if bool_decide (parent_id c = Some (id ct)) && is_published c then [c] else [].

(** The rounds, from the working table [working] at level [level]; [None]:
    still rows after [fuel] rounds. *)
Fixpoint comment_tree (fuel : nat) (level : Z) (working rows : list Comment)
  : option (list (Comment * Z)) :=
  match working with
  | [] => Some []
  | _ :: _ =>
      match fuel with
      | O => None
      | S fuel' =>
          rest ← comment_tree fuel' (level + 1) (tree_step working rows) rows;
          Some (map (fun c => (c, level)) working ++ rest)
      end
  end.

(** [ORDER BY level, created_at ASC]. *)
Definition by_level_date (a b : Comment * Z) : Z :=
  if snd a =? snd b then created_at (fst a) - created_at (fst b)
  else snd a - snd b.

(** The whole query.  With distinct ids a round holds each comment at most
    once and the levels are fewer than the comments, so [length rows + 1]
    rounds are enough; a query that needs more never ends. *)
Definition comment_tree_query (postId : Z) (rows : list Comment)
  : option (list (Comment * Z)) :=
  found ← comment_tree (S (length rows)) 0
                       (List.filter (Pg.top_level postId) rows) rows;
  Some (Array_sort by_level_date found).

(** [Shown rows postId c]: the comment [c] is published and leads to a
    top-level comment of the post through published comments. *)
Inductive Shown (rows : list Comment) (postId : Z) : Comment -> Prop :=
| Shown_root c :
    c ∈ rows -> Pg.top_level postId c = true -> Shown rows postId c
| Shown_reply c p :
    c ∈ rows -> is_published c = true -> parent_id c = Some (id p) ->
    Shown rows postId p -> Shown rows postId c.

(** ** The PostgreSQL post routes *)

Module Posts.

(** A row of table [posts]; the author columns that the queries join from
    [users], and [views_count], are left out. *)
Record Post := mkPost {
  id : Z;
  user_id : Z;
  content : string;
  privacy_level : string;
  is_published : bool;
  created_at : Z
}.

(** A row of table [reactions] that is a reaction on a post. *)
Record PostReaction := mkPostReaction {
  r_post_id : option Z;
  r_emoji_name : string;
  r_emoji_unicode : string
}.

(** The tables that the post routes read. *)
Record Store := mkStore {
  posts_table : list Post;
  comments_table : list Comment;
  reactions_table : list PostReaction
}.

(** [post.canUserView(user)] of the [Post] model; [user] is the id of the
    requesting user when there is one.  [user && user.id === this.user_id]
    is read for its truth value. *)
Definition canUserView (user : option Z) (post : Post) : bool :=
  let is_author :=
    match user with
    | Some u => u =? user_id post
    | None => false
    end in
  if negb (is_published post) then is_author
  else if String.eqb (privacy_level post) "public" then true
  else if String.eqb (privacy_level post) "private" then is_author
  else if String.eqb (privacy_level post) "friends" then
    match user with
    | None => false
    | Some u => if u =? user_id post then true else false
    end
  else false.

(** The three access checks of [GET /api/posts/:id], each of which answers
    403: [true] when one of them fires. *)
Definition access_denied (user : option Z) (post : Post) : bool :=
  let not_author :=
    match user with
    | Some u => negb (user_id post =? u)
    | None => true
    end in
  if negb (is_published post) && not_author then true
  else if String.eqb (privacy_level post) "private" && not_author then true
  else if String.eqb (privacy_level post) "friends"
          && match user with None => true | Some _ => false end then true
  else false.


Definition isIn_privacy (s : string) : bool :=
  String.eqb s "public" || String.eqb s "friends" || String.eqb s "private".



(** [ORDER BY p.created_at DESC|ASC]. *)
Definition order_by_created_at (sort : string) (rows : list Post) : list Post :=
  Array_sort (by_date created_at sort) rows.

(** The aggregate [reaction_counts.reactions] of a post: the count of each
    pair of emoji name and unicode; the order of the array is not
    modelled. *)
Definition reaction_counts (rs : list PostReaction) (pk : Z)
  : gmap (string * string) nat :=
  foldl (fun m r =>
           if bool_decide (r_post_id r = Some pk) then
             let key := (r_emoji_name r, r_emoji_unicode r) in
             <[key := S (default 0%nat (m !! key))]> m
           else m)
        ∅ rs.





(** The data of [GET /api/posts/:id]; the attachments of the post, which
    a separate query fetches into the field [media], are left out. *)
Record PostData := mkPostData {
  d_post : Post;
  d_comments : list (Tree Comment)
}.

(** [GET /api/posts/:id] for a request of [user]; [None] when the comment
    query never ends. *)
Definition get_post (user : option Z) (pk : Z) (s : Store)
  : option (Response PostData) :=
  if negb (isInt_min1 pk)
  then Some (Failure 400 "Validation failed" "VALIDATION_ERROR")
  else
    match List.find (fun p => id p =? pk) (posts_table s) with
    | None => Some (Failure 404 "Post not found" "NOT_FOUND")
    | Some post =>
        if access_denied user post
        then Some (Failure 403 "Access denied" "AUTHORIZATION_ERROR")
        else
          commentsResult ← comment_tree_query pk (comments_table s);
          comments ← assemble_single_pass (fun c => c) (map fst commentsResult);
          Some (Success 200 (mkPostData post comments) "")
    end.

End Posts.



(** A small table of posts: public, private, for friends, a draft, public. *)
Definition sample_posts : list Posts.Post :=
  [ Posts.mkPost 1 1 "first" "public" true 10;
    Posts.mkPost 2 2 "diary" "private" true 20;
    Posts.mkPost 3 1 "party" "friends" true 30;
    Posts.mkPost 4 2 "draft" "public" false 40;
    Posts.mkPost 5 2 "news" "public" true 50 ].

Definition sample_store : Posts.Store :=
  Posts.mkStore sample_posts thread [].

Section SinglePassNotions.
Context {A : Type} (row : A -> Comment).

(** In the list [cs] every reply comes after its parent, whose id is not
    0. *)
Definition ParentsFirst (cs : list A) : Prop :=
  forall i c p, cs !! i = Some c -> parent_id (row c) = Some p ->
    p <> 0 /\ exists j pc, (j < i)%nat /\ cs !! j = Some pc /\ id (row pc) = p.
End SinglePassNotions.

(** [Level rows postId c k]: the recursive query reaches [c] in round [k]. *)
Inductive Level (rows : list Comment) (postId : Z) : Comment -> nat -> Prop :=
| Level_root c :
    c ∈ rows -> Pg.top_level postId c = true -> Level rows postId c 0
| Level_reply c p k :
    c ∈ rows -> is_published c = true -> parent_id c = Some (id p) ->
    Level rows postId p k -> Level rows postId c (S k).

(** In the table a published reply has a published parent. *)
Definition PublishedParents (rows : list Comment) : Prop :=
  forall c pc, c ∈ rows -> pc ∈ rows -> is_published c = true ->
    parent_id c = Some (id pc) -> is_published pc = true.

(** ** Proofs *)

Ltac async :=
  unfold mbind, mret, Async_bind, Async_ret, issue, read, write, clock,
    diverge in *; simpl in *.

Lemma logged_logged w qs qs' : logged (logged w qs) qs' = logged w (qs ++ qs').
Proof. unfold logged; simpl. by rewrite <- app_assoc. Qed.

Lemma logged_nil w : logged w [] = w.
Proof. destruct w; unfold logged; simpl. by rewrite app_nil_r. Qed.

Lemma find_eqb_Some (l : list Z) pk : pk ∈ l -> List.find (fun p => p =? pk) l = Some pk.
Proof.
  induction l as [|x l IH]; simpl.
  - by intros ?%elem_of_nil.
  - intros [->|Hin]%elem_of_cons.
    + by rewrite Z.eqb_refl.
    + destruct (Z.eqb_spec x pk) as [->|_]; auto.
Qed.

Lemma find_eqb_None (l : list Z) pk : pk ∉ l -> List.find (fun p => p =? pk) l = None.
Proof.
  induction l as [|x l IH]; simpl; [done|].
  intros Hn. destruct (Z.eqb_spec x pk) as [->|_].
  - exfalso. apply Hn. by left.
  - apply IH. intros ?. apply Hn. by right.
Qed.

Lemma Post_findByPk_run pk w :
  Post_findByPk pk w =
  Some (List.find (fun p => p =? pk) (posts (db w)), logged w [Post_findByPk_q pk]).
Proof. reflexivity. Qed.

Lemma User_findByPk_run pk w :
  User_findByPk pk w =
  Some (List.find (fun p => p =? pk) (users (db w)), logged w [User_findByPk_q pk]).
Proof. reflexivity. Qed.

Lemma Comment_findByPk_run pk w :
  Comment_findByPk pk w =
  Some (findByPk (comments (db w)) pk, logged w [Comment_findByPk_q pk]).
Proof. reflexivity. Qed.

Lemma bind_run {A B} (m : Async A) (f : A -> Async B) w a w' :
  m w = Some (a, w') -> (m ≫= f) w = f a w'.
Proof. intros H. unfold mbind, Async_bind. by rewrite H. Qed.

Lemma check_nil ok msg : check ok msg = [] <-> ok = true.
Proof. destruct ok; simpl; split; congruence. Qed.

Lemma create_validators_nil b :
  create_validators b = [] <->
  isInt_min1 (b_post_id b) = true /\ isInt_min1 (b_user_id b) = true
  /\ isLength 1 2000 (trim (b_content b)) = true
  /\ match b_parent_id b with Some p => isInt_min1 p = true | None => True end.
Proof.
  unfold create_validators, optional.
  rewrite !app_nil, !check_nil.
  destruct (b_parent_id b); [rewrite check_nil|]; intuition.
Qed.

(** Trimming twice is trimming once. *)
Lemma rtrim_head s a r : rtrim s = String a r -> exists s', s = String a s'.
Proof.
  destruct s as [|b s']; simpl; [done|].
  destruct (rtrim s'); [destruct (is_space b)|]; intros [= <- _]; eauto.
Qed.

Lemma rtrim_idem s : rtrim (rtrim s) = rtrim s.
Proof.
  induction s as [|a s IH]; simpl; [done|].
  destruct (rtrim s) as [|b r] eqn:Hr.
  - destruct (is_space a) eqn:Ha; simpl; [done|by rewrite Ha].
  - change (rtrim (String a (String b r))) with
      (match rtrim (String b r) with
       | EmptyString => if is_space a then EmptyString else String a EmptyString
       | r' => String a r'
       end).
    by rewrite IH.
Qed.

Lemma ltrim_head s a r : ltrim s = String a r -> is_space a = false.
Proof.
  induction s as [|b s IH]; simpl; [done|].
  destruct (is_space b) eqn:Hb; [done|]. by intros [= <- _].
Qed.

Lemma trim_idem s : trim (trim s) = trim s.
Proof.
  unfold trim.
  assert (ltrim (rtrim (ltrim s)) = rtrim (ltrim s)) as ->; [|apply rtrim_idem].
  destruct (rtrim (ltrim s)) as [|a r] eqn:Hr; [done|].
  destruct (rtrim_head _ _ _ Hr) as [s' Hs'].
  apply ltrim_head in Hs'. simpl. by rewrite Hs'.
Qed.

Lemma truthy_Some p : truthy (Some p) = true <-> p <> 0.
Proof. simpl. destruct (Z.eqb_spec p 0); simpl; split; congruence. Qed.

Lemma findByPk_id rows pk c : findByPk rows pk = Some c -> id c = pk /\ c ∈ rows.
Proof.
  unfold findByPk. intros H. apply find_some in H as [Hin Heq].
  split; [by apply Z.eqb_eq|]. by apply list_elem_of_In.
Qed.

Lemma findByPk_app rows c pk :
  findByPk (rows ++ [c]) pk =
  match findByPk rows pk with
  | Some x => Some x
  | None => if id c =? pk then Some c else None
  end.
Proof.
  unfold findByPk. induction rows as [|x rows IH]; simpl; [done|].
  destruct (id x =? pk); auto.
Qed.

Lemma Hops_app rows x c n : Hops rows c n -> Hops (rows ++ [x]) c n.
Proof.
  induction 1 as [c Hc|c p pc n Hp Ht Hf _ IH].
  - by constructor.
  - eapply Hops_reply; eauto. rewrite findByPk_app. by rewrite Hf.
Qed.

Lemma Hops_fun rows c n m : Hops rows c n -> Hops rows c m -> n = m.
Proof.
  intros H. revert m. induction H as [c Hc|c p pc n Hp Ht Hf _ IH]; intros m Hm.
  - inversion Hm; subst; [done|congruence].
  - inversion Hm; subst; [congruence|].
    f_equal. apply IH. congruence.
Qed.

Lemma Rank_fun {A} (parent : A -> option A) a n m :
  Rank parent a n -> Rank parent a m -> n = m.
Proof.
  intros H. revert m. induction H as [a Ha|a p n Hp _ IH]; intros m Hm.
  - inversion Hm; subst; [done|congruence].
  - inversion Hm; subst; [congruence|]. f_equal. apply IH. congruence.
Qed.

(** A chain without parent has distinct nodes, so it is no longer than a
    list that contains it. *)
Lemma Rank_chain {A} (parent : A -> option A) (univ : list A) :
  (forall a p, a ∈ univ -> parent a = Some p -> p ∈ univ) ->
  forall a n, Rank parent a n -> a ∈ univ ->
  exists l, length l = S n /\ NoDup l /\ l ⊆ univ
            /\ forall x, x ∈ l -> exists m, (m <= n)%nat /\ Rank parent x m.
Proof.
  intros Hclosed a n H. induction H as [a Ha|a p n Hp Hr IH]; intros Hin.
  - exists [a]. repeat split.
    + apply NoDup_singleton.
    + intros x ->%list_elem_of_singleton. done.
    + intros x ->%list_elem_of_singleton. exists 0%nat. split; [lia|by constructor].
  - destruct IH as (l & Hlen & Hnd & Hsub & Hrk); [by eapply Hclosed|].
    exists (a :: l). repeat split.
    + simpl. by rewrite Hlen.
    + constructor; [|done]. intros Hal.
      destruct (Hrk _ Hal) as (m & Hm & Hrm).
      assert (Rank parent a (S n)) as Hra by (econstructor; eauto).
      pose proof (Rank_fun parent _ _ _ Hrm Hra). lia.
    + intros x [->|Hx]%elem_of_cons; [done|by apply Hsub].
    + intros x [->|Hx]%elem_of_cons.
      * exists (S n). split; [lia|]. econstructor; eauto.
      * destruct (Hrk _ Hx) as (m & Hm & Hrm). exists m. split; [lia|done].
Qed.

Lemma Rank_bound {A} (parent : A -> option A) (univ : list A) :
  (forall a p, a ∈ univ -> parent a = Some p -> p ∈ univ) ->
  forall a n, Rank parent a n -> a ∈ univ -> (n < length univ)%nat.
Proof.
  intros Hclosed a n Hr Hin.
  destruct (Rank_chain parent univ Hclosed a n Hr Hin) as (l & Hlen & Hnd & Hsub & _).
  assert (length l <= length univ)%nat; [|lia].
  apply submseteq_length, NoDup_submseteq; auto.
Qed.


Lemma Hops_Rank rows c n : Hops rows c n -> Rank (parent_row rows) c n.
Proof.
  induction 1 as [c Hc|c p pc n Hp Ht Hf _ IH].
  - constructor. unfold parent_row. by rewrite Hc.
  - econstructor; [|exact IH]. unfold parent_row. rewrite Ht, Hp. exact Hf.
Qed.

Lemma Hops_bound rows c n : c ∈ rows -> Hops rows c n -> (n < length rows)%nat.
Proof.
  intros Hin H. eapply (Rank_bound (parent_row rows)); [|by apply Hops_Rank|done].
  intros a p _. unfold parent_row.
  destruct (truthy (parent_id a)); [|done].
  destruct (parent_id a) as [q|]; simpl; [|done].
  by intros [_ ?]%findByPk_id.
Qed.

(** [getCommentDepth] only reads. *)
Lemma getCommentDepth_rec_logged fuel cid w n w' :
  getCommentDepth_rec fuel cid w = Some (n, w') -> exists qs, w' = logged w qs.
Proof.
  revert cid w n w'. induction fuel as [|fuel IH]; intros cid w n w'; simpl; [done|].
  destruct cid as [pk|]; [|intros [= <- <-]; exists []; by rewrite logged_nil].
  destruct (negb (truthy (Some pk))); [intros [= <- <-]; exists []; by rewrite logged_nil|].
  rewrite (bind_run _ _ _ _ _ (Comment_findByPk_run pk w)).
  destruct (findByPk (comments (db w)) pk) as [c|];
    [|intros [= <- <-]; eexists; reflexivity].
  destruct (negb (truthy (parent_id c))); [intros [= <- <-]; eexists; reflexivity|].
  unfold mbind, Async_bind.
  destruct (getCommentDepth_rec fuel (parent_id c) _) as [[d w1]|] eqn:Hrec; [|done].
  intros [= <- <-]. apply IH in Hrec as [qs ->].
  rewrite logged_logged. eexists; reflexivity.
Qed.

(** With enough nested calls allowed, [getCommentDepth] returns the number of
    hops of the comment it is asked about. *)
Lemma getCommentDepth_rec_Hops rows pc n :
  Hops rows pc n ->
  forall fuel p w, comments (db w) = rows -> findByPk rows p = Some pc ->
    p <> 0 -> (n < fuel)%nat ->
    exists qs, getCommentDepth_rec fuel (Some p) w = Some (n, logged w qs).
Proof.
  induction 1 as [c Hc|c q pc n Hq Ht Hf _ IH]; intros fuel p w Hw Hp Hp0 Hfuel;
    (destruct fuel as [|fuel]; [lia|]); simpl.
  - destruct (Z.eqb_spec p 0) as [|_]; [done|]. simpl.
    rewrite (bind_run _ _ _ _ _ (Comment_findByPk_run p w)), Hw, Hp, Hc. simpl.
    eexists; reflexivity.
  - destruct (Z.eqb_spec p 0) as [|_]; [done|]. simpl.
    rewrite (bind_run _ _ _ _ _ (Comment_findByPk_run p w)), Hw, Hp, Ht. simpl.
    rewrite Hq.
    destruct (IH fuel q (logged w [Comment_findByPk_q p])) as [qs Hrun];
      [done|done|by apply truthy_Some; rewrite <- Hq|lia|].
    rewrite (bind_run _ _ _ _ _ Hrun). rewrite logged_logged.
    eexists; reflexivity.
Qed.

Lemma Comment_getCommentDepth_Hops w p pc n :
  findByPk (comments (db w)) p = Some pc -> p <> 0 ->
  Hops (comments (db w)) pc n ->
  exists qs, Comment_getCommentDepth (Some p) w = Some (n, logged w qs).
Proof.
  intros Hp Hp0 Hh. unfold Comment_getCommentDepth.
  eapply getCommentDepth_rec_Hops; eauto.
  apply findByPk_id in Hp as [_ Hin].
  pose proof (Hops_bound _ _ _ Hin Hh). lia.
Qed.

Lemma Comment_getCommentDepth_logged cid w n w' :
  Comment_getCommentDepth cid w = Some (n, w') -> exists qs, w' = logged w qs.
Proof. apply getCommentDepth_rec_logged. Qed.

(** The parent checks of the route, case by case. *)
Lemma check_parent_missing post p w :
  p <> 0 -> findByPk (comments (db w)) p = None ->
  check_parent post (Some p) w
  = Some (Some (Failure 404 "Parent comment not found" "NOT_FOUND"),
          logged w [Comment_findByPk_q p]).
Proof.
  intros Hp Hf. unfold check_parent.
  apply truthy_Some in Hp as ->.
  by rewrite (bind_run _ _ _ _ _ (Comment_findByPk_run p w)), Hf.
Qed.

Lemma check_parent_other_post post p pc w :
  p <> 0 -> findByPk (comments (db w)) p = Some pc -> post_id pc <> post ->
  check_parent post (Some p) w
  = Some (Some (Failure 400 "Parent comment must belong to the same post"
                        "INVALID_PARENT"),
          logged w [Comment_findByPk_q p]).
Proof.
  intros Hp Hf Hne. unfold check_parent.
  apply truthy_Some in Hp as ->.
  rewrite (bind_run _ _ _ _ _ (Comment_findByPk_run p w)), Hf.
  by destruct (Z.eqb_spec (post_id pc) post).
Qed.

Lemma check_parent_depth post p pc n w :
  p <> 0 -> findByPk (comments (db w)) p = Some pc -> post_id pc = post ->
  Hops (comments (db w)) pc n ->
  exists qs,
    check_parent post (Some p) w
    = Some (if (5 <=? n)%nat
            then Some (Failure 400
                         "Maximum comment nesting depth exceeded (5 levels)"
                         "MAX_DEPTH_EXCEEDED")
            else None,
            logged w qs).
Proof.
  intros Hp Hf Heq Hh. unfold check_parent.
  pose proof Hp as Ht. apply truthy_Some in Ht as ->.
  rewrite (bind_run _ _ _ _ _ (Comment_findByPk_run p w)), Hf.
  destruct (Z.eqb_spec (post_id pc) post); [cbn [negb]|done].
  destruct (Comment_getCommentDepth_Hops (logged w [Comment_findByPk_q p]) p pc n)
    as [qs Hrun]; [done..|].
  rewrite (bind_run _ _ _ _ _ Hrun), logged_logged.
  destruct (5 <=? n)%nat; eexists; reflexivity.
Qed.

(** The checks only read, and they let the handler go on only past an
    existing parent of the same post. *)
Lemma check_parent_inv post parent w early w' :
  check_parent post parent w = Some (early, w') ->
  (exists qs, w' = logged w qs)
  /\ (early = None -> forall p, parent = Some p -> p <> 0 ->
      exists pc, findByPk (comments (db w)) p = Some pc /\ post_id pc = post).
Proof.
  unfold check_parent. destruct parent as [p|];
    [|intros [= <- <-]; split; [exists []; by rewrite logged_nil|done]].
  destruct (truthy (Some p)) eqn:Ht;
    [|intros [= <- <-]; split; [exists []; by rewrite logged_nil|];
      intros _ q [= <-] Hq; apply truthy_Some in Hq; congruence].
  rewrite (bind_run _ _ _ _ _ (Comment_findByPk_run p w)).
  destruct (findByPk (comments (db w)) p) as [pc|] eqn:Hf;
    [|intros [= <- <-]; split; [eexists; reflexivity|done]].
  destruct (Z.eqb_spec (post_id pc) post) as [Heq|Hne]; cbn [negb];
    [|intros [= <- <-]; split; [eexists; reflexivity|done]].
  unfold mbind, Async_bind.
  destruct (Comment_getCommentDepth _ _) as [[d w1]|] eqn:Hd; [|done].
  apply Comment_getCommentDepth_logged in Hd as [qs ->].
  rewrite logged_logged.
  destruct (5 <=? d)%nat; intros [= <- <-]; (split; [eexists; reflexivity|]);
    [done|].
  intros _ q [= <-] _. eauto.
Qed.

Lemma beforeCreate_logged v w r w' :
  beforeCreate v w = Some (r, w') -> exists qs, w' = logged w qs.
Proof.
  unfold beforeCreate. destruct (v_parent_id v) as [p|];
    [|intros [= <- <-]; exists []; by rewrite logged_nil].
  destruct (truthy (Some p));
    [|intros [= <- <-]; exists []; by rewrite logged_nil].
  rewrite (bind_run _ _ _ _ _ (Comment_findByPk_run p w)).
  destruct (findByPk (comments (db w)) p) as [pc|];
    [|intros [= <- <-]; eexists; reflexivity].
  destruct (negb (post_id pc =? v_post_id v));
    [intros [= <- <-]; eexists; reflexivity|].
  unfold mbind, Async_bind.
  destruct (Comment_getCommentDepth _ _) as [[d w1]|] eqn:Hd; [|done].
  apply Comment_getCommentDepth_logged in Hd as [qs ->].
  rewrite logged_logged.
  destruct (5 <=? d)%nat; intros [= <- <-]; eexists; reflexivity.
Qed.

(** The hook accepts what the route has accepted. *)
Lemma beforeCreate_pass v w :
  match v_parent_id v with
  | Some p =>
      p <> 0 /\ exists pc n, findByPk (comments (db w)) p = Some pc
        /\ post_id pc = v_post_id v /\ Hops (comments (db w)) pc n
        /\ (n <= 4)%nat
  | None => True
  end ->
  exists qs, beforeCreate v w = Some (inr tt, logged w qs).
Proof.
  unfold beforeCreate. destruct (v_parent_id v) as [p|];
    [|intros _; exists []; by rewrite logged_nil].
  intros (Hp & pc & n & Hf & Heq & Hh & Hn).
  pose proof Hp as Ht. apply truthy_Some in Ht as ->.
  rewrite (bind_run _ _ _ _ _ (Comment_findByPk_run p w)), Hf.
  destruct (Z.eqb_spec (post_id pc) (v_post_id v)); [cbn [negb]|done].
  destruct (Comment_getCommentDepth_Hops (logged w [Comment_findByPk_q p]) p pc n)
    as [qs Hrun]; [done..|].
  rewrite (bind_run _ _ _ _ _ Hrun), logged_logged.
  destruct (Nat.leb_spec 5 n); [lia|]. eexists; reflexivity.
Qed.

(** [Comment.create] either throws and leaves the store as it is, or appends
    one row. *)
Lemma Comment_create_inv v w r w' :
  Comment_create v w = Some (r, w') ->
  (exists e, r = inl e /\ db w' = db w)
  \/ (exists c, r = inr c
      /\ c = mkComment (comments_id_seq (db w)) (v_post_id v) (v_user_id v)
                       (v_parent_id v) (trim (v_content v)) true (now w)
      /\ db w' = insert_comment c (db w)).
Proof.
  unfold Comment_create.
  destruct (negb (isLength 1 2000 (trim (v_content v))));
    [intros [= <- <-]; left; eauto|].
  unfold mbind at 1, Async_bind at 1.
  destruct (beforeCreate v w) as [[[e|[]] w1]|] eqn:Hb; [| |done].
  - apply beforeCreate_logged in Hb as [qs ->]. intros [= <- <-]. left; eauto.
  - apply beforeCreate_logged in Hb as [qs ->]. intros [= <- <-].
    right. eexists. split; [reflexivity|]. split; reflexivity.
Qed.

Lemma Comment_create_pass v w qs :
  isLength 1 2000 (trim (v_content v)) = true ->
  beforeCreate v w = Some (inr tt, logged w qs) ->
  let c := mkComment (comments_id_seq (db w)) (v_post_id v) (v_user_id v)
                     (v_parent_id v) (trim (v_content v)) true (now w) in
  Comment_create v w
  = Some (inr c, mkWorld (insert_comment c (db w))
                         (queries w ++ qs ++ [Comment_create_q]) (now w)).
Proof.
  intros Hlen Hb c. unfold Comment_create. rewrite Hlen. simpl.
  rewrite (bind_run _ _ _ _ _ Hb). unfold logged. async.
  by rewrite <- app_assoc.
Qed.

Lemma DepthInv_insert rows c :
  DepthInv rows ->
  (exists n, Hops rows c n /\ (n <= 5)%nat) ->
  DepthInv (rows ++ [c]).
Proof.
  intros Hinv (n & Hh & Hn) x [Hx| ->%list_elem_of_singleton]%elem_of_app.
  - destruct (Hinv x Hx) as (m & Hm & Hle). exists m. split; [by apply Hops_app|done].
  - exists n. split; [by apply Hops_app|done].
Qed.

Ltac enter_post Hadm :=
  let Hv := fresh "Hv" in
  let Hpost := fresh "Hpost" in
  let Huser := fresh "Huser" in
  unfold post_comment; destruct Hadm as (Hv & Hpost & Huser);
  rewrite Hv; cbn [handleValidationErrors];
  rewrite (bind_run _ _ _ _ _ (Post_findByPk_run _ _)),
    (find_eqb_Some _ _ Hpost);
  rewrite (bind_run _ _ _ _ _ (User_findByPk_run _ _));
  cbn [logged db]; rewrite (find_eqb_Some _ _ Huser), logged_logged.

(** What the route does with a reply to an existing comment of the same
    post, by the number of hops of that comment. *)
Lemma post_comment_reply b w p pc n :
  admitted b (db w) -> b_parent_id b = Some p ->
  findByPk (comments (db w)) p = Some pc -> post_id pc = b_post_id b ->
  Hops (comments (db w)) pc n ->
  exists qs,
    post_comment b w
    = if (5 <=? n)%nat then
        Some (Failure 400 "Maximum comment nesting depth exceeded (5 levels)"
                      "MAX_DEPTH_EXCEEDED", logged w qs)
      else
        let c := mkComment (comments_id_seq (db w)) (b_post_id b) (b_user_id b)
                           (Some p) (trim (b_content b)) true (now w) in
        Some (Success 201 (findByPk (comments (db w) ++ [c]) (id c))
                      "Reply created successfully",
              mkWorld (insert_comment c (db w)) (queries w ++ qs) (now w)).
Proof.
  intros Hadm Hb Hf Heq Hh.
  assert (p <> 0) as Hp0.
  { destruct Hadm as (Hv & _). apply create_validators_nil in Hv as (_ & _ & _ & Hp).
    rewrite Hb in Hp. unfold isInt_min1 in Hp. apply Z.leb_le in Hp. lia. }
  assert (isLength 1 2000 (trim (trim (b_content b))) = true) as Hlen.
  { destruct Hadm as (Hv & _). apply create_validators_nil in Hv as (_ & _ & Hc & _).
    by rewrite trim_idem. }
  enter_post Hadm. rewrite Hb.
  set (w1 := logged w _).
  destruct (check_parent_depth (b_post_id b) p pc n w1) as [qs Hrun]; [done..|].
  rewrite (bind_run _ _ _ _ _ Hrun). unfold w1. rewrite logged_logged.
  destruct (Nat.leb_spec 5 n) as [Hn|Hn]; [eexists; reflexivity|].
  set (w2 := logged w _).
  set (v := mkValues _ _ _ _).
  destruct (beforeCreate_pass v w2) as [qs' Hhook].
  { simpl. split; [done|]. exists pc, n. repeat split; auto. lia. }
  pose proof (Comment_create_pass v w2 qs' Hlen Hhook) as Hc. cbn zeta in Hc.
  rewrite (bind_run _ _ _ _ _ Hc).
  rewrite (bind_run _ _ _ _ _ (Comment_findByPk_run _ _)).
  apply truthy_Some in Hp0 as ->.
  unfold logged, w2, logged; simpl.
  rewrite trim_idem, <- ?app_assoc. eexists. reflexivity.
Qed.

Lemma post_comment_invalid b w :
  create_validators b <> [] ->
  post_comment b w = Some (Failure 400 "Validation failed" "VALIDATION_ERROR", w).
Proof.
  intros Hv. unfold post_comment. by destruct (create_validators b).
Qed.

Lemma post_comment_no_post b w :
  create_validators b = [] -> b_post_id b ∉ posts (db w) ->
  post_comment b w
  = Some (Failure 404 "Post not found" "NOT_FOUND",
          logged w [Post_findByPk_q (b_post_id b)]).
Proof.
  intros Hv Hpost. unfold post_comment. rewrite Hv. cbn [handleValidationErrors].
  rewrite (bind_run _ _ _ _ _ (Post_findByPk_run _ _)), (find_eqb_None _ _ Hpost).
  reflexivity.
Qed.

Lemma post_comment_no_user b w :
  create_validators b = [] -> b_post_id b ∈ posts (db w) ->
  b_user_id b ∉ users (db w) ->
  post_comment b w
  = Some (Failure 404 "User not found" "NOT_FOUND",
          logged w [Post_findByPk_q (b_post_id b); User_findByPk_q (b_user_id b)]).
Proof.
  intros Hv Hpost Huser. unfold post_comment. rewrite Hv. cbn [handleValidationErrors].
  rewrite (bind_run _ _ _ _ _ (Post_findByPk_run _ _)), (find_eqb_Some _ _ Hpost).
  rewrite (bind_run _ _ _ _ _ (User_findByPk_run _ _)).
  cbn [logged db]. rewrite (find_eqb_None _ _ Huser).
  unfold logged; simpl. by rewrite <- app_assoc.
Qed.

Lemma admitted_parent b d p :
  admitted b d -> b_parent_id b = Some p -> p <> 0.
Proof.
  intros (Hv & _) Hb. apply create_validators_nil in Hv as (_ & _ & _ & Hp).
  rewrite Hb in Hp. unfold isInt_min1 in Hp. apply Z.leb_le in Hp. lia.
Qed.

Lemma post_comment_parent_missing b w p :
  admitted b (db w) -> b_parent_id b = Some p ->
  findByPk (comments (db w)) p = None ->
  post_comment b w
  = Some (Failure 404 "Parent comment not found" "NOT_FOUND",
          logged w [Post_findByPk_q (b_post_id b); User_findByPk_q (b_user_id b);
                    Comment_findByPk_q p]).
Proof.
  intros Hadm Hb Hf. pose proof (admitted_parent _ _ _ Hadm Hb) as Hp0.
  enter_post Hadm. rewrite Hb.
  rewrite (bind_run _ _ _ _ _ (check_parent_missing _ p (logged w _) Hp0 Hf)).
  by rewrite logged_logged.
Qed.

Lemma post_comment_other_post b w p pc :
  admitted b (db w) -> b_parent_id b = Some p ->
  findByPk (comments (db w)) p = Some pc -> post_id pc <> b_post_id b ->
  post_comment b w
  = Some (Failure 400 "Parent comment must belong to the same post"
                  "INVALID_PARENT",
          logged w [Post_findByPk_q (b_post_id b); User_findByPk_q (b_user_id b);
                    Comment_findByPk_q p]).
Proof.
  intros Hadm Hb Hf Hne. pose proof (admitted_parent _ _ _ Hadm Hb) as Hp0.
  enter_post Hadm. rewrite Hb.
  rewrite (bind_run _ _ _ _ _ (check_parent_other_post _ p pc (logged w _) Hp0 Hf Hne)).
  by rewrite logged_logged.
Qed.

Lemma post_comment_top_level b w :
  admitted b (db w) -> b_parent_id b = None ->
  let c := mkComment (comments_id_seq (db w)) (b_post_id b) (b_user_id b)
                     None (trim (b_content b)) true (now w) in
  post_comment b w
  = Some (Success 201 (findByPk (comments (db w) ++ [c]) (id c))
                  "Comment created successfully",
          mkWorld (insert_comment c (db w))
                  (queries w ++ [Post_findByPk_q (b_post_id b);
                                 User_findByPk_q (b_user_id b);
                                 Comment_create_q;
                                 Comment_findByPk_q (id c)]) (now w)).
Proof.
  intros Hadm Hb c.
  assert (isLength 1 2000 (trim (trim (b_content b))) = true) as Hlen.
  { destruct Hadm as (Hv & _). apply create_validators_nil in Hv as (_ & _ & Hc & _).
    by rewrite trim_idem. }
  enter_post Hadm. rewrite Hb. cbn [check_parent].
  rewrite (bind_run (mret None) _ (logged w _) None _ eq_refl).
  set (w2 := logged w _).
  set (v := mkValues _ _ _ _).
  assert (beforeCreate v w2 = Some (inr tt, logged w2 [])) as Hhook.
  { by rewrite logged_nil. }
  pose proof (Comment_create_pass v w2 [] Hlen Hhook) as Hc. cbn zeta in Hc.
  rewrite (bind_run _ _ _ _ _ Hc).
  rewrite (bind_run _ _ _ _ _ (Comment_findByPk_run _ _)).
  unfold logged, w2, logged, c; simpl.
  rewrite trim_idem, <- ?app_assoc. reflexivity.
Qed.

(** C1: on a store in which every comment is at most 5 hops from a comment
    without parent, [POST /] returns and leaves such a store.  For a reply to
    an existing comment of the same post that passed the earlier checks,
    [getCommentDepth] returns the number of hops [n] of the parent; with
    [n <= 4] the reply is stored, [n + 1] hops deep, and the answer is 201;
    the answer is 400 MAX_DEPTH_EXCEEDED exactly when [5 <= n]. *)
Theorem C1_depth_invariant (b : CreateBody) (w : World) :
  DepthInv (comments (db w)) ->
  exists r w',
    post_comment b w = Some (r, w')
    /\ DepthInv (comments (db w'))
    /\ forall p pc n,
        admitted b (db w) -> b_parent_id b = Some p ->
        findByPk (comments (db w)) p = Some pc -> post_id pc = b_post_id b ->
        Hops (comments (db w)) pc n ->
        (exists qs, Comment_getCommentDepth (Some p) w = Some (n, logged w qs))
        /\ ((n <= 4)%nat ->
            statusOf r = 201%nat
            /\ exists c, comments (db w') = comments (db w) ++ [c]
                 /\ parent_id c = Some p
                 /\ Hops (comments (db w')) c (S n))
        /\ ((5 <= n)%nat <->
            r = Failure 400 "Maximum comment nesting depth exceeded (5 levels)"
                        "MAX_DEPTH_EXCEEDED").
Proof.
  intros Hinv.
  destruct (decide (create_validators b = [])) as [Hv|Hv]; cycle 1.
  { eexists _, _. split; [by apply post_comment_invalid|]. split; [done|].
    by intros p pc n (? & _). }
  destruct (decide (b_post_id b ∈ posts (db w))) as [Hpost|Hpost]; cycle 1.
  { eexists _, _. split; [by apply post_comment_no_post|]. split; [done|].
    by intros p pc n (_ & ? & _). }
  destruct (decide (b_user_id b ∈ users (db w))) as [Huser|Huser]; cycle 1.
  { eexists _, _. split; [by apply post_comment_no_user|]. split; [done|].
    by intros p pc n (_ & _ & ?). }
  assert (admitted b (db w)) as Hadm by done.
  destruct (b_parent_id b) as [p|] eqn:Hb; cycle 1.
  { eexists _, _. split; [by apply post_comment_top_level|]. split; [|done].
    simpl. apply DepthInv_insert; [done|]. exists 0%nat. split; [|lia].
    by constructor. }
  destruct (findByPk (comments (db w)) p) as [pc|] eqn:Hf; cycle 1.
  { eexists _, _. split; [by apply post_comment_parent_missing|]. split; [done|].
    intros ? ? ? _ [= <-] ?. congruence. }
  destruct (decide (post_id pc = b_post_id b)) as [Heq|Hne]; cycle 1.
  { eexists _, _. split; [by eapply post_comment_other_post|]. split; [done|].
    intros ? ? ? _ [= <-] Hf' ?. congruence. }
  pose proof Hf as [_ Hin]%findByPk_id.
  destruct (Hinv pc Hin) as (n & Hh & Hn).
  pose proof (admitted_parent _ _ _ Hadm Hb) as Hp0.
  destruct (post_comment_reply b w p pc n Hadm Hb Hf Heq Hh) as [qs Hrun].
  destruct (Nat.leb_spec 5 n) as [H5|H5].
  - eexists _, _. split; [exact Hrun|]. split; [done|].
    intros ? pc' m _ [= <-] Hf' _ Hm.
    assert (pc' = pc) as -> by congruence.
    rewrite (Hops_fun _ _ _ _ Hm Hh).
    split; [by eapply Comment_getCommentDepth_Hops|].
    split; [lia|]. done.
  - cbn zeta in Hrun. eexists _, _. split; [exact Hrun|].
    set (c := mkComment _ _ _ _ _ _ _).
    assert (Hops (comments (db w) ++ [c]) c (S n)) as Hc.
    { eapply Hops_reply; [reflexivity|by apply truthy_Some| |by apply Hops_app].
      rewrite findByPk_app. by rewrite Hf. }
    split.
    { simpl. apply DepthInv_insert; [done|]. exists (S n). split; [|lia].
      eapply Hops_reply; [reflexivity|by apply truthy_Some|exact Hf|done]. }
    intros ? pc' m _ [= <-] Hf' _ Hm.
    assert (pc' = pc) as -> by congruence.
    rewrite (Hops_fun _ _ _ _ Hm Hh).
    split; [by eapply Comment_getCommentDepth_Hops|].
    split; [|split; [lia|done]].
    intros _. split; [done|]. exists c. done.
Qed.

Ltac hops :=
  repeat first
    [ apply Hops_root; reflexivity
    | eapply Hops_reply; [reflexivity|reflexivity|reflexivity|] ].

Lemma DepthInv_thread : DepthInv thread.
Proof.
  intros c Hc. unfold thread in Hc.
  repeat (apply elem_of_cons in Hc as [->|Hc]);
    [..|by apply elem_of_nil in Hc];
    eexists; (split; [hops|lia]).
Qed.

(** Scenario of the specification: F is 4 hops deep, a reply G to F is
    stored, 5 hops deep. *)
Lemma reply_to_F_is_stored :
  let upto_F := take 6 thread in
  let G := mkComment 7 1 1 (Some 6) "G" true 100 in
  exists w',
    post_comment (mkCreateBody 1 1 "G" (Some 6))
                 (mkWorld (mkDB [1] [1] upto_F [] 7) [] 100)
    = Some (Success 201 (Some G) "Reply created successfully", w')
    /\ comments (db w') = upto_F ++ [G]
    /\ Hops (comments (db w')) G 5.
Proof.
  intros upto_F G. eexists. split; [vm_compute; reflexivity|].
  split; [reflexivity|]. hops.
Qed.

(** In the thread, G is 5 hops deep: a reply to G is refused and the store
    keeps the invariant. *)
Lemma C1_witness :
  exists r w',
    post_comment (mkCreateBody 1 1 "H" (Some 7)) thread_world = Some (r, w')
    /\ DepthInv (comments (db w'))
    /\ r = Failure 400 "Maximum comment nesting depth exceeded (5 levels)"
                   "MAX_DEPTH_EXCEEDED".
Proof.
  destruct (C1_depth_invariant (mkCreateBody 1 1 "H" (Some 7)) thread_world
              DepthInv_thread) as (r & w' & Hrun & Hinv & Hreply).
  exists r, w'. split; [exact Hrun|]. split; [exact Hinv|].
  refine (proj1 (proj2 (proj2 (Hreply 7 (mkComment 7 1 1 (Some 6) "G" true 70) 5%nat
                                 _ eq_refl eq_refl eq_refl _))) _).
  - repeat split; apply list_elem_of_In; simpl; tauto.
  - hops.
  - lia.
Defined.



(** A run of the route that stores a row, or answers 201, went past all the
    checks. *)
Lemma post_comment_inv b w r w' :
  post_comment b w = Some (r, w') ->
  (db w' = db w /\ statusOf r <> 201%nat)
  \/ (admitted b (db w)
      /\ forall p, b_parent_id b = Some p ->
         exists pc, findByPk (comments (db w)) p = Some pc
                    /\ post_id pc = b_post_id b).
Proof.
  intros Hrun.
  destruct (decide (create_validators b = [])) as [Hv|Hv]; cycle 1.
  { rewrite (post_comment_invalid _ _ Hv) in Hrun. injection Hrun as <- <-.
    left. split; [done|simpl; lia]. }
  destruct (decide (b_post_id b ∈ posts (db w))) as [Hpost|Hpost]; cycle 1.
  { rewrite (post_comment_no_post _ _ Hv Hpost) in Hrun. injection Hrun as <- <-.
    left. split; [done|simpl; lia]. }
  destruct (decide (b_user_id b ∈ users (db w))) as [Huser|Huser]; cycle 1.
  { rewrite (post_comment_no_user _ _ Hv Hpost Huser) in Hrun.
    injection Hrun as <- <-. left. split; [done|simpl; lia]. }
  assert (admitted b (db w)) as Hadm by done.
  destruct (b_parent_id b) as [p|] eqn:Hb; [|by right].
  destruct (findByPk (comments (db w)) p) as [pc|] eqn:Hf; cycle 1.
  { rewrite (post_comment_parent_missing _ _ _ Hadm Hb Hf) in Hrun.
    injection Hrun as <- <-. left. split; [done|simpl; lia]. }
  destruct (decide (post_id pc = b_post_id b)) as [Heq|Hne]; cycle 1.
  { rewrite (post_comment_other_post _ _ _ _ Hadm Hb Hf Hne) in Hrun.
    injection Hrun as <- <-. left. split; [done|simpl; lia]. }
  right. split; [done|]. intros ? [= <-]. eauto.
Qed.

(** C4: for a body with [parent_id = p].  When no comment has id [p], a
    valid body is answered 404 NOT_FOUND and, past the post and user checks,
    with the message of the missing parent; when the comment [p] belongs to
    another post, the answer past those checks is 400 INVALID_PARENT; in both
    cases the store is unchanged.  A run that stores a row or answers 201 had
    an existing parent of the post of the new comment. *)
Theorem C4_parent_validation (b : CreateBody) (p : Z) (w : World) :
  b_parent_id b = Some p ->
  (findByPk (comments (db w)) p = None ->
     (create_validators b = [] ->
        exists msg w', post_comment b w = Some (Failure 404 msg "NOT_FOUND", w')
                       /\ db w' = db w)
     /\ (admitted b (db w) ->
        exists w', post_comment b w
                   = Some (Failure 404 "Parent comment not found" "NOT_FOUND", w')
                   /\ db w' = db w))
  /\ (forall pc, findByPk (comments (db w)) p = Some pc ->
        post_id pc <> b_post_id b -> admitted b (db w) ->
        exists w', post_comment b w
                   = Some (Failure 400 "Parent comment must belong to the same post"
                                   "INVALID_PARENT", w')
                   /\ db w' = db w)
  /\ (forall r w', post_comment b w = Some (r, w') ->
        db w' <> db w \/ statusOf r = 201%nat ->
        exists pc, findByPk (comments (db w)) p = Some pc
                   /\ post_id pc = b_post_id b).
Proof.
  intros Hb. split; [|split].
  - intros Hf. split.
    + intros Hv.
      destruct (decide (b_post_id b ∈ posts (db w))) as [Hpost|Hpost]; cycle 1.
      { eexists _, _. split; [by apply post_comment_no_post|done]. }
      destruct (decide (b_user_id b ∈ users (db w))) as [Huser|Huser]; cycle 1.
      { eexists _, _. split; [by apply post_comment_no_user|done]. }
      eexists _, _. split; [by apply post_comment_parent_missing|done].
    + intros Hadm. eexists. split; [by apply post_comment_parent_missing|done].
  - intros pc Hf Hne Hadm.
    eexists. split; [by eapply post_comment_other_post|done].
  - intros r w' Hrun Hstored.
    destruct (post_comment_inv _ _ _ _ Hrun) as [[Hdb Hst]|[_ Hparent]].
    + destruct Hstored; contradiction.
    + by apply Hparent.
Qed.

Lemma C4_witness :
  (* a reply to the missing comment 9 *)
  (exists w', post_comment (mkCreateBody 1 1 "hi" (Some 9)) sample_world
              = Some (Failure 404 "Parent comment not found" "NOT_FOUND", w')
              /\ db w' = db sample_world)
  (* a reply on post 1 to comment 2, which belongs to post 2 *)
  /\ (exists w', post_comment (mkCreateBody 1 1 "hi" (Some 2)) sample_world
                 = Some (Failure 400 "Parent comment must belong to the same post"
                                 "INVALID_PARENT", w')
                 /\ db w' = db sample_world).
Proof.
  split.
  - refine (proj2 (proj1 (C4_parent_validation
             (mkCreateBody 1 1 "hi" (Some 9)) 9 sample_world eq_refl) eq_refl) _).
    repeat split; apply list_elem_of_In; simpl; tauto.
  - refine (proj1 (proj2 (C4_parent_validation
             (mkCreateBody 1 1 "hi" (Some 2)) 2 sample_world eq_refl)) _ eq_refl _ _).
    + simpl. lia.
    + repeat split; apply list_elem_of_In; simpl; tauto.
Defined.

Lemma elem_of_filter_bool {A} (f : A -> bool) (l : list A) x :
  x ∈ List.filter f l <-> x ∈ l /\ f x = true.
Proof. rewrite !list_elem_of_In. apply filter_In. Qed.

Lemma filter_bool_length {A} (f : A -> bool) (l : list A) :
  (length (List.filter f l) <= length l)%nat.
Proof. induction l as [|x l IH]; simpl; [done|]. destruct (f x); simpl; lia. Qed.

(** A round that removes rows leaves strictly fewer rows. *)
Lemma filter_bool_shrinks {A} (f : A -> bool) (l : list A) :
  List.filter f l <> [] ->
  (length (List.filter (fun x => negb (f x)) l) < length l)%nat.
Proof.
  induction l as [|x l IH]; simpl; [done|].
  destruct (f x); simpl.
  - intros _. pose proof (filter_bool_length (fun x => negb (f x)) l). lia.
  - intros H. apply IH in H. lia.
Qed.

Lemma references_spec gone x :
  references gone x = true <-> exists p, parent_id x = Some p /\ p ∈ gone.
Proof.
  unfold references. destruct (parent_id x) as [p|].
  - rewrite bool_decide_eq_true. split; [eauto|]. by intros (? & [= <-] & ?).
  - split; [done|]. by intros (? & ? & _).
Qed.

(** What the cascade leaves: rows that reference neither a removed id nor a
    removed row; what it removes is inside every set [D] of rows that
    contains the rows referencing [gone] and the rows referencing its
    members. *)
Lemma cascade_spec fuel : forall gone rows,
  (length rows <= fuel)%nat ->
  (forall x, x ∈ cascade fuel gone rows ->
     x ∈ rows /\ references gone x = false
     /\ forall p, p ∈ rows -> p ∉ cascade fuel gone rows ->
                  parent_id x <> Some (id p))
  /\ forall D : Comment -> Prop,
       (forall x, x ∈ rows -> references gone x = true -> D x) ->
       (forall x p, x ∈ rows -> p ∈ rows -> D p ->
                    parent_id x = Some (id p) -> D x) ->
       forall x, x ∈ rows -> x ∉ cascade fuel gone rows -> D x.
Proof.
  induction fuel as [|fuel IH]; intros gone rows Hlen.
  { destruct rows; [|simpl in Hlen; lia]. simpl. split.
    - by intros x ?%elem_of_nil.
    - by intros D _ _ x ?%elem_of_nil. }
  simpl. destruct (List.filter (references gone) rows) as [|h hit] eqn:Hhit.
  { assert (forall x, x ∈ rows -> references gone x = false) as Hnone.
    { intros x Hx. destruct (references gone x) eqn:Hr; [|done].
      exfalso. apply (elem_of_nil x). rewrite <- Hhit.
      by apply elem_of_filter_bool. }
    split; [|by intros D _ _ x Hx Hnx].
    intros x Hx. split; [done|]. split; [by apply Hnone|]. by intros p Hp Hnp. }
  set (rest := List.filter (fun c => negb (references gone c)) rows).
  assert (length rest < length rows)%nat as Hlt.
  { apply filter_bool_shrinks. by rewrite Hhit. }
  assert (forall p, p ∈ h :: hit <-> p ∈ rows /\ references gone p = true) as Hin.
  { intros p. rewrite <- Hhit. apply elem_of_filter_bool. }
  assert (forall p, p ∈ rest <-> p ∈ rows /\ references gone p = false) as Hrest.
  { intros p. unfold rest. rewrite elem_of_filter_bool, negb_true_iff. done. }
  destruct (IH (map id (h :: hit)) rest) as [Hkeep Hdrop]; [lia|].
  split.
  - intros x Hx. destruct (Hkeep x Hx) as (Hxr & Href & Hcl).
    apply Hrest in Hxr as [Hrows Hneg]. repeat split; auto.
    intros p Hp Hnp Heq. destruct (references gone p) eqn:Hrp.
    + assert (references (map id (h :: hit)) x = true); [|congruence].
      apply references_spec. exists (id p). split; [done|].
      apply list_elem_of_fmap. exists p. split; [done|]. by apply Hin.
    + apply (Hcl p); [by apply Hrest|done..].
  - intros D Hbase Hstep x Hx Hnx.
    destruct (references gone x) eqn:Hr; [by apply Hbase|].
    apply (Hdrop D); [| |by apply Hrest|done].
    + intros y [Hy _]%Hrest (q & Hq & Hqin)%references_spec.
      apply list_elem_of_fmap in Hqin as (p & -> & [Hp Hrp]%Hin).
      apply (Hstep y p); auto.
    + intros y p [Hy _]%Hrest [Hp _]%Hrest. by apply Hstep.
Qed.

(** The rows left by the deletion of the row [pk] are the rows outside the
    subtree of [pk]. *)
Lemma delete_row_spec rows pk c :
  findByPk rows pk = Some c ->
  forall x, x ∈ delete_row pk rows <-> x ∈ rows /\ ~ InSubtree rows pk x.
Proof.
  intros [Hc Hcin]%findByPk_id x. unfold delete_row.
  set (rest := List.filter (fun c => negb (id c =? pk)) rows).
  assert (forall y, y ∈ rest <-> y ∈ rows /\ id y <> pk) as Hrest.
  { intros y. unfold rest. rewrite elem_of_filter_bool, negb_true_iff, Z.eqb_neq. done. }
  destruct (cascade_spec (length rest) [pk] rest) as [Hkeep Hdrop]; [done|].
  set (F := cascade (length rest) [pk] rest) in *.
  split.
  - intros Hx. destruct (Hkeep x Hx) as ([Hxrows Hxid]%Hrest & _ & _).
    split; [done|]. intros Hsub.
    induction Hsub as [y Hy Hid|y p Hy Hpar Hp IH].
    + destruct (Hkeep y Hx) as ([_ ?]%Hrest & _). done.
    + destruct (Hkeep y Hx) as (_ & Href & Hcl).
      destruct (decide (id p = pk)) as [Hpk|Hpk].
      * assert (references [pk] y = true); [|congruence].
        apply references_spec. exists pk. split; [congruence|]. by left.
      * assert (p ∈ rows) as Hprows by (by destruct Hp).
        destruct (decide (p ∈ F)) as [HpF|HpF]; [by apply IH|].
        apply (Hcl p); [by apply Hrest|done..].
  - intros [Hxrows Hnsub]. destruct (decide (x ∈ F)) as [|HxF]; [done|].
    exfalso. apply Hnsub.
    destruct (decide (id x = pk)) as [Hpk|Hpk]; [by constructor|].
    apply (Hdrop (fun y => InSubtree rows pk y)); [| |by apply Hrest|done].
    + intros y [Hy _]%Hrest (q & Hq & ->%list_elem_of_singleton)%references_spec.
      apply (InSubtree_reply _ _ y c); [done|congruence|by constructor].
    + intros y p [Hy _]%Hrest _ Hp Hpar. by apply (InSubtree_reply _ _ y p).
Qed.

(** C7: [DELETE /:id] for a valid id.  Without a comment of that id the
    answer is 404 NOT_FOUND and the store is unchanged.  Otherwise the rows
    left are exactly the rows outside the subtree of the comment, and the
    message reports the number of rows whose [parent_id] is the id: the direct
    children only.  In the thread A > C > D > E > F > G, deleting A removes
    the six comments and reports 1 reply. *)
Theorem C7_delete_subtree_direct_count (pk : Z) (w : World) :
  isInt_min1 pk = true ->
  (findByPk (comments (db w)) pk = None ->
     delete_comment pk w
     = Some (Failure 404 "Comment not found" "NOT_FOUND",
             logged w [Comment_findByPk_q pk]))
  /\ (forall c, findByPk (comments (db w)) pk = Some c ->
        exists w',
          delete_comment pk w
          = Some (Success 200 tt
                    (deleted_message (count_children (comments (db w)) pk)), w')
          /\ forall x, x ∈ comments (db w')
                       <-> x ∈ comments (db w)
                           /\ ~ InSubtree (comments (db w)) pk x)
  /\ (delete_comment 1 thread_world
      = Some (Success 200 tt "Comment deleted successfully along with 1 replies",
              mkWorld (mkDB [1] [1] [mkComment 2 1 1 None "B" true 20] [] 8)
                      [Comment_findByPk_q 1; Comment_count_q; Comment_destroy_q 1]
                      100)).
Proof.
  intros Hpk. unfold delete_comment, id_validators. rewrite Hpk.
  cbn [check handleValidationErrors].
  rewrite (bind_run _ _ _ _ _ (Comment_findByPk_run _ _)).
  split; [|split].
  - by intros ->.
  - intros c Hf. rewrite Hf.
    pose proof Hf as [Hid _]%findByPk_id.
    eexists. split; [reflexivity|]. simpl. rewrite Hid.
    by apply delete_row_spec with c.
  - vm_compute. reflexivity.
Qed.

Lemma C7_witness :
  exists w',
    delete_comment 3 thread_world
    = Some (Success 200 tt (deleted_message (count_children thread 3)), w')
    /\ forall x, x ∈ comments (db w')
                 <-> x ∈ thread /\ ~ InSubtree thread 3 x.
Proof.
  exact (proj1 (proj2 (C7_delete_subtree_direct_count 3 thread_world eq_refl))
               (mkComment 3 1 1 (Some 1) "C" true 30) eq_refl).
Defined.

(** C10: [GET /:id] for a valid id returns, without changing the store.  The
    answer is 404 NOT_FOUND exactly when no row has the id.  A row that has it
    is returned whatever its [is_published] flag is; only the included replies
    are filtered on the flag. *)
Theorem C10_get_comment_404_iff_absent (pk : Z) (w : World) :
  isInt_min1 pk = true ->
  exists r,
    get_comment pk w = Some (r, logged w [Comment_findByPk_q pk])
    /\ (r = Failure 404 "Comment not found" "NOT_FOUND"
        <-> findByPk (comments (db w)) pk = None)
    /\ forall c, findByPk (comments (db w)) pk = Some c ->
         r = Success 200
               (mkCommentJson c (published_replies (comments (db w)) (id c)) ∅)
               ""
         /\ Forall (fun reply => is_published reply = true
                                 /\ parent_id reply = Some pk)
                   (published_replies (comments (db w)) (id c)).
Proof.
  intros Hpk. unfold get_comment, id_validators. rewrite Hpk.
  cbn [check handleValidationErrors].
  rewrite (bind_run _ _ _ _ _ (Comment_findByPk_run _ _)).
  destruct (findByPk (comments (db w)) pk) as [c|] eqn:Hf.
  - eexists. split; [reflexivity|]. split; [split; discriminate|].
    intros ? [= <-]. split; [reflexivity|].
    apply findByPk_id in Hf as [-> _].
    apply Forall_forall. intros reply [_ Hr]%elem_of_filter_bool.
    apply andb_true_iff in Hr as [Hp%bool_decide_eq_true ?]. done.
  - eexists. split; [reflexivity|]. split; [done|]. discriminate.
Qed.

(** The comment 4 below is not published and is fetched all the same. *)
Lemma C10_witness :
  exists r,
    get_comment 4
      (mkWorld (mkDB [1] [1] [mkComment 4 1 1 None "draft" false 5] [] 5) [] 0)
    = Some (r, mkWorld (mkDB [1] [1] [mkComment 4 1 1 None "draft" false 5] [] 5)
                       [Comment_findByPk_q 4] 0)
    /\ r = Success 200
             (mkCommentJson (mkComment 4 1 1 None "draft" false 5) [] ∅) "".
Proof.
  destruct (C10_get_comment_404_iff_absent 4
    (mkWorld (mkDB [1] [1] [mkComment 4 1 1 None "draft" false 5] [] 5) [] 0)
    eq_refl) as (r & Hrun & _ & Hfound).
  exists r. split; [exact Hrun|].
  exact (proj1 (Hfound _ eq_refl)).
Defined.

(** *** Sorting *)

Lemma insert_sorted_perm {A} (compare : A -> A -> Z) x l :
  insert_sorted compare x l ≡ₚ x :: l.
Proof.
  induction l as [|y l IH]; simpl; [done|].
  destruct (compare x y <=? 0); [done|].
  rewrite IH. apply Permutation_swap.
Qed.

Lemma Array_sort_perm {A} (compare : A -> A -> Z) l :
  Array_sort compare l ≡ₚ l.
Proof.
  induction l as [|x l IH]; simpl; [done|].
  by rewrite insert_sorted_perm, IH.
Qed.

Lemma by_date_in_order {A} (key : A -> Z) sort a b :
  by_date key sort a b <= 0 <-> in_order sort (key a) (key b).
Proof. unfold by_date, in_order. destruct (String.eqb sort "newest"); lia. Qed.

Lemma in_order_total sort x y : in_order sort x y \/ in_order sort y x.
Proof. unfold in_order. destruct (String.eqb sort "newest"); lia. Qed.

Lemma in_order_trans sort x y z :
  in_order sort x y -> in_order sort y z -> in_order sort x z.
Proof. unfold in_order. destruct (String.eqb sort "newest"); lia. Qed.

Lemma insert_sorted_Sorted {A} (key : A -> Z) sort x l :
  Sorted (fun a b => in_order sort (key a) (key b)) l ->
  Sorted (fun a b => in_order sort (key a) (key b))
         (insert_sorted (by_date key sort) x l).
Proof.
  induction 1 as [|y l Hs IH Hhd]; simpl; [by repeat constructor|].
  destruct (Z.leb_spec (by_date key sort x y) 0) as [Hle|Hgt].
  - constructor; [by constructor|]. constructor. by apply by_date_in_order.
  - constructor; [done|].
    assert (in_order sort (key y) (key x)) as Hyx.
    { destruct (in_order_total sort (key y) (key x)) as [|Hxy]; [done|].
      apply by_date_in_order in Hxy. lia. }
    destruct Hhd as [|z l Hyz]; simpl; [by constructor|].
    destruct (by_date key sort x z <=? 0); by constructor.
Qed.

Lemma Array_sort_Sorted {A} (key : A -> Z) sort l :
  Sorted (fun a b => in_order sort (key a) (key b))
         (Array_sort (by_date key sort) l).
Proof.
  induction l as [|x l IH]; simpl; [constructor|].
  by apply insert_sorted_Sorted.
Qed.

Lemma Sorted_ext {A} (R R' : A -> A -> Prop) l :
  (forall x y, R x y -> R' x y) -> Sorted R l -> Sorted R' l.
Proof.
  intros HR. induction 1 as [|x l _ IH Hhd]; constructor; [done|].
  destruct Hhd; constructor; auto.
Qed.

(** A list related element by element to a sorted list is sorted for the
    keys of its own elements. *)
Lemma Sorted_Forall2 {A B} (R : Z -> Z -> Prop) (f : A -> Z) (g : B -> Z)
    (P : A -> B -> Prop) l k :
  (forall a b, P a b -> f a = g b) ->
  Forall2 P l k ->
  Sorted (fun x y => R (f x) (f y)) l -> Sorted (fun x y => R (g x) (g y)) k.
Proof.
  intros HP H2. induction H2 as [|a b l k Hab H2 IH]; intros Hs; [constructor|].
  inversion Hs as [|? ? Hs' Hhd]; subst. constructor; [by apply IH|].
  destruct H2 as [|a' b' l k Hab' _]; constructor.
  inversion Hhd; subst. rewrite <- (HP _ _ Hab), <- (HP _ _ Hab'). done.
Qed.

Lemma StronglySorted_in_order {A} (key : A -> Z) sort l :
  Sorted (fun a b => in_order sort (key a) (key b)) l ->
  StronglySorted (fun a b => in_order sort (key a) (key b)) l.
Proof.
  apply Sorted_StronglySorted. intros x y z. apply in_order_trans.
Qed.

Lemma StronglySorted_sublist {A} (R : A -> A -> Prop) l k :
  sublist k l -> StronglySorted R l -> StronglySorted R k.
Proof.
  induction 1 as [|x k l Hsub IH|x k l Hsub IH]; intros Hs; [done|..].
  - apply StronglySorted_inv in Hs as [Hs Hall]. constructor; [by apply IH|].
    eapply Forall_forall. intros y Hy. eapply (proj1 (Forall_forall _ _) Hall).
    by eapply elem_of_sublist.
  - apply StronglySorted_inv in Hs as [Hs _]. by apply IH.
Qed.

Section TreeProofs.
Context {A : Type} (row : A -> Comment).

Lemma set_all_lookup cs : forall i (m : gmap Z nat) k v,
  set_all row i cs m !! k = Some v ->
  (exists c, cs !! (v - i)%nat = Some c /\ id (row c) = k /\ (i <= v)%nat)
  \/ m !! k = Some v.
Proof.
  induction cs as [|c cs IH]; intros i m k v; simpl; [by right|].
  intros [(c' & Hc' & Hid & Hle)|Hm]%IH.
  - left. exists c'. replace (v - i)%nat with (S (v - S i)) by lia. split; [done|]. split; [done|lia].
  - destruct (decide (id (row c) = k)) as [Heq|Hne].
    + rewrite Heq, lookup_insert_eq in Hm. injection Hm as <-.
      left. exists c. rewrite Nat.sub_diag. done.
    + rewrite lookup_insert_ne in Hm by done. by right.
Qed.

Lemma set_all_is_Some cs : forall i (m : gmap Z nat) k,
  (exists c, c ∈ cs /\ id (row c) = k) \/ is_Some (m !! k) ->
  is_Some (set_all row i cs m !! k).
Proof.
  induction cs as [|c cs IH]; intros i m k; simpl.
  - intros [(c & Hc%elem_of_nil & _)|?]; done.
  - intros [(c' & [->|Hc']%elem_of_cons & Hid)|Hm]; apply IH.
    + right. rewrite Hid, lookup_insert_eq. eauto.
    + left. eauto.
    + right. destruct (decide (id (row c) = k)) as [->|Hne].
      * rewrite lookup_insert_eq. eauto.
      * by rewrite lookup_insert_ne.
Qed.

(** [commentMap] sends an id to the position of a comment of that id. *)
Lemma commentMap_lookup cs k v :
  set_all row 0 cs ∅ !! k = Some v ->
  exists c, cs !! v = Some c /\ id (row c) = k.
Proof.
  intros [(c & Hc & Hid & _)|Hm]%set_all_lookup.
  - rewrite Nat.sub_0_r in Hc. eauto.
  - by rewrite lookup_empty in Hm.
Qed.

Lemma parent_ix_lt cs i p : parent_ix row cs i = Some p -> (i < length cs /\ p < length cs)%nat.
Proof.
  unfold parent_ix, parent_of. destruct (cs !! i) as [c|] eqn:Hc; simpl; [|done].
  destruct (truthy (parent_id (row c))); [|done].
  destruct (parent_id (row c)) as [k|]; simpl; [|done].
  intros (c' & Hc' & _)%commentMap_lookup.
  split; by eapply lookup_lt_Some.
Qed.

Lemma elem_of_children_from m cs : forall i p j,
  j ∈ children_from row m i cs p <->
  (i <= j)%nat /\ exists c, cs !! (j - i)%nat = Some c /\ parent_of row m c = Some p.
Proof.
  induction cs as [|c cs IH]; intros i p j; simpl.
  - rewrite elem_of_nil. split; [done|]. by intros (_ & ? & ? & _).
  - rewrite elem_of_app, IH. split.
    + intros [Hj|(Hle & c' & Hc' & Hp)].
      * destruct (decide _) as [Hp|]; [|by apply elem_of_nil in Hj].
        apply list_elem_of_singleton in Hj as ->. split; [lia|].
        exists c. by rewrite Nat.sub_diag.
      * split; [lia|]. exists c'. replace (j - i)%nat with (S (j - S i)) by lia. done.
    + intros (Hle & c' & Hc' & Hp).
      destruct (decide (j = i)) as [->|Hne].
      * rewrite Nat.sub_diag in Hc'. injection Hc' as <-.
        left. rewrite decide_True by done. by left.
      * right. split; [lia|]. exists c'.
        replace (j - i)%nat with (S (j - S i)) in Hc' by lia. done.
Qed.

Lemma children_from_nodup m cs : forall i p, NoDup (children_from row m i cs p).
Proof.
  induction cs as [|c cs IH]; intros i p; simpl; [constructor|].
  destruct (decide _); simpl; [|done].
  constructor; [|done]. intros [Hle _]%elem_of_children_from. lia.
Qed.

Lemma elem_of_roots_from cs : forall i j,
  j ∈ roots_from row i cs <->
  (i <= j)%nat /\ exists c, cs !! (j - i)%nat = Some c
                            /\ truthy (parent_id (row c)) = false.
Proof.
  induction cs as [|c cs IH]; intros i j; simpl.
  - rewrite elem_of_nil. split; [done|]. by intros (_ & ? & ? & _).
  - rewrite elem_of_app, IH. split.
    + intros [Hj|(Hle & c' & Hc' & Hp)].
      * destruct (truthy (parent_id (row c))) eqn:Ht; [by apply elem_of_nil in Hj|].
        apply list_elem_of_singleton in Hj as ->. split; [lia|].
        exists c. by rewrite Nat.sub_diag.
      * split; [lia|]. exists c'. replace (j - i)%nat with (S (j - S i)) by lia. done.
    + intros (Hle & c' & Hc' & Hp).
      destruct (decide (j = i)) as [->|Hne].
      * rewrite Nat.sub_diag in Hc'. injection Hc' as <-.
        left. rewrite Hp. by left.
      * right. split; [lia|]. exists c'.
        replace (j - i)%nat with (S (j - S i)) in Hc' by lia. done.
Qed.

Lemma roots_from_nodup cs : forall i, NoDup (roots_from row i cs).
Proof.
  induction cs as [|c cs IH]; intros i; simpl; [constructor|].
  destruct (truthy _); simpl; [done|].
  constructor; [|done]. intros [Hle _]%elem_of_roots_from. lia.
Qed.

(** The second loop, as a whole: every array grows by the positions it is
    due. *)
Lemma link_all_spec m cs : forall i st,
  (forall k q, m !! k = Some q -> (q < length (heap st))%nat) ->
  let st' := link_all row m i cs st in
  rootComments st' = rootComments st ++ roots_from row i cs
  /\ length (heap st') = length (heap st)
  /\ forall p, o_data <$> heap st' !! p = o_data <$> heap st !! p
  /\ replies_at (heap st') p
     = replies_at (heap st) p ++ children_from row m i cs p.
Proof.
  induction cs as [|c cs IH]; intros i st Hm; simpl.
  { rewrite app_nil_r. repeat split; auto. by rewrite app_nil_r. }
  assert (length (heap (link row m i c st)) = length (heap st)) as Hlen1.
  { unfold link, push_reply. destruct (truthy _); [|done].
    destruct (_ ≫= _); [|done]. simpl. destruct (heap st !! _); [|done].
    by rewrite length_insert. }
  destruct (IH (S i) (link row m i c st)) as (Hroots & Hlen & Hheap).
  { intros k q Hq. rewrite Hlen1. by eapply Hm. }
  rewrite Hroots, Hlen, Hlen1. clear IH Hroots Hlen Hlen1.
  split; [|split; [done|]].
  { unfold link. destruct (truthy _); simpl.
    - by destruct (_ ≫= _).
    - by rewrite <- app_assoc. }
  intros p. destruct (Hheap p) as [Hd Hr]. rewrite Hd, Hr. clear Hd Hr Hheap.
  unfold link, parent_of.
  destruct (truthy (parent_id (row c))) eqn:Ht; simpl;
    [|by destruct (decide (None = Some p))].
  destruct (parent_id (row c) ≫= (m !!.)) as [q|] eqn:Hq; simpl;
    [|by destruct (decide (None = Some p))].
  assert (q < length (heap st))%nat as Hlt.
  { destruct (parent_id (row c)) as [k|]; [|done]. by eapply Hm. }
  unfold push_reply, replies_at.
  destruct (lookup_lt_is_Some_2 _ _ Hlt) as [o Ho]. rewrite Ho.
  destruct (decide (Some q = Some p)) as [[= ->]|Hne].
  - rewrite list_lookup_insert_eq by done. rewrite Ho. simpl.
    split; [done|]. by rewrite <- app_assoc.
  - rewrite list_lookup_insert_ne by congruence. done.
Qed.

Lemma process_lookup (cs : list A) i :
  process cs !! i = (fun c => mkObj c []) <$> cs !! i.
Proof. unfold process. by rewrite list_lookup_fmap. Qed.

(** The heap that [build] leaves. *)
Lemma build_spec cs :
  let m := set_all row 0 cs ∅ in
  rootComments (build row cs) = roots_from row 0 cs
  /\ length (heap (build row cs)) = length cs
  /\ forall p, o_data <$> heap (build row cs) !! p = cs !! p
  /\ replies_at (heap (build row cs)) p = children_from row m 0 cs p.
Proof.
  intros m. unfold build.
  destruct (link_all_spec m cs 0 (mkBuild (process cs) [])) as (Hr & Hl & Hh).
  { intros k q (c & Hc & _)%commentMap_lookup. simpl.
    unfold process. rewrite length_fmap. by eapply lookup_lt_Some. }
  fold m. rewrite Hr, Hl. simpl. split; [done|].
  unfold process at 1. rewrite length_fmap. split; [done|].
  intros p. destruct (Hh p) as [Hd Hrep]. rewrite Hd, Hrep. simpl.
  rewrite process_lookup. split.
  - by destruct (cs !! p).
  - unfold replies_at. rewrite process_lookup. by destruct (cs !! p).
Qed.

Lemma build_Linked cs :
  Linked row cs (heap (build row cs)) (rootComments (build row cs)).
Proof.
  destruct (build_spec cs) as (Hr & Hl & Hh).
  split.
  - intros i. apply Hh.
  - intros p. destruct (Hh p) as [_ ->]. apply children_from_nodup.
  - intros p i. destruct (Hh p) as [_ ->].
    rewrite elem_of_children_from, Nat.sub_0_r. unfold parent_ix.
    split.
    + intros (_ & c & -> & Hp). done.
    + destruct (cs !! i) as [c|]; simpl; [|done]. intros Hp.
      split; [lia|]. eauto.
  - rewrite Hr. apply roots_from_nodup.
  - intros i. rewrite Hr, elem_of_roots_from, Nat.sub_0_r.
    split; [by intros (_ & ?)|]. intros ?. split; [lia|done].
Qed.
End TreeProofs.

Section SortProofs.
Context {A : Type} (row : A -> Comment).

Lemma created_of_data (h h' : list (Obj A)) :
  (forall i, o_data <$> h' !! i = o_data <$> h !! i) ->
  forall i, created_of row h' i = created_of row h i.
Proof.
  intros Hd i. unfold created_of. specialize (Hd i).
  destruct (h' !! i), (h !! i); simpl in Hd; congruence.
Qed.

Lemma sorted_at_data sort (h h' : list (Obj A)) r :
  (forall i, o_data <$> h' !! i = o_data <$> h !! i) ->
  replies_at h' r = replies_at h r ->
  sorted_at row sort h r -> sorted_at row sort h' r.
Proof.
  intros Hd Hr. unfold sorted_at. rewrite Hr. apply Sorted_ext.
  intros x y. by rewrite !(created_of_data h h' Hd).
Qed.

Lemma Resorted_refl sort (h : list (Obj A)) : Resorted row sort h h.
Proof. split; auto. Qed.

Lemma Resorted_trans sort (h1 h2 h3 : list (Obj A)) :
  Resorted row sort h1 h2 -> Resorted row sort h2 h3 -> Resorted row sort h1 h3.
Proof.
  intros [Hd1 Hp1 Hs1] [Hd2 Hp2 Hs2]. split.
  - intros i. by rewrite Hd2.
  - intros r. by rewrite Hp2.
  - intros r. destruct (Hs2 r) as [Heq|?]; [|by right].
    destruct (Hs1 r) as [Heq1|Hs]; [left; congruence|].
    right. by apply (sorted_at_data sort h2 h3).
Qed.

Lemma Below_Resorted sort (h h' : list (Obj A)) r x :
  Resorted row sort h h' -> Below h' r x -> Below h r x.
Proof.
  intros [_ Hp _]. induction 1 as [|r c x Hc _ IH]; [constructor|].
  econstructor; [|exact IH]. by rewrite <- (Hp r).
Qed.

(** Sorted subtrees stay sorted when arrays are sorted later on. *)
Lemma sorted_below_Resorted sort (h h' : list (Obj A)) r :
  Resorted row sort h h' ->
  (forall x, Below h r x -> sorted_at row sort h x) ->
  forall x, Below h' r x -> sorted_at row sort h' x.
Proof.
  intros Hres Hs x Hx.
  pose proof (Hs x (Below_Resorted sort h h' r x Hres Hx)) as Hsx.
  destruct Hres as [Hd _ Hso]. destruct (Hso x) as [Heq|]; [|done].
  by apply (sorted_at_data sort h h').
Qed.

Lemma Below_inv (h : list (Obj A)) r x :
  Below h r x -> x = r \/ exists c, c ∈ replies_at h r /\ Below h c x.
Proof. destruct 1; eauto. Qed.

Lemma Below_leaf sort (h : list (Obj A)) r x :
  replies_at h r = [] -> Below h r x -> sorted_at row sort h x.
Proof.
  intros Hnil [->|(c & Hc & _)]%Below_inv.
  - unfold sorted_at. rewrite Hnil. constructor.
  - rewrite Hnil in Hc. by apply elem_of_nil in Hc.
Qed.

Lemma replies_at_insert (h : list (Obj A)) r o l r' :
  h !! r = Some o ->
  replies_at (<[r := mkObj (o_data o) l]> h) r'
  = if decide (r' = r) then l else replies_at h r'.
Proof.
  intros Ho. unfold replies_at. destruct (decide (r' = r)) as [->|Hne].
  - rewrite list_lookup_insert_eq by by eapply lookup_lt_Some. done.
  - by rewrite list_lookup_insert_ne.
Qed.

Lemma data_insert (h : list (Obj A)) r o l i :
  h !! r = Some o ->
  o_data <$> <[r := mkObj (o_data o) l]> h !! i = o_data <$> h !! i.
Proof.
  intros Ho. destruct (decide (i = r)) as [->|Hne].
  - rewrite list_lookup_insert_eq by by eapply lookup_lt_Some. by rewrite Ho.
  - by rewrite list_lookup_insert_ne.
Qed.

(** Sorting one array in place. *)
Lemma Resorted_insert sort (h : list (Obj A)) r o :
  h !! r = Some o ->
  let sorted := Array_sort (by_date (created_of row h) sort) (o_replies o) in
  Resorted row sort h (<[r := mkObj (o_data o) sorted]> h).
Proof.
  intros Ho sorted. split.
  - intros i. by apply data_insert.
  - intros r'. rewrite (replies_at_insert h r o sorted r' Ho).
    destruct (decide (r' = r)) as [->|]; [|done].
    unfold replies_at. rewrite Ho. apply Array_sort_perm.
  - intros r'. destruct (decide (r' = r)) as [->|Hne].
    + right. unfold sorted_at. rewrite (replies_at_insert h r o sorted r Ho).
      rewrite decide_True by done.
      eapply Sorted_ext; [|apply (Array_sort_Sorted (created_of row h) sort)].
      intros x y. rewrite !(created_of_data h _ (fun i => data_insert h r o sorted i Ho)).
      done.
    + left. rewrite (replies_at_insert h r o sorted r' Ho). by rewrite decide_False.
Qed.

Lemma foldl_option_None {B C} (f : option B -> C -> option B) l :
  (forall c, f None c = None) -> foldl f None l = None.
Proof. intros Hf. induction l as [|c l IH]; simpl; [done|]. by rewrite Hf. Qed.

(** [sortReplies], when it returns, has only sorted arrays, and every array
    at or below the objects it was given is sorted. *)
Lemma sortReplies_spec sort fuel : forall comments (h h' : list (Obj A)),
  sortReplies row fuel sort comments h = Some h' ->
  Resorted row sort h h'
  /\ forall r, r ∈ comments -> forall x, Below h' r x -> sorted_at row sort h' x.
Proof.
  induction fuel as [|fuel IHfuel]; intros comments h h'; simpl; [done|].
  set (step := fun (acc : option (list (Obj A))) (r : nat) => _).
  revert h h'. induction comments as [|r comments IH]; intros h h'.
  { intros [= <-]. split; [apply Resorted_refl|]. by intros r ?%elem_of_nil. }
  change (foldl step (Some h) (r :: comments))
    with (foldl step (step (Some h) r) comments).
  destruct (step (Some h) r) as [h1|] eqn:Hstep; cycle 1.
  { rewrite foldl_option_None; [done|]. done. }
  intros Hrest. destruct (IH h1 h' Hrest) as [Hres' Hsorted'].
  assert (Resorted row sort h h1
          /\ forall x, Below h1 r x -> sorted_at row sort h1 x) as [Hres1 Hs1].
  { unfold step in Hstep. simpl in Hstep.
    destruct (h !! r) as [o|] eqn:Ho; cycle 1.
    { injection Hstep as <-. split; [apply Resorted_refl|].
      intros x. apply Below_leaf. unfold replies_at. by rewrite Ho. }
    destruct (o_replies o) as [|c0 cs0] eqn:Hrep.
    { injection Hstep as <-. split; [apply Resorted_refl|].
      intros x. apply Below_leaf. unfold replies_at. by rewrite Ho, Hrep. }
    rewrite <- Hrep in Hstep.
    pose proof (Resorted_insert sort h r o Ho) as Hmid. cbn zeta in Hmid.
    set (sorted := Array_sort _ _) in *.
    set (hmid := <[r := _]> h) in *.
    destruct (IHfuel sorted hmid h1 Hstep) as [Hres Hbelow].
    split; [by eapply Resorted_trans|].
    assert (replies_at hmid r = sorted) as Hmr.
    { unfold hmid. rewrite (replies_at_insert h r o sorted r Ho).
      by rewrite decide_True. }
    intros x [->|(c & Hc & Hcx)]%Below_inv.
    - destruct (resorted_sorted _ _ _ _ Hres r) as [Heq|]; [|done].
      apply (sorted_at_data sort hmid h1); [apply Hres|done|].
      destruct (resorted_sorted _ _ _ _ Hmid r) as [Heq'|]; [|done].
      unfold sorted_at. rewrite Hmr.
      eapply Sorted_ext; [|apply (Array_sort_Sorted (created_of row h) sort)].
      intros a b. by rewrite !(created_of_data h hmid (resorted_data _ _ _ _ Hmid)).
    - apply (Hbelow c); [|done].
      rewrite (resorted_perm _ _ _ _ Hres r), Hmr in Hc. done. }
  split; [by eapply Resorted_trans|].
  intros r' [->|Hr']%elem_of_cons.
  - by apply (sorted_below_Resorted sort h1 h').
  - by apply Hsorted'.
Qed.
End SortProofs.

Section ForestProofs.
Context {A : Type} (row : A -> Comment).

Lemma Linked_Resorted sort cs (h h' : list (Obj A)) roots :
  Resorted row sort h h' -> Linked row cs h roots -> Linked row cs h' roots.
Proof.
  intros [Hd Hp _] [Ld Ln Lr Lrn Lroots]. split; auto.
  - intros i. by rewrite Hd.
  - intros p. by rewrite (Hp p).
  - intros p i. by rewrite (Hp p).
Qed.

Lemma Linked_lookup cs (h : list (Obj A)) roots r :
  Linked row cs h roots -> (r < length cs)%nat ->
  exists o c, h !! r = Some o /\ cs !! r = Some c /\ o_data o = c.
Proof.
  intros [Ld _ _ _ _] Hr. destruct (lookup_lt_is_Some_2 _ _ Hr) as [c Hc].
  specialize (Ld r). rewrite Hc in Ld.
  destruct (h !! r) as [o|]; [|done]. injection Ld as <-. eauto.
Qed.

Lemma Linked_child cs (h : list (Obj A)) roots r c d :
  Linked row cs h roots -> c ∈ replies_at h r ->
  Rank (parent_ix row cs) r d ->
  (c < length cs)%nat /\ Rank (parent_ix row cs) c (S d).
Proof.
  intros HL Hc Hr. apply (linked_replies _ _ _ _ HL) in Hc.
  split; [by apply parent_ix_lt in Hc as [? _]|]. by econstructor.
Qed.

Lemma Linked_root cs (h : list (Obj A)) roots r :
  Linked row cs h roots -> r ∈ roots ->
  (r < length cs)%nat /\ Rank (parent_ix row cs) r 0.
Proof.
  intros HL (c & Hc & Ht)%(linked_roots _ _ _ _ HL).
  split; [by eapply lookup_lt_Some|]. constructor.
  unfold parent_ix, parent_of. rewrite Hc. simpl. by rewrite Ht.
Qed.

(** Nesting is no deeper than the number of comments. *)
Lemma rank_lt cs r d :
  (r < length cs)%nat -> Rank (parent_ix row cs) r d -> (d < length cs)%nat.
Proof.
  intros Hr HR.
  pose proof (Rank_bound (parent_ix row cs) (seq 0 (length cs))) as Hb.
  rewrite length_seq in Hb. eapply Hb; [|exact HR|].
  - intros a p _ [_ Hp]%parent_ix_lt. apply elem_of_seq. lia.
  - apply elem_of_seq. lia.
Qed.

(** [res.json] reaches the end of every object below the roots. *)
Lemma toTree_total cs (h : list (Obj A)) roots :
  Linked row cs h roots ->
  forall fuel r d, Rank (parent_ix row cs) r d -> (r < length cs)%nat ->
    (length cs <= fuel + d)%nat -> is_Some (toTree fuel h r).
Proof.
  intros HL. induction fuel as [|fuel IH]; intros r d HR Hr Hfuel.
  { pose proof (rank_lt cs r d Hr HR). lia. }
  simpl. destruct (Linked_lookup cs h roots r HL Hr) as (o & c & Ho & _ & _).
  rewrite Ho. simpl.
  assert (is_Some (mapM (toTree fuel h) (o_replies o))) as [rs ->]; [|by eexists].
  apply mapM_is_Some, Forall_forall. intros x Hx.
  assert (x ∈ replies_at h r) as Hx' by (unfold replies_at; by rewrite Ho).
  destruct (Linked_child cs h roots r x d HL Hx' HR) as [Hlt HRx].
  apply (IH x (S d)); [done..|lia].
Qed.

Lemma Linked_length cs (h : list (Obj A)) roots :
  Linked row cs h roots -> length h = length cs.
Proof.
  intros [Ld _ _ _ _]. apply Nat.le_antisymm.
  - destruct (decide (length h <= length cs)%nat) as [|Hn]; [done|].
    assert (is_Some (h !! length cs)) as [o Ho] by (apply lookup_lt_is_Some; lia).
    specialize (Ld (length cs)). rewrite Ho, lookup_ge_None_2 in Ld; [done|lia].
  - destruct (decide (length cs <= length h)%nat) as [|Hn]; [done|].
    assert (is_Some (cs !! length h)) as [o Ho] by (apply lookup_lt_is_Some; lia).
    specialize (Ld (length h)). rewrite Ho, lookup_ge_None_2 in Ld; [done|lia].
Qed.

Lemma toForest_total cs (h : list (Obj A)) roots :
  Linked row cs h roots -> is_Some (toForest h roots).
Proof.
  intros HL. unfold toForest. apply mapM_is_Some, Forall_forall. intros r Hr.
  destruct (Linked_root cs h roots r HL Hr) as [Hlt HR].
  apply (toTree_total cs h roots HL _ r 0); [done..|].
  rewrite (Linked_length _ _ _ HL). lia.
Qed.

(** [sortReplies] returns on every heap that [build] can leave. *)
Lemma sortReplies_total sort cs roots fuel :
  forall comments (h : list (Obj A)) d,
    Linked row cs h roots ->
    (forall r, r ∈ comments ->
       (r < length cs)%nat /\ Rank (parent_ix row cs) r d) ->
    (1 <= fuel)%nat -> (length cs <= fuel + d)%nat ->
    is_Some (sortReplies row fuel sort comments h).
Proof.
  induction fuel as [|fuel IHfuel]; intros comments h d HL Hcs Hpos Hfuel; [lia|].
  simpl. set (step := fun (acc : option (list (Obj A))) (r : nat) => _).
  revert h HL. induction comments as [|r comments IH]; intros h HL; [by eexists|].
  change (foldl step (Some h) (r :: comments))
    with (foldl step (step (Some h) r) comments).
  destruct (Hcs r) as [Hr HR]; [by left|].
  assert (exists h1, step (Some h) r = Some h1 /\ Linked row cs h1 roots)
    as (h1 & -> & HL1).
  { unfold step. simpl.
    destruct (Linked_lookup cs h roots r HL Hr) as (o & c & Ho & _ & _).
    rewrite Ho. destruct (o_replies o) as [|c0 cs0] eqn:Hrep; [by eexists|].
    rewrite <- Hrep.
    pose proof (Resorted_insert row sort h r o Ho) as Hmid. cbn zeta in Hmid.
    set (sorted := Array_sort _ _) in *.
    set (hmid := <[r := _]> h) in *.
    assert (forall x, x ∈ sorted ->
              (x < length cs)%nat /\ Rank (parent_ix row cs) x (S d)) as Hch.
    { intros x Hx. apply (Linked_child cs h roots r x d HL); [|done].
      unfold replies_at. rewrite Ho.
      unfold sorted in Hx. by rewrite Array_sort_perm in Hx. }
    assert (c0 ∈ sorted) as Hc0.
    { unfold sorted. rewrite Array_sort_perm, Hrep. by left. }
    destruct (Hch c0 Hc0) as [Hlt0 HR0].
    pose proof (rank_lt cs c0 (S d) Hlt0 HR0) as Hbound.
    destruct (IHfuel sorted hmid (S d)) as [h1 Hh1];
      [by eapply Linked_Resorted|done|lia|lia|].
    exists h1. split; [done|].
    apply sortReplies_spec in Hh1 as [Hres _].
    eapply Linked_Resorted; [exact Hres|]. by eapply Linked_Resorted. }
  apply IH; [|done]. intros r' Hr'. apply Hcs. by right.
Qed.

(** Tree assembly returns, with or without the sort pass. *)
Lemma assemble_total cs : is_Some (assemble row cs).
Proof. unfold assemble. eapply toForest_total, build_Linked. Qed.

Lemma assemble_sorted_total sort cs : is_Some (assemble_sorted row sort cs).
Proof.
  unfold assemble_sorted. pose proof (build_Linked row cs) as HL.
  destruct (sortReplies_total sort cs (rootComments (build row cs))
              (S (length (heap (build row cs))))
              (rootComments (build row cs)) (heap (build row cs)) 0 HL)
    as [h Hh].
  - intros r Hr. by eapply Linked_root.
  - lia.
  - rewrite (Linked_length _ _ _ HL). lia.
  - rewrite Hh. simpl. apply sortReplies_spec in Hh as [Hres _].
    eapply toForest_total, Linked_Resorted; eauto.
Qed.

Lemma toTree_data (h : list (Obj A)) fuel r t :
  toTree fuel h r = Some t ->
  exists o rs, h !! r = Some o /\ t = Node (o_data o) rs
               /\ Forall2 (fun c s => toTree (pred fuel) h c = Some s)
                          (o_replies o) rs.
Proof.
  destruct fuel as [|fuel]; simpl; [done|].
  destruct (h !! r) as [o|]; simpl; [|done].
  destruct (mapM _ _) as [rs|] eqn:Hrs; simpl; [|done].
  intros [= <-]. apply mapM_Some in Hrs. eauto.
Qed.

Lemma toTree_created (h : list (Obj A)) fuel r t :
  toTree fuel h r = Some t -> created row t = created_of row h r.
Proof.
  intros (o & rs & Ho & -> & _)%toTree_data. unfold created_of. by rewrite Ho.
Qed.

(** The serialized tree of an object is sorted at every level when every
    array at or below the object is. *)
Lemma toTree_sorted sort (h : list (Obj A)) : forall fuel r t,
  toTree fuel h r = Some t ->
  (forall x, Below h r x -> sorted_at row sort h x) ->
  SortedTree row sort t.
Proof.
  induction fuel as [|fuel IH]; intros r t Ht Hs; [done|].
  apply toTree_data in Ht as (o & rs & Ho & -> & Hrs). simpl in Hrs.
  assert (replies_at h r = o_replies o) as Hrep
    by (unfold replies_at; by rewrite Ho).
  constructor.
  - eapply (Sorted_Forall2 (in_order sort) (created_of row h) (created row));
      [|exact Hrs|].
    + intros c s Hcs. simpl in Hcs. symmetry. by eapply toTree_created.
    + rewrite <- Hrep. apply Hs. constructor.
  - apply Forall_forall. intros s Hsin.
    apply list_elem_of_lookup in Hsin as [i Hi].
    destruct (Forall2_lookup_r _ _ _ _ _ Hrs Hi) as (c & Hc & Hcs).
    apply (IH c s Hcs). intros x Hx. apply Hs.
    econstructor; [|exact Hx]. rewrite Hrep. by eapply list_elem_of_lookup_2.
Qed.

(** The roots keep the order that the comments without parent have in the
    input. *)
Lemma roots_from_sorted sort (f : nat -> Z) cs : forall i,
  (forall k c, cs !! k = Some c -> f (i + k)%nat = created_at (row c)) ->
  StronglySorted
    (fun a b => in_order sort (created_at (row a)) (created_at (row b)))
    (List.filter (fun c => negb (truthy (parent_id (row c)))) cs) ->
  StronglySorted (fun a b => in_order sort (f a) (f b)) (roots_from row i cs).
Proof.
  induction cs as [|c cs IH]; intros i Hf Hs; simpl in *; [constructor|].
  assert (forall k c', cs !! k = Some c' ->
            f (S i + k)%nat = created_at (row c')) as Hf'.
  { intros k c' Hc'. rewrite <- (Hf (S k) c' Hc'). f_equal. lia. }
  destruct (truthy (parent_id (row c))); simpl in *; [by apply IH|].
  apply StronglySorted_inv in Hs as [Hs Hall].
  constructor; [by apply IH|]. apply Forall_forall.
  intros j (Hle & c' & Hc' & Ht)%elem_of_roots_from.
  rewrite <- (Nat.add_0_r i) at 1. rewrite (Hf 0%nat c eq_refl).
  replace j with (i + S (j - S i))%nat by lia.
  rewrite (Hf (S (j - S i)) c' Hc').
  eapply (proj1 (Forall_forall _ _) Hall).
  apply elem_of_filter_bool. split; [by eapply list_elem_of_lookup_2|].
  by rewrite Ht.
Qed.

(** After the sort pass, the forest of an input whose comments without
    parent are in order is sorted at every level. *)
Lemma assemble_sorted_SortedForest sort cs forest :
  StronglySorted
    (fun a b => in_order sort (created_at (row a)) (created_at (row b)))
    (List.filter (fun c => negb (truthy (parent_id (row c)))) cs) ->
  assemble_sorted row sort cs = Some forest ->
  SortedForest row sort forest.
Proof.
  intros Hcs. unfold assemble_sorted.
  pose proof (build_Linked row cs) as HL.
  destruct (sortReplies _ _ _ _ _) as [h|] eqn:Hh; simpl; [|done].
  destruct (sortReplies_spec row sort _ _ _ _ Hh) as [Hres Hbelow].
  pose proof (Linked_Resorted sort _ _ _ _ Hres HL) as HL'.
  unfold toForest. intros Hf%mapM_Some. split.
  - eapply (Sorted_Forall2 (in_order sort) (created_of row h) (created row));
      [|exact Hf|].
    + intros c s Hcs'. cbv beta in Hcs'. symmetry. by eapply toTree_created.
    + apply StronglySorted_Sorted.
      destruct (build_spec row cs) as (-> & _ & _).
      apply roots_from_sorted; [|done].
      intros k c Hc. simpl. unfold created_of.
      pose proof (linked_data _ _ _ _ HL' k) as Hd. rewrite Hc in Hd.
      destruct (h !! k) as [o|]; [|done]. by injection Hd as ->.
  - apply Forall_forall. intros s Hsin.
    apply list_elem_of_lookup in Hsin as [i Hi].
    destruct (Forall2_lookup_r _ _ _ _ _ Hf Hi) as (c & Hc & Hcs').
    cbv beta in Hcs'. apply (toTree_sorted sort h _ c s Hcs'). intros x Hx.
    apply (Hbelow c); [by eapply list_elem_of_lookup_2|done].
Qed.
End ForestProofs.

Lemma StronglySorted_map_fst {B} sort (f : Comment -> B) (l : list Comment) :
  StronglySorted (fun a b => in_order sort (created_at a) (created_at b)) l ->
  StronglySorted
    (fun a b : Comment * B =>
       in_order sort (created_at (fst a)) (created_at (fst b)))
    (map (fun c => (c, f c)) l).
Proof.
  induction 1 as [|c l _ IH Hall]; simpl; constructor; [done|].
  apply Forall_forall. intros [c' b] (x & [= -> ->] & Hx)%list_elem_of_fmap. simpl.
  by eapply (proj1 (Forall_forall _ _) Hall).
Qed.

Lemma sublist_filter_bool {B} (f : B -> bool) (l : list B) :
  sublist (List.filter f l) l.
Proof.
  induction l as [|x l IH]; simpl; [constructor|].
  destruct (f x); by constructor.
Qed.

Lemma order_by_created_at_sorted sort rows :
  StronglySorted (fun a b => in_order sort (created_at a) (created_at b))
                 (order_by_created_at sort rows).
Proof. apply StronglySorted_in_order, Array_sort_Sorted. Qed.

(** C5: the Sequelize listing returns for every store and request, and the
    forest of a 200 answer is in the order of the applied [sort] at the root
    list and at every [replies] list: timestamps of siblings do not increase
    for ['newest'] and do not decrease for ['oldest']. *)
Theorem C5_siblings_sorted_at_every_level (postId : Z) (q : ListQuery) (w : World) :
  (forall x y, in_order "newest" x y <-> y <= x)
  /\ (forall x y, in_order "oldest" x y <-> x <= y)
  /\ exists r w',
       get_post_comments postId q w = Some (r, w')
       /\ forall data msg, r = Success 200 data msg ->
            l_sort data = default "oldest" (q_sort q)
            /\ SortedForest fst (l_sort data) (l_comments data).
Proof.
  split; [done|]. split; [done|].
  unfold get_post_comments.
  destruct (listing_validators postId q) as [|e es];
    [|eexists _, _; split; [reflexivity|discriminate]].
  cbn [handleValidationErrors].
  rewrite (bind_run _ _ _ _ _ (Post_findByPk_run _ _)).
  destruct (List.find _ _) as [post|];
    [|eexists _, _; split; [reflexivity|discriminate]].
  set (sort := default "oldest" (q_sort q)).
  set (limit := limit_or (q_limit q) 50).
  unfold mbind, Async_bind, issue, read; simpl.
  set (found := sql_limit limit _).
  set (processed := map _ found).
  destruct (assemble_sorted_total fst sort processed) as [forest Hforest].
  rewrite Hforest. eexists _, _. split; [reflexivity|].
  intros data msg [= <- _]. simpl. split; [done|].
  apply (assemble_sorted_SortedForest fst sort processed); [|done].
  eapply StronglySorted_sublist; [apply sublist_filter_bool|].
  apply StronglySorted_map_fst.
  eapply StronglySorted_sublist; [apply sublist_take|].
  apply order_by_created_at_sorted.
Qed.

Ltac list_norm := repeat (progress (rewrite <- ?app_assoc; simpl)).

Section FlattenProofs.
Context {A : Type} (row : A -> Comment).

Lemma flat_map_bind {B C} (f : B -> list C) l : flat_map f l = l ≫= f.
Proof. induction l as [|x l IH]; [done|]. simpl. by rewrite IH. Qed.

Lemma data_of_app (h : list (Obj A)) l1 l2 :
  data_of h (l1 ++ l2) = data_of h l1 ++ data_of h l2.
Proof. apply omap_app. Qed.

Lemma data_of_cons (h : list (Obj A)) i o l :
  h !! i = Some o -> data_of h (i :: l) = o_data o :: data_of h l.
Proof. intros Ho. unfold data_of. simpl. by rewrite Ho. Qed.

(** The traversal of the serialized tree visits the objects of the
    traversal of the heap. *)
Lemma flatten_toTree (h : list (Obj A)) : forall fuel r t,
  toTree fuel h r = Some t -> flatten t = data_of h (flat_ix fuel h r).
Proof.
  induction fuel as [|fuel IH]; intros r t Ht; [done|].
  apply toTree_data in Ht as (o & rs & Ho & -> & Hrs). simpl in Hrs.
  change (flat_ix (S fuel) h r) with (r :: (replies_at h r ≫= flat_ix fuel h)).
  change (flatten (Node (o_data o) rs)) with (o_data o :: flat_map flatten rs).
  rewrite (data_of_cons h r o _ Ho). f_equal.
  unfold replies_at. rewrite Ho. clear Ho.
  induction Hrs as [|c s l k Hcs _ IHl]; [done|].
  change (flat_map flatten (s :: k)) with (flatten s ++ flat_map flatten k).
  rewrite bind_cons, data_of_app, IHl. f_equal. by apply IH.
Qed.

Lemma flatten_toForest (h : list (Obj A)) roots forest :
  toForest h roots = Some forest ->
  flatten_forest forest = data_of h (roots ≫= flat_ix (S (length h)) h).
Proof.
  unfold toForest, flatten_forest. intros Hf%mapM_Some.
  induction Hf as [|c s l k Hcs _ IHl]; [done|].
  change (flat_map flatten (s :: k)) with (flatten s ++ flat_map flatten k).
  rewrite bind_cons, data_of_app, IHl. f_equal.
  by apply flatten_toTree.
Qed.

(** Pre-order and level order visit the same objects. *)
Lemma flat_ix_layers (h : list (Obj A)) : forall fuel rs,
  rs ≫= flat_ix fuel h ≡ₚ layers_upto fuel h rs.
Proof.
  induction fuel as [|fuel IH]; intros rs.
  { simpl. induction rs as [|r rs IHrs]; [done|]. by rewrite bind_cons. }
  simpl. rewrite <- IH. clear IH.
  induction rs as [|r rs IHrs]; [done|].
  rewrite !bind_cons, bind_app, IHrs. simpl. constructor.
  rewrite !(assoc_L (++)). f_equiv. apply Permutation_app_comm.
Qed.

Lemma data_of_seq cs (h : list (Obj A)) :
  (forall i, o_data <$> h !! i = cs !! i) ->
  data_of h (seq 0 (length cs)) = cs.
Proof.
  intros Hd. unfold data_of.
  assert (forall pre l : list A,
            omap (fun i => (pre ++ l) !! i) (seq (length pre) (length l)) = l)
    as Haux.
  { intros pre l. revert pre. induction l as [|c l IH]; intros pre; [done|].
    simpl. rewrite lookup_app_r, Nat.sub_diag by lia. simpl. f_equal.
    specialize (IH (pre ++ [c])). rewrite length_app, <- app_assoc in IH.
    simpl in IH. by rewrite Nat.add_1_r in IH. }
  transitivity (omap (fun i => ([] ++ cs) !! i) (seq (length (@nil A)) (length cs)));
    [|apply Haux].
  simpl. generalize (seq 0 (length cs)) as l.
  induction l as [|i l IH]; [done|].
  change (omap ?f (i :: l)) with
    (match f i with Some y => y :: omap f l | None => omap f l end).
  cbv beta. rewrite Hd, IH. done.
Qed.

Lemma Rank_inv_S {B} (parent : B -> option B) i k :
  Rank parent i (S k) -> exists p, parent i = Some p /\ Rank parent p k.
Proof. inversion 1; subst; eauto. Qed.

Lemma Rank_inv_0 {B} (parent : B -> option B) i :
  Rank parent i 0 -> parent i = None.
Proof. by inversion 1. Qed.

Lemma replies_lt cs (h : list (Obj A)) roots p i :
  Linked row cs h roots -> i ∈ replies_at h p -> (i < length cs)%nat.
Proof.
  intros HL Hi. apply (linked_replies _ _ _ _ HL) in Hi.
  by apply parent_ix_lt in Hi as [? _].
Qed.

(** Levels do not overlap and hold no object twice. *)
Lemma layers_nodup cs (h : list (Obj A)) roots :
  Linked row cs h roots ->
  forall fuel k rs, NoDup rs ->
    (forall i, i ∈ rs -> (i < length cs)%nat /\ Rank (parent_ix row cs) i k) ->
    NoDup (layers_upto fuel h rs)
    /\ forall i, i ∈ layers_upto fuel h rs ->
         (i < length cs)%nat
         /\ exists k', (k <= k')%nat /\ Rank (parent_ix row cs) i k'.
Proof.
  intros HL. induction fuel as [|fuel IH]; intros k rs Hnd Hrs; simpl.
  { split; [constructor|]. by intros i ?%elem_of_nil. }
  destruct (IH (S k) (rs ≫= replies_at h)) as [Hnd' Hrk'].
  { apply NoDup_bind; [|intros; apply (linked_replies_nodup _ _ _ _ HL)|done].
    intros x1 x2 y _ _ H1 H2.
    apply (linked_replies _ _ _ _ HL) in H1, H2. congruence. }
  { intros i (p & Hi & Hp)%list_elem_of_bind.
    destruct (Hrs p Hp) as [_ HRp].
    by apply (Linked_child row cs h roots p i k). }
  split.
  - apply NoDup_app. split; [done|]. split; [|done].
    intros x Hx Hx'. destruct (Hrs x Hx) as [_ HR].
    destruct (Hrk' x Hx') as (_ & k' & Hk' & HR').
    pose proof (Rank_fun _ _ _ _ HR HR'). lia.
  - intros i [Hi|Hi]%elem_of_app.
    + destruct (Hrs i Hi) as [? ?]. split; [done|]. exists k. split; [lia|done].
    + destruct (Hrk' i Hi) as (? & k' & ? & ?). split; [done|].
      exists k'. split; [lia|done].
Qed.

(** A list that holds every object of level [k] leads to every object of
    the next levels. *)
Lemma layers_complete cs (h : list (Obj A)) roots :
  Linked row cs h roots ->
  forall fuel k rs,
    (forall i, Rank (parent_ix row cs) i k -> (i < length cs)%nat -> i ∈ rs) ->
    forall i k', Rank (parent_ix row cs) i k' -> (i < length cs)%nat ->
      (k <= k' < k + fuel)%nat -> i ∈ layers_upto fuel h rs.
Proof.
  intros HL. induction fuel as [|fuel IH]; intros k rs Hrs i k' HR Hi Hk; [lia|].
  simpl. apply elem_of_app.
  destruct (decide (k' = k)) as [->|Hne]; [left; by apply Hrs|].
  right. apply (IH (S k) _) with (k' := k'); [|done|done|lia].
  intros j (p & Hp & HRp)%Rank_inv_S Hj.
  apply list_elem_of_bind. exists p. split.
  - by apply (linked_replies _ _ _ _ HL).
  - apply Hrs; [done|]. by apply parent_ix_lt in Hp as [_ ?].
Qed.

(** When every comment leads to a root, the traversal from the roots visits
    every object once. *)
Lemma flat_roots_perm cs (h : list (Obj A)) roots :
  Linked row cs h roots ->
  (forall i, (i < length cs)%nat -> exists d, Rank (parent_ix row cs) i d) ->
  (forall i, (i < length cs)%nat -> parent_ix row cs i = None -> i ∈ roots) ->
  roots ≫= flat_ix (S (length cs)) h ≡ₚ seq 0 (length cs).
Proof.
  intros HL Hranked Hclosed. rewrite flat_ix_layers.
  destruct (layers_nodup cs h roots HL (S (length cs)) 0 roots) as [Hnd Hrk].
  { apply (linked_roots_nodup _ _ _ _ HL). }
  { intros i Hi. by eapply Linked_root. }
  apply NoDup_Permutation; [done|apply NoDup_seq|].
  intros i. rewrite elem_of_seq. split.
  - intros Hi. destruct (Hrk i Hi) as [? _]. lia.
  - intros [_ Hi]. destruct (Hranked i) as [d HR]; [lia|].
    pose proof (rank_lt row cs i d ltac:(lia) HR) as Hd.
    apply (layers_complete cs h roots HL (S (length cs)) 0 roots) with (k' := d);
      [|done|lia|lia].
    intros j Hj%Rank_inv_0 Hlt. by apply Hclosed.
Qed.

Lemma flat_ix_child (h : list (Obj A)) r c f :
  c ∈ replies_at h r ->
  exists a b, flat_ix (S f) h r = r :: a ++ flat_ix f h c ++ b.
Proof.
  intros (l1 & l2 & Hl)%list_elem_of_split. simpl.
  rewrite Hl, bind_app, bind_cons. eauto.
Qed.

Lemma Below_rank cs (h : list (Obj A)) roots r x :
  Linked row cs h roots -> Below h r x ->
  forall d d', Rank (parent_ix row cs) r d -> Rank (parent_ix row cs) x d' ->
    (d <= d')%nat.
Proof.
  intros HL. induction 1 as [r|r c x Hc _ IH]; intros d d' HR HR'.
  - by rewrite (Rank_fun _ _ _ _ HR HR').
  - destruct (Linked_child row cs h roots r c d HL Hc HR) as [_ HRc].
    specialize (IH (S d) d' HRc HR'). lia.
Qed.

(** The traversal of an object visits the object first and then everything
    nested below it. *)
Lemma Below_flat cs (h : list (Obj A)) roots r x :
  Linked row cs h roots -> Below h r x ->
  forall d d' f, Rank (parent_ix row cs) r d -> Rank (parent_ix row cs) x d' ->
    (d' < f + d)%nat ->
    (x = r /\ exists b, flat_ix f h r = r :: b)
    \/ exists a b, flat_ix f h r = r :: a ++ x :: b.
Proof.
  intros HL HB. induction HB as [r|r c x Hc HB IH]; intros d d' f HR HR' Hf.
  - left. split; [done|]. rewrite (Rank_fun _ _ _ _ HR HR') in Hf.
    destruct f as [|f]; [lia|]. simpl. eauto.
  - right.
    destruct (Linked_child row cs h roots r c d HL Hc HR) as [_ HRc].
    pose proof (Below_rank cs h roots c x HL HB (S d) d' HRc HR') as Hle.
    destruct f as [|f]; [lia|].
    destruct (flat_ix_child h r c f Hc) as (a & b & ->).
    destruct (IH (S d) d' f HRc HR') as [[-> [b' ->]]|(a' & b' & ->)]; [lia|..].
    + exists a, (b' ++ b). by list_norm.
    + exists (a ++ c :: a'), (b' ++ b). by list_norm.
Qed.

(** The objects below an object are visited in one piece. *)
Lemma subtree_contiguous cs (h : list (Obj A)) roots :
  Linked row cs h roots ->
  (forall i, (i < length cs)%nat -> parent_ix row cs i = None -> i ∈ roots) ->
  forall d i F, Rank (parent_ix row cs) i d -> (i < length cs)%nat -> (d < F)%nat ->
    exists l1 l3, roots ≫= flat_ix F h = l1 ++ flat_ix (F - d) h i ++ l3.
Proof.
  intros HL Hclosed. induction d as [|d IH]; intros i F HR Hi HF.
  - apply Rank_inv_0 in HR. rewrite Nat.sub_0_r.
    destruct (list_elem_of_split _ _ (Hclosed i Hi HR)) as (r1 & r2 & ->).
    rewrite bind_app, bind_cons. eauto.
  - apply Rank_inv_S in HR as (p & Hp & HRp).
    pose proof Hp as [_ Hplt]%parent_ix_lt.
    destruct (IH p F HRp Hplt) as (l1 & l3 & ->); [lia|].
    replace (F - d)%nat with (S (F - S d)) by lia.
    destruct (flat_ix_child h p i (F - S d)) as (a & b & ->).
    { by apply (linked_replies _ _ _ _ HL). }
    exists (l1 ++ p :: a), (b ++ l3). by list_norm.
Qed.

Lemma precedes_ix cs (h : list (Obj A)) roots p x :
  Linked row cs h roots ->
  (forall i, (i < length cs)%nat -> exists d, Rank (parent_ix row cs) i d) ->
  (forall i, (i < length cs)%nat -> parent_ix row cs i = None -> i ∈ roots) ->
  Below h p x -> p <> x -> (p < length cs)%nat -> (x < length cs)%nat ->
  exists l1 l2 l3,
    roots ≫= flat_ix (S (length cs)) h = l1 ++ p :: l2 ++ x :: l3.
Proof.
  intros HL Hranked Hclosed HB Hne Hp Hx.
  destruct (Hranked p Hp) as [d HR]. destruct (Hranked x Hx) as [d' HR'].
  pose proof (rank_lt row cs p d Hp HR) as Hd.
  pose proof (rank_lt row cs x d' Hx HR') as Hd'.
  destruct (subtree_contiguous cs h roots HL Hclosed d p (S (length cs)) HR Hp)
    as (l1 & l3 & ->); [lia|].
  destruct (Below_flat cs h roots p x HL HB d d' (S (length cs) - d) HR HR')
    as [[-> _]|(a & b & ->)]; [lia|done|].
  exists l1, a, (b ++ l3). by list_norm.
Qed.

Lemma Precedes_data_of (h : list (Obj A)) l1 l2 l3 p x op ox :
  h !! p = Some op -> h !! x = Some ox ->
  Precedes (data_of h (l1 ++ p :: l2 ++ x :: l3)) (o_data op) (o_data ox).
Proof.
  intros Hp Hx. exists (data_of h l1), (data_of h l2), (data_of h l3).
  rewrite data_of_app, (data_of_cons h p op _ Hp), data_of_app.
  by rewrite (data_of_cons h x ox _ Hx).
Qed.

(** With distinct ids, [commentMap] finds every comment at its own
    position. *)
Lemma commentMap_NoDup cs i c :
  NoDup (map (fun c => id (row c)) cs) -> cs !! i = Some c ->
  set_all row 0 cs ∅ !! id (row c) = Some i.
Proof.
  intros Hnd Hc.
  destruct (set_all_is_Some row cs 0 ∅ (id (row c))) as [v Hv].
  { left. exists c. split; [by eapply list_elem_of_lookup_2|done]. }
  rewrite Hv. f_equal.
  apply commentMap_lookup in Hv as (c' & Hc' & Hid).
  eapply NoDup_lookup; [exact Hnd| |].
  - rewrite list_lookup_fmap, Hc'. simpl. by rewrite Hid.
  - by rewrite list_lookup_fmap, Hc.
Qed.

Lemma findByPk_map cs p pc :
  findByPk (map row cs) p = Some pc ->
  exists j c, cs !! j = Some c /\ row c = pc /\ id pc = p.
Proof.
  intros [Hid Hin]%findByPk_id.
  apply list_elem_of_fmap in Hin as (c & -> & Hc).
  apply list_elem_of_lookup in Hc as [j Hj]. eauto.
Qed.

Lemma parent_ix_resolved cs i c p j c' :
  NoDup (map (fun c => id (row c)) cs) ->
  cs !! i = Some c -> truthy (parent_id (row c)) = true ->
  parent_id (row c) = Some p -> cs !! j = Some c' -> id (row c') = p ->
  parent_ix row cs i = Some j.
Proof.
  intros Hnd Hc Ht Hp Hc' Hid. unfold parent_ix, parent_of.
  rewrite Hc. simpl. rewrite Ht, Hp. simpl. rewrite <- Hid.
  by apply commentMap_NoDup.
Qed.

(** Hops of a comment in the list are levels of its object in the heap. *)
Lemma Hops_Rank_ix cs r d :
  NoDup (map (fun c => id (row c)) cs) ->
  Hops (map row cs) r d ->
  forall i c, cs !! i = Some c -> row c = r -> Rank (parent_ix row cs) i d.
Proof.
  intros Hnd. induction 1 as [r Hr|r p pc n Hp Ht Hf _ IH]; intros i c Hc <-.
  - constructor. unfold parent_ix, parent_of. rewrite Hc. simpl. by rewrite Hr.
  - apply findByPk_map in Hf as (j & c' & Hc' & Hrow & Hid).
    apply (Rank_step _ i j n); [|by apply (IH j c')].
    eapply parent_ix_resolved; eauto. congruence.
Qed.

Lemma rooted_closed cs (h : list (Obj A)) roots :
  Linked row cs h roots ->
  (forall c, c ∈ cs -> exists n, Hops (map row cs) (row c) n) ->
  forall i, (i < length cs)%nat -> parent_ix row cs i = None -> i ∈ roots.
Proof.
  intros HL Hhops i Hi Hnone.
  destruct (lookup_lt_is_Some_2 _ _ Hi) as [c Hc].
  apply (linked_roots _ _ _ _ HL). exists c. split; [done|].
  destruct (Hhops c) as [n Hn]; [by eapply list_elem_of_lookup_2|].
  inversion Hn as [|? p pc ? Hp Ht Hf _]; subst; [done|].
  exfalso. apply findByPk_map in Hf as (j & c' & Hc' & Hrow & Hid).
  unfold parent_ix, parent_of in Hnone. rewrite Hc in Hnone. simpl in Hnone.
  rewrite Ht, Hp in Hnone. simpl in Hnone.
  destruct (set_all_is_Some row cs 0 ∅ p) as [v Hv]; [|congruence].
  left. exists c'. split; [by eapply list_elem_of_lookup_2|congruence].
Qed.

(** The forest of a linked heap in which every comment leads to a root:
    its traversal is a permutation of the comments, and an object comes
    before the objects nested below it. *)
Lemma forest_of_Linked cs (h : list (Obj A)) roots :
  NoDup (map (fun c => id (row c)) cs) ->
  (forall c, c ∈ cs -> exists n, Hops (map row cs) (row c) n) ->
  Linked row cs h roots ->
  exists forest,
    toForest h roots = Some forest
    /\ flatten_forest forest ≡ₚ cs
    /\ forall p x cp cx,
         Below h p x -> p <> x -> cs !! p = Some cp -> cs !! x = Some cx ->
         Precedes (flatten_forest forest) cp cx.
Proof.
  intros Hnd Hhops HL.
  destruct (toForest_total row cs h roots HL) as [forest Hforest].
  exists forest. split; [done|].
  rewrite (flatten_toForest h roots forest Hforest), (Linked_length row cs h roots HL).
  assert (forall i, (i < length cs)%nat ->
            exists d, Rank (parent_ix row cs) i d) as Hranked.
  { intros i Hi. destruct (lookup_lt_is_Some_2 _ _ Hi) as [c Hc].
    destruct (Hhops c) as [n Hn]; [by eapply list_elem_of_lookup_2|].
    exists n. by eapply Hops_Rank_ix. }
  pose proof (rooted_closed cs h roots HL Hhops) as Hclosed.
  split.
  - unfold data_of.
    rewrite (flat_roots_perm cs h roots HL Hranked Hclosed).
    fold (data_of h (seq 0 (length cs))).
    rewrite (data_of_seq cs h); [done|]. apply (linked_data _ _ _ _ HL).
  - intros p x cp cx HB Hne Hp Hx.
    destruct (precedes_ix cs h roots p x HL Hranked Hclosed HB Hne)
      as (l1 & l2 & l3 & ->); [by eapply lookup_lt_Some..|].
    pose proof (linked_data _ _ _ _ HL p) as Hdp. rewrite Hp in Hdp.
    pose proof (linked_data _ _ _ _ HL x) as Hdx. rewrite Hx in Hdx.
    destruct (h !! p) as [op|] eqn:Hop; [|done].
    destruct (h !! x) as [ox|] eqn:Hox; [|done].
    injection Hdp as <-. injection Hdx as <-.
    by apply Precedes_data_of.
Qed.
End FlattenProofs.

(** C6, amended: for comments with distinct ids, each of which leads to a
    comment without parent along [parent_id] inside the list, the builder
    returns a forest whose pre-order traversal is a permutation of the list
    (also after the sort pass), in which a comment comes before every comment
    nested below it, in particular before its direct replies. *)
Theorem C6_flatten_is_permutation {A} (row : A -> Comment) (cs : list A) :
  NoDup (map (fun c => id (row c)) cs) ->
  (forall c, c ∈ cs -> exists n, Hops (map row cs) (row c) n) ->
  exists forest,
    assemble row cs = Some forest
    /\ flatten_forest forest ≡ₚ cs
    /\ (forall p x cp cx,
          Below (heap (build row cs)) p x -> p <> x ->
          cs !! p = Some cp -> cs !! x = Some cx ->
          Precedes (flatten_forest forest) cp cx)
    /\ (forall c c',
          c ∈ cs -> c' ∈ cs -> truthy (parent_id (row c)) = true ->
          parent_id (row c) = Some (id (row c')) ->
          Precedes (flatten_forest forest) c' c)
    /\ forall sort, exists forest',
         assemble_sorted row sort cs = Some forest'
         /\ flatten_forest forest' ≡ₚ cs.
Proof.
  intros Hnd Hhops. pose proof (build_Linked row cs) as HL.
  destruct (forest_of_Linked row cs _ _ Hnd Hhops HL) as (forest & Hf & Hperm & Hprec).
  exists forest. split; [done|]. split; [done|]. split; [done|]. split.
  - intros c c' [i Hi]%list_elem_of_lookup [j Hj]%list_elem_of_lookup Ht Hp.
    assert (parent_ix row cs i = Some j) as Hpar
      by (eapply parent_ix_resolved; eauto).
    apply (Hprec j i c' c); [| |done|done].
    + econstructor; [|constructor]. by apply (linked_replies _ _ _ _ HL).
    + intros ->. destruct (Hhops c) as [n Hn]; [by eapply list_elem_of_lookup_2|].
      pose proof (Hops_Rank_ix row cs _ _ Hnd Hn i c Hi eq_refl) as HR.
      assert (Rank (parent_ix row cs) i (S n)) as HR' by (econstructor; eauto).
      pose proof (Rank_fun _ _ _ _ HR HR'). lia.
  - intros sort. unfold assemble_sorted.
    destruct (assemble_sorted_total row sort cs) as [forest' Hf'].
    unfold assemble_sorted in Hf'.
    destruct (sortReplies _ _ _ _ _) as [h'|] eqn:Hh; [|discriminate Hf'].
    apply sortReplies_spec in Hh as [Hres _].
    pose proof (Linked_Resorted row sort _ _ _ _ Hres HL) as HL'.
    destruct (forest_of_Linked row cs _ _ Hnd Hhops HL') as (f & Hf'' & Hperm' & _).
    exists f. split; [exact Hf''|exact Hperm'].
Qed.

Section PlacementProofs.
Context {A : Type} (row : A -> Comment).

Lemma children_from_increasing m cs : forall i p,
  StronglySorted lt (children_from row m i cs p).
Proof.
  induction cs as [|c cs IH]; intros i p; simpl; [constructor|].
  destruct (decide _); simpl; [|done].
  constructor; [done|]. apply Forall_forall.
  intros j [Hle _]%elem_of_children_from. lia.
Qed.

Lemma roots_from_increasing cs : forall i,
  StronglySorted lt (roots_from row i cs).
Proof.
  induction cs as [|c cs IH]; intros i; simpl; [constructor|].
  destruct (truthy _); simpl; [done|].
  constructor; [done|]. apply Forall_forall.
  intros j [Hle _]%elem_of_roots_from. lia.
Qed.

(** What the traversal visits was pushed to [rootComments] or to a [replies]
    array. *)
Lemma flat_ix_pushed (h : list (Obj A)) : forall fuel r i,
  i ∈ flat_ix fuel h r -> i = r \/ exists p, i ∈ replies_at h p.
Proof.
  induction fuel as [|fuel IH]; intros r i; simpl; [by intros ?%elem_of_nil|].
  intros [->|(c & Hi & Hc)%list_elem_of_bind]%elem_of_cons; [by left|].
  destruct (IH c i Hi) as [->|?]; eauto.
Qed.

Lemma flatten_pushed (h : list (Obj A)) roots forest x :
  toForest h roots = Some forest -> x ∈ flatten_forest forest ->
  exists i o, h !! i = Some o /\ o_data o = x
              /\ (i ∈ roots \/ exists p, i ∈ replies_at h p).
Proof.
  intros Hf. rewrite (flatten_toForest h roots forest Hf). unfold data_of.
  intros (i & Hi & Hx)%list_elem_of_omap.
  destruct (h !! i) as [o|] eqn:Ho; [|done]. injection Hx as <-.
  exists i, o. split; [done|]. split; [done|].
  apply list_elem_of_bind in Hi as (r & Hi & Hr).
  destruct (flat_ix_pushed h _ r i Hi) as [->|?]; eauto.
Qed.

Lemma parent_ix_unresolved cs i c :
  cs !! i = Some c ->
  (forall c', c' ∈ cs -> parent_id (row c) <> Some (id (row c'))) ->
  parent_ix row cs i = None.
Proof.
  intros Hc Hun. unfold parent_ix, parent_of. rewrite Hc. simpl.
  destruct (truthy _); [|done].
  destruct (parent_id (row c)) as [k|] eqn:Hk; simpl; [|done].
  destruct (set_all row 0 cs ∅ !! k) as [v|] eqn:Hv; [|done].
  apply commentMap_lookup in Hv as (c' & Hc' & Hid).
  destruct (Hun c'); [by eapply list_elem_of_lookup_2|congruence].
Qed.
End PlacementProofs.

(** C2, amended: the second loop appends a node to [rootComments] exactly
    when its [parent_id] is null (or 0), and to the [replies] of the object
    that [commentMap] holds for its [parent_id] when that id is the id of a
    node of the list.  A node whose non-null [parent_id] is the id of no node
    of the list is appended to no sequence and does not occur in the built
    forest.  Every sequence keeps the order of the list. *)
Theorem C2_builder_placement {A} (row : A -> Comment) (cs : list A)
    (i : nat) (c : A) :
  cs !! i = Some c ->
  let b := build row cs in
  (truthy (parent_id (row c)) = false ->
     i ∈ rootComments b /\ forall p, i ∉ replies_at (heap b) p)
  /\ (truthy (parent_id (row c)) = true ->
      (exists c', c' ∈ cs /\ parent_id (row c) = Some (id (row c'))) ->
      exists p c', cs !! p = Some c'
        /\ parent_id (row c) = Some (id (row c'))
        /\ i ∈ replies_at (heap b) p
        /\ (forall p', i ∈ replies_at (heap b) p' -> p' = p)
        /\ i ∉ rootComments b)
  /\ (truthy (parent_id (row c)) = true ->
      (forall c', c' ∈ cs -> parent_id (row c) <> Some (id (row c'))) ->
      (i ∉ rootComments b)
      /\ (forall p, i ∉ replies_at (heap b) p)
      /\ forall forest, assemble row cs = Some forest ->
                        c ∉ flatten_forest forest)
  /\ StronglySorted lt (rootComments b)
  /\ forall p, StronglySorted lt (replies_at (heap b) p).
Proof.
  intros Hc b. pose proof (build_Linked row cs) as HL. fold b in HL.
  assert (forall j, j ∈ rootComments b ->
            forall c', cs !! j = Some c' -> truthy (parent_id (row c')) = false)
    as Hroot.
  { intros j (c'' & Hc'' & Ht)%(linked_roots _ _ _ _ HL) c' Hc'. congruence. }
  split; [|split; [|split; [|split]]].
  - intros Ht. split.
    + apply (linked_roots _ _ _ _ HL). eauto.
    + intros p Hp%(linked_replies _ _ _ _ HL).
      unfold parent_ix, parent_of in Hp. rewrite Hc in Hp. simpl in Hp.
      by rewrite Ht in Hp.
  - intros Ht (c' & Hc' & Hp).
    destruct (set_all_is_Some row cs 0 ∅ (id (row c'))) as [p Hm]; [by eauto|].
    pose proof Hm as (c'' & Hc'' & Hid)%commentMap_lookup.
    assert (parent_ix row cs i = Some p) as Hpar.
    { unfold parent_ix, parent_of. rewrite Hc. simpl. by rewrite Ht, Hp. }
    exists p, c''. split; [done|]. split; [congruence|].
    split; [by apply (linked_replies _ _ _ _ HL)|]. split.
    + intros p' Hp'%(linked_replies _ _ _ _ HL). congruence.
    + intros Hr. specialize (Hroot i Hr c Hc). congruence.
  - intros Ht Hun.
    pose proof (parent_ix_unresolved row cs i c Hc Hun) as Hnone.
    split; [intros Hr; specialize (Hroot i Hr c Hc); congruence|].
    split; [intros p Hp%(linked_replies _ _ _ _ HL); congruence|].
    intros forest Hf Hin. unfold assemble in Hf. fold b in Hf.
    destruct (flatten_pushed (heap b) _ forest c Hf Hin)
      as (j & o & Ho & Hd & Hpushed).
    assert (cs !! j = Some c) as Hj.
    { rewrite <- (linked_data _ _ _ _ HL j), Ho. simpl. by rewrite Hd. }
    destruct Hpushed as [Hr|[p Hp%(linked_replies _ _ _ _ HL)]].
    + specialize (Hroot j Hr c Hj). congruence.
    + rewrite (parent_ix_unresolved row cs j c Hj Hun) in Hp. done.
  - unfold b. destruct (build_spec row cs) as (-> & _ & _).
    apply roots_from_increasing.
  - intros p. unfold b. destruct (build_spec row cs) as (_ & _ & Hh).
    destruct (Hh p) as [_ ->]. apply children_from_increasing.
Qed.


(** The single loop of [GET /api/posts/:id] drops such a reply too, as well
    as a reply that comes before its parent. *)
Lemma single_pass_drops_orphans :
  assemble_single_pass (fun c => c) [orphan] = Some []
  /\ assemble_single_pass (fun c => c)
       [mkComment 3 1 1 (Some 1) "C" true 30; mkComment 1 1 1 None "A" true 10]
     = Some [Node (mkComment 1 1 1 None "A" true 10) []].
Proof. split; reflexivity. Qed.

Lemma C2_counterexample :
  (forall c', c' ∈ [orphan] -> parent_id orphan <> Some (id c'))
  /\ rootComments (build (fun c => c) [orphan]) = []
  /\ assemble (fun c => c) [orphan] = Some [].
Proof.
  split; [|split; reflexivity].
  intros c' ->%list_elem_of_singleton. discriminate.
Qed.

Lemma C2_witness :
  (0%nat ∉ rootComments (build (fun c => c) [orphan]))
  /\ (forall p, 0%nat ∉ replies_at (heap (build (fun c => c) [orphan])) p)
  /\ forall forest, assemble (fun c => c) [orphan] = Some forest ->
                    orphan ∉ flatten_forest forest.
Proof.
  refine (proj1 (proj2 (proj2 (C2_builder_placement (fun c => c) [orphan] 0 orphan
                                 eq_refl))) eq_refl _).
  intros c' ->%list_elem_of_singleton. discriminate.
Defined.


Lemma C6_counterexample :
  exists forest,
    assemble (fun c => c) root_and_orphan = Some forest
    /\ flatten_forest forest = [mkComment 1 1 1 None "A" true 10]
    /\ ~ (flatten_forest forest ≡ₚ root_and_orphan).
Proof.
  eexists. split; [reflexivity|]. split; [reflexivity|].
  intros H%Permutation_length. discriminate H.
Qed.

Lemma C6_witness :
  exists forest,
    assemble (fun c => c) sample_rows = Some forest
    /\ flatten_forest forest ≡ₚ sample_rows.
Proof.
  destruct (C6_flatten_is_permutation (fun c => c) sample_rows)
    as (forest & Hf & Hperm & _).
  - unfold sample_rows. simpl.
    repeat constructor; rewrite ?elem_of_cons, ?elem_of_nil; intuition discriminate.
  - intros c Hc. unfold sample_rows in Hc.
    repeat (apply elem_of_cons in Hc as [->|Hc]);
      [..|by apply elem_of_nil in Hc]; eexists; hops.
  - exists forest. split; [exact Hf|exact Hperm].
Defined.

(** *** Reaction tallies and the replies route *)








(** *** The paginated listing *)

Lemma assemble_sorted_elements {A} (row : A -> Comment) sort cs forest x :
  assemble_sorted row sort cs = Some forest ->
  x ∈ flatten_forest forest -> x ∈ cs.
Proof.
  unfold assemble_sorted.
  destruct (sortReplies _ _ _ _ _) as [h|] eqn:Hh; [|discriminate].
  intros Hf Hx. change (toForest h (rootComments (build row cs)) = Some forest) in Hf.
  apply sortReplies_spec in Hh as [Hres _].
  pose proof (Linked_Resorted row sort _ _ _ _ Hres (build_Linked row cs)) as HL.
  destruct (flatten_pushed h _ forest x Hf Hx) as (i & o & Ho & <- & _).
  pose proof (linked_data _ _ _ _ HL i) as Hd. rewrite Ho in Hd. simpl in Hd.
  by eapply list_elem_of_lookup_2.
Qed.

(** A run of the PostgreSQL listing on a valid request for an existing
    post: the page [shown] of the published top-level comments, the fetched
    replies, which are published comments whose [parent_id] is the id of a
    comment of the page, and the forest assembled from both. *)
Lemma Pg_listing_run (postId : Z) (q : ListQuery) (w : World) :
  Pg.listing_validators postId q = [] -> postId ∈ posts (db w) ->
  let sort := default "oldest" (q_sort q) in
  let limit := limit_or (q_limit q) 10 in
  let page := limit_or (q_page q) 1 in
  let top := List.filter (Pg.top_level postId) (comments (db w)) in
  let shown := Pg.sql_limit_offset limit ((page - 1) * limit)
                 (order_by_created_at sort top) in
  exists fetched forest w',
    Pg.get_post_comments postId q w
    = Some (Success 200
              (Pg.mkPostCommentsJson postId forest (Z.of_nat (length top)) sort
                 (Pg.mkPagination page
                    (Pg.ceil_div (Z.of_nat (length top)) limit)
                    (Z.of_nat (length top)) limit
                    (page <? Pg.ceil_div (Z.of_nat (length top)) limit)
                    (1 <? page)))
              "", w')
    /\ db w' = db w
    /\ assemble_sorted fst sort
         (map (fun c => (c, Pg.reaction_counts (db w) (id c))) (shown ++ fetched))
       = Some forest
    /\ forall x, x ∈ fetched ->
         x ∈ comments (db w) /\ is_published x = true
         /\ exists t, t ∈ shown /\ parent_id x = Some (id t).
Proof.
  intros Hv Hpost sort limit page top shown.
  unfold Pg.get_post_comments, Pg.Post_findById, Pg.getCommentData.
  rewrite Hv. cbn [handleValidationErrors].
  rewrite (bind_run _ _ _ _ _ (Post_findByPk_run _ _)), (find_eqb_Some _ _ Hpost).
  fold sort limit page.
  unfold mbind at 1 2 3 4, Async_bind at 1 2 3 4, issue, read. cbn [db logged].
  fold top. fold shown.
  set (repliesResult :=
         order_by_created_at sort
           (List.filter (Pg.reply_to (map id shown)) (comments (db w)))).
  assert (forall x, x ∈ repliesResult ->
            x ∈ comments (db w) /\ is_published x = true
            /\ exists t, t ∈ shown /\ parent_id x = Some (id t)) as Hreplies.
  { intros x Hx. unfold repliesResult, order_by_created_at in Hx.
    rewrite Array_sort_perm in Hx. apply elem_of_filter_bool in Hx as [Hin Hx].
    unfold Pg.reply_to in Hx. apply andb_true_iff in Hx as [Hp Hpub].
    split; [done|]. split; [done|]. destruct (parent_id x) as [p|]; [|done].
    apply bool_decide_eq_true in Hp.
    apply list_elem_of_fmap in Hp as (t & -> & Ht). eauto. }
  match goal with |- context [_ ?w0 = Some _] => set (w1 := w0) end.
  assert (db w1 = db w) as Hdb1 by done. clearbody w1.
  assert (exists fetched w2,
            (match map id shown with
             | [] => mret []
             | _ :: _ => _ ← issue Comment_findAll_q;
                         read (fun d => order_by_created_at sort
                                 (List.filter (Pg.reply_to (map id shown))
                                              (comments d)))
             end) w1 = Some (fetched, w2)
            /\ db w2 = db w
            /\ forall x, x ∈ fetched -> x ∈ repliesResult)
    as (fetched & w2 & Hrun & Hdb & Hsub).
  { destruct (map id shown) eqn:Hids.
    - eexists _, _. split; [reflexivity|]. split; [done|]. by intros x ?%elem_of_nil.
    - eexists _, _. split; [reflexivity|]. split; [done|].
      unfold repliesResult. cbn [db]. by rewrite Hdb1. }
  unfold issue, read in Hrun. rewrite (bind_run _ _ _ _ _ Hrun).
  unfold mbind at 1, Async_bind at 1. rewrite Hdb.
  set (processed := map _ (shown ++ fetched)).
  destruct (assemble_sorted_total fst sort processed) as [forest Hforest].
  rewrite Hforest. exists fetched, forest, w2. split; [reflexivity|].
  split; [done|]. split; [done|]. intros x Hx. by apply Hreplies, Hsub.
Qed.

(** The pagination of the PostgreSQL listing: the count is the number of
    published top-level comments of the post, [has_next_page] compares the
    page with the number of pages, and what is attached below the page's
    top-level comments are their direct replies only. *)
Lemma Pg_listing_pagination (postId : Z) (q : ListQuery) (w : World) :
  Pg.listing_validators postId q = [] -> postId ∈ posts (db w) ->
  let sort := default "oldest" (q_sort q) in
  let limit := limit_or (q_limit q) 10 in
  let page := limit_or (q_page q) 1 in
  let top := List.filter (Pg.top_level postId) (comments (db w)) in
  let shown := Pg.sql_limit_offset limit ((page - 1) * limit)
                 (order_by_created_at sort top) in
  exists data w',
    Pg.get_post_comments postId q w = Some (Success 200 data "", w')
    /\ db w' = db w
    /\ Pg.l_total_count data = Z.of_nat (length top)
    /\ Pg.has_next_page (Pg.pagination data)
       = (page <? Pg.ceil_div (Z.of_nat (length top)) limit)
    /\ Pg.has_prev_page (Pg.pagination data) = (1 <? page)
    /\ forall x, x ∈ map fst (flatten_forest (Pg.l_comments data)) ->
         x ∈ shown
         \/ (is_published x = true
             /\ exists t, t ∈ shown /\ parent_id x = Some (id t)).
Proof.
  intros Hv Hpost sort limit page top shown.
  destruct (Pg_listing_run postId q w Hv Hpost)
    as (fetched & forest & w' & Hrun & Hdb & Hforest & Hfetched).
  eexists _, w'. split; [exact Hrun|].
  split; [done|]. split; [done|]. split; [done|]. split; [done|].
  cbn [Pg.l_comments]. intros x (y & -> & Hy)%list_elem_of_fmap.
  apply (assemble_sorted_elements fst _ _ forest y Hforest) in Hy.
  apply list_elem_of_fmap in Hy as (c & -> & [Hc|Hc]%elem_of_app); simpl;
    [by left|].
  right. by destruct (Hfetched c Hc) as (_ & ? & ?).
Qed.

Lemma filter_bool_all {B} (f : B -> bool) (l : list B) :
  (forall x, x ∈ l -> f x = true) -> List.filter f l = l.
Proof.
  induction l as [|x l IH]; intros Hall; simpl; [done|].
  rewrite (Hall x) by by left. f_equal. apply IH. intros y Hy. apply Hall. by right.
Qed.

Lemma filter_bool_none {B} (f : B -> bool) (l : list B) :
  (forall x, x ∈ l -> f x = false) -> List.filter f l = [].
Proof.
  induction l as [|x l IH]; intros Hall; simpl; [done|].
  rewrite (Hall x) by by left. apply IH. intros y Hy. apply Hall. by right.
Qed.

(** The order of siblings in the paginated listing, on a store whose ids are
    not 0: as in C5, the forest of a 200 answer is in the order of [sort] at
    the root list and at every [replies] list. *)
Lemma Pg_listing_sorted (postId : Z) (q : ListQuery) (w : World) :
  (forall c, c ∈ comments (db w) -> id c <> 0) ->
  exists r w',
    Pg.get_post_comments postId q w = Some (r, w')
    /\ forall data msg, r = Success 200 data msg ->
         Pg.l_sort data = default "oldest" (q_sort q)
         /\ SortedForest fst (Pg.l_sort data) (Pg.l_comments data).
Proof.
  intros Hids.
  destruct (decide (Pg.listing_validators postId q = [])) as [Hv|Hv]; cycle 1.
  { unfold Pg.get_post_comments.
    destruct (Pg.listing_validators postId q); [done|].
    eexists _, _. split; [reflexivity|discriminate]. }
  destruct (decide (postId ∈ posts (db w))) as [Hpost|Hpost]; cycle 1.
  { unfold Pg.get_post_comments, Pg.Post_findById.
    rewrite Hv. cbn [handleValidationErrors].
    rewrite (bind_run _ _ _ _ _ (Post_findByPk_run _ _)), (find_eqb_None _ _ Hpost).
    eexists _, _. split; [reflexivity|discriminate]. }
  destruct (Pg_listing_run postId q w Hv Hpost)
    as (fetched & forest & w' & Hrun & Hdb & Hforest & Hfetched).
  eexists _, w'. split; [exact Hrun|].
  intros data msg [= <- _]. cbn [Pg.l_sort Pg.l_comments]. split; [done|].
  set (sort := default "oldest" (q_sort q)) in *.
  set (shown := Pg.sql_limit_offset _ _ _) in *.
  refine (assemble_sorted_SortedForest fst sort _ forest _ Hforest).
  assert (forall x, x ∈ shown -> x ∈ comments (db w) /\ parent_id x = None)
    as Hshown.
  { intros x Hx. unfold shown, Pg.sql_limit_offset in Hx.
    eapply elem_of_sublist in Hx; [|apply sublist_take].
    eapply elem_of_sublist in Hx; [|apply sublist_drop].
    unfold order_by_created_at in Hx. rewrite Array_sort_perm in Hx.
    apply elem_of_filter_bool in Hx as [Hin Hx]. split; [done|].
    unfold Pg.top_level in Hx. apply andb_true_iff in Hx as [_ Hx].
    by destruct (parent_id x). }
  rewrite map_app, List.filter_app.
  rewrite (filter_bool_all _ (map _ shown)), (filter_bool_none _ (map _ fetched)).
  - rewrite app_nil_r. apply StronglySorted_map_fst.
    unfold shown, Pg.sql_limit_offset.
    eapply StronglySorted_sublist; [apply sublist_take|].
    eapply StronglySorted_sublist; [apply sublist_drop|].
    apply order_by_created_at_sorted.
  - intros [x rc] (c & [= -> ->] & Hc)%list_elem_of_fmap. simpl.
    destruct (Hfetched c Hc) as (_ & _ & t & Ht & ->).
    destruct (Hshown t Ht) as [Htin _]. specialize (Hids t Htin).
    simpl. by destruct (Z.eqb_spec (id t) 0).
  - intros [x rc] (c & [= -> ->] & Hc)%list_elem_of_fmap. simpl.
    destruct (Hshown c Hc) as [_ ->]. done.
Qed.

(** The boundaries of the pagination. *)
Lemma Pg_pagination_boundary (n : Z) :
  (n = 100 -> (1 <? Pg.ceil_div n 100) = false)
  /\ (2 <= n -> (1 <? Pg.ceil_div n 1) = true).
Proof.
  unfold Pg.ceil_div. split.
  - intros ->. reflexivity.
  - intros Hn. apply Z.ltb_lt. rewrite Z.div_1_r. lia.
Qed.

(** C3, at the thread A > C > D > E > F > G with the second root B: the
    first page of the PostgreSQL listing counts the two top-level comments
    and has no next page, and the forest it returns holds A with its direct
    reply C, and B.  D, a published reply two levels below the top-level
    comment A, is not attached: the replies query selects the comments whose
    [parent_id] is the id of a top-level comment of the page. *)
Theorem C3_deep_replies_not_attached :
  let A := mkComment 1 1 1 None "A" true 10 in
  let B := mkComment 2 1 1 None "B" true 20 in
  let C := mkComment 3 1 1 (Some 1) "C" true 30 in
  let D := mkComment 4 1 1 (Some 3) "D" true 40 in
  exists data w',
    Pg.get_post_comments 1 (mkListQuery None None None) thread_world
    = Some (Success 200 data "", w')
    /\ Pg.l_total_count data = 2
    /\ Pg.has_next_page (Pg.pagination data) = false
    /\ map fst (flatten_forest (Pg.l_comments data)) = [A; C; B]
    /\ InSubtree thread 1 D /\ is_published D = true
    /\ D ∉ map fst (flatten_forest (Pg.l_comments data)).
Proof.
  intros A B C D. eexists _, _. split; [vm_compute; reflexivity|].
  split; [reflexivity|]. split; [reflexivity|]. split; [reflexivity|].
  assert (forall x, x ∈ thread <-> In x thread) as Hin
    by (intros x; apply list_elem_of_In).
  split.
  { apply (InSubtree_reply _ _ D C); [apply Hin; simpl; tauto|reflexivity|].
    apply (InSubtree_reply _ _ C A); [apply Hin; simpl; tauto|reflexivity|].
    apply InSubtree_self; [apply Hin; simpl; tauto|reflexivity]. }
  split; [reflexivity|].
  rewrite list_elem_of_In. simpl. intros [H|[H|[H|[]]]]; discriminate H.
Qed.

(** *** [PUT /api/comments/:id] *)

Lemma update_validators_nil pk content :
  update_validators pk content = [] <->
  isInt_min1 pk = true /\ isLength 1 2000 (trim content) = true.
Proof. unfold update_validators. rewrite app_nil, !check_nil. done. Qed.

Lemma findByPk_set_content rows pk content' q :
  findByPk (map (fun c => if id c =? pk then with_content content' c else c) rows) q
  = (fun c => if id c =? pk then with_content content' c else c) <$> findByPk rows q.
Proof.
  unfold findByPk. induction rows as [|x rows IH]; simpl; [done|].
  assert (id (if id x =? pk then with_content content' x else x) = id x) as ->.
  { by destruct (id x =? pk). }
  destruct (id x =? q); [done|apply IH].
Qed.

Lemma put_comment_invalid pk content w :
  update_validators pk content <> [] ->
  put_comment pk content w
  = Some (Failure 400 "Validation failed" "VALIDATION_ERROR", w).
Proof. intros Hv. unfold put_comment. by destruct (update_validators pk content). Qed.

Lemma put_comment_missing pk content w :
  update_validators pk content = [] ->
  findByPk (comments (db w)) pk = None ->
  put_comment pk content w
  = Some (Failure 404 "Comment not found" "NOT_FOUND",
          logged w [Comment_findByPk_q pk]).
Proof.
  intros Hv Hf. unfold put_comment. rewrite Hv. cbn [handleValidationErrors].
  by rewrite (bind_run _ _ _ _ _ (Comment_findByPk_run _ _)), Hf.
Qed.

Lemma put_comment_found pk content w c :
  update_validators pk content = [] ->
  findByPk (comments (db w)) pk = Some c ->
  put_comment pk content w
  = Some (Success 200 (Some (with_content (trim content) c))
                  "Comment updated successfully",
          mkWorld (set_content pk (trim content) (db w))
                  (queries w ++ [Comment_findByPk_q pk; Comment_findByPk_q pk])
                  (now w)).
Proof.
  intros Hv Hf. pose proof Hf as [Hid _]%findByPk_id.
  apply update_validators_nil in Hv as Hv'. destruct Hv' as [_ Hlen].
  unfold put_comment. rewrite Hv. cbn [handleValidationErrors].
  rewrite (bind_run _ _ _ _ _ (Comment_findByPk_run _ _)), Hf.
  unfold Comment_update. rewrite trim_idem, Hlen, Hid. cbn [negb].
  async. rewrite findByPk_set_content, Hf. simpl.
  rewrite <- Hid at 1. rewrite Z.eqb_refl, <- app_assoc. reflexivity.
Qed.




(** *** What the handlers do to the store *)

Lemma find_eqb_elem (l : list Z) pk x :
  List.find (fun p => p =? pk) l = Some x -> pk ∈ l.
Proof.
  intros [Hin ->%Z.eqb_eq]%find_some. by apply list_elem_of_In.
Qed.

(** An early answer of the parent checks is a refusal. *)
Lemma check_parent_refusal post parent w r w' :
  check_parent post parent w = Some (Some r, w') -> statusOf r <> 201%nat.
Proof.
  unfold check_parent. destruct parent as [p|]; [|done].
  destruct (truthy (Some p)); [|done].
  rewrite (bind_run _ _ _ _ _ (Comment_findByPk_run p w)).
  destruct (findByPk (comments (db w)) p) as [pc|];
    [|intros [= <- <-]; simpl; lia].
  destruct (negb (post_id pc =? post)); [intros [= <- <-]; simpl; lia|].
  unfold mbind, Async_bind.
  destruct (Comment_getCommentDepth _ _) as [[d w1]|]; [|done].
  destruct (5 <=? d)%nat; [intros [= <- <-]; simpl; lia|done].
Qed.

(** A run of [POST /] leaves the store as it was or appends the new row past
    all the checks; the answer is then 201 with the row found under the new
    id. *)
Lemma post_comment_effect b w r w' :
  post_comment b w = Some (r, w') ->
  (db w' = db w /\ statusOf r <> 201%nat)
  \/ (admitted b (db w)
      /\ (forall p, b_parent_id b = Some p ->
            exists pc, findByPk (comments (db w)) p = Some pc
                       /\ post_id pc = b_post_id b)
      /\ db w' = insert_comment
                   (mkComment (comments_id_seq (db w)) (b_post_id b) (b_user_id b)
                              (b_parent_id b) (trim (b_content b)) true (now w))
                   (db w)
      /\ exists msg,
           r = Success 201 (findByPk (comments (db w')) (comments_id_seq (db w)))
                       msg).
Proof.
  unfold post_comment.
  destruct (create_validators b) as [|e es] eqn:Hv;
    [|intros [= <- <-]; left; split; [done|simpl; lia]].
  cbn [handleValidationErrors].
  rewrite (bind_run _ _ _ _ _ (Post_findByPk_run _ _)).
  destruct (List.find _ (posts (db w))) as [x|] eqn:Hpost;
    [|intros [= <- <-]; left; split; [done|simpl; lia]].
  apply find_eqb_elem in Hpost.
  rewrite (bind_run _ _ _ _ _ (User_findByPk_run _ _)). cbn [logged db].
  destruct (List.find _ (users (db w))) as [y|] eqn:Huser;
    [|intros [= <- <-]; left; split; [done|simpl; lia]].
  apply find_eqb_elem in Huser.
  assert (admitted b (db w)) as Hadm by done.
  rewrite logged_logged. unfold mbind at 1, Async_bind at 1.
  destruct (check_parent _ _ _) as [[early w1]|] eqn:Hcheck; [|done].
  pose proof Hcheck as [[qs ->] Hpar]%check_parent_inv.
  destruct early as [r0|].
  { intros [= <- <-]. left. split; [done|]. by eapply check_parent_refusal. }
  unfold mbind at 1, Async_bind at 1.
  destruct (Comment_create _ _) as [[created w2]|] eqn:Hc; [|done].
  apply Comment_create_inv in Hc as [(e & -> & Hdb)|(c & -> & Hceq & Hdb)].
  { intros [= <- <-]. left. split; [done|simpl; lia]. }
  rewrite (bind_run _ _ _ _ _ (Comment_findByPk_run _ _)).
  intros [= <- <-]. right. cbn [logged db] in *.
  cbn [v_content v_post_id v_user_id v_parent_id] in Hceq.
  rewrite trim_idem in Hceq.
  split; [done|]. split.
  { intros p Hp. apply (Hpar eq_refl p Hp). by eapply admitted_parent. }
  split; [by rewrite Hdb, Hceq|].
  eexists. rewrite Hceq at 1. reflexivity.
Qed.

Lemma put_comment_effect pk content' w r w' :
  put_comment pk content' w = Some (r, w') ->
  db w' = db w
  \/ (isLength 1 2000 (trim content') = true
      /\ db w' = set_content pk (trim content') (db w)).
Proof.
  destruct (decide (update_validators pk content' = [])) as [Hv|Hv]; cycle 1.
  { rewrite (put_comment_invalid _ _ _ Hv). intros [= <- <-]. by left. }
  destruct (findByPk (comments (db w)) pk) as [c|] eqn:Hf.
  - rewrite (put_comment_found _ _ _ _ Hv Hf). intros [= <- <-]. right.
    apply update_validators_nil in Hv as [_ ?]. done.
  - rewrite (put_comment_missing _ _ _ Hv Hf). intros [= <- <-]. by left.
Qed.

Lemma delete_comment_effect pk w r w' :
  delete_comment pk w = Some (r, w') ->
  db w' = db w
  \/ (exists c, findByPk (comments (db w)) pk = Some c)
     /\ db w' = destroy_comment pk (db w).
Proof.
  unfold delete_comment.
  destruct (id_validators pk); [|intros [= <- <-]; by left].
  cbn [handleValidationErrors].
  rewrite (bind_run _ _ _ _ _ (Comment_findByPk_run _ _)).
  destruct (findByPk (comments (db w)) pk) as [c|] eqn:Hf;
    [|intros [= <- <-]; by left].
  apply findByPk_id in Hf as Hid. destruct Hid as [-> _].
  intros [= <- <-]. right. split; [eauto|done].
Qed.

(** *** Rows under a primary key *)

Lemma findByPk_NoDup rows c :
  NoDup (map id rows) -> c ∈ rows -> findByPk rows (id c) = Some c.
Proof.
  unfold findByPk. induction rows as [|x rows IH]; simpl.
  - by intros _ ?%elem_of_nil.
  - intros [Hx Hnd]%NoDup_cons [->|Hin]%elem_of_cons.
    + by rewrite Z.eqb_refl.
    + destruct (Z.eqb_spec (id x) (id c)) as [Heq|_]; [|by apply IH].
      exfalso. apply Hx. rewrite Heq. by apply list_elem_of_fmap_2.
Qed.

Lemma findByPk_None rows pk :
  findByPk rows pk = None <-> pk ∉ map id rows.
Proof.
  unfold findByPk. induction rows as [|x rows IH]; simpl.
  - split; [intros _ ?%elem_of_nil|]; done.
  - rewrite not_elem_of_cons. destruct (Z.eqb_spec (id x) pk) as [Heq|Hne].
    + split; [done|]. intros [? _]. congruence.
    + rewrite IH. split; [intros ?; split; congruence|by intros [_ ?]].
Qed.

Lemma cascade_sublist fuel : forall gone rows,
  sublist (cascade fuel gone rows) rows.
Proof.
  induction fuel as [|fuel IH]; intros gone rows; simpl; [done|].
  destruct (List.filter (references gone) rows); [done|].
  etrans; [apply IH|apply sublist_filter_bool].
Qed.

Lemma delete_row_sublist pk rows : sublist (delete_row pk rows) rows.
Proof.
  unfold delete_row. etrans; [apply cascade_sublist|apply sublist_filter_bool].
Qed.

Lemma InSubtree_elem rows pk x : InSubtree rows pk x -> x ∈ rows.
Proof. by destruct 1. Qed.

(** A row that survives a deletion has a surviving parent. *)
Lemma delete_row_parent rows pk c x pc :
  findByPk rows pk = Some c ->
  x ∈ delete_row pk rows -> pc ∈ rows -> parent_id x = Some (id pc) ->
  pc ∈ delete_row pk rows.
Proof.
  intros Hf Hx Hpc Hpar.
  apply (delete_row_spec _ _ _ Hf) in Hx as [Hxin Hnsub].
  apply (delete_row_spec _ _ _ Hf). split; [done|].
  intros Hsub. apply Hnsub. by apply (InSubtree_reply _ _ x pc).
Qed.

(** *** The handlers keep the store consistent *)

Lemma Consistent_insert d c :
  Consistent d ->
  id c = comments_id_seq d ->
  post_id c ∈ posts d -> user_id c ∈ users d ->
  (forall p, parent_id c = Some p ->
     exists pc, findByPk (comments d) p = Some pc /\ post_id pc = post_id c) ->
  Consistent (insert_comment c d).
Proof.
  intros [Hseq Hnd Hids Hpost Huser Hpar Hreact] Hid Hp Hu Hparent.
  constructor; simpl.
  - lia.
  - rewrite map_app. apply NoDup_app. split; [done|]. split; [|apply NoDup_singleton].
    intros k (x & -> & Hx)%list_elem_of_fmap Heq%list_elem_of_singleton.
    specialize (Hids x Hx). lia.
  - intros x [Hx| ->%list_elem_of_singleton]%elem_of_app.
    + specialize (Hids x Hx). lia.
    + lia.
  - intros x [Hx| ->%list_elem_of_singleton]%elem_of_app; auto.
  - intros x [Hx| ->%list_elem_of_singleton]%elem_of_app; auto.
  - intros x p [Hx| ->%list_elem_of_singleton]%elem_of_app Hxp.
    + destruct (Hpar x p Hx Hxp) as (pc & Hpc & ?). exists pc.
      split; [|done]. apply elem_of_app. by left.
    + destruct (Hparent p Hxp) as (pc & [Hpid Hpc]%findByPk_id & ?). exists pc.
      split; [|done]. apply elem_of_app. by left.
  - intros r k Hr Hk. rewrite map_app. apply elem_of_app. left. by eapply Hreact.
Qed.

Lemma elem_of_set_content pk s rows y :
  y ∈ map (fun c => if id c =? pk then with_content s c else c) rows ->
  exists x, x ∈ rows /\ id y = id x /\ post_id y = post_id x
            /\ user_id y = user_id x /\ parent_id y = parent_id x
            /\ (content y = content x \/ content y = s).
Proof.
  intros (x & -> & Hx)%list_elem_of_fmap. exists x. split; [done|].
  destruct (id x =? pk); simpl; auto 10.
Qed.

Lemma map_id_set_content pk s rows :
  map id (map (fun c => if id c =? pk then with_content s c else c) rows)
  = map id rows.
Proof.
  rewrite map_map. apply map_ext. intros x. by destruct (id x =? pk).
Qed.

Lemma Consistent_set_content d pk s :
  Consistent d -> Consistent (set_content pk s d).
Proof.
  intros [Hseq Hnd Hids Hpost Huser Hpar Hreact].
  constructor; simpl.
  - done.
  - by rewrite map_id_set_content.
  - intros y (x & Hx & Hy & _)%elem_of_set_content. rewrite Hy. auto.
  - intros y (x & Hx & _ & Hy & _)%elem_of_set_content. rewrite Hy. auto.
  - intros y (x & Hx & _ & _ & Hy & _)%elem_of_set_content. rewrite Hy. auto.
  - intros y p (x & Hx & _ & Hyp & _ & Hyq & _)%elem_of_set_content Hp.
    rewrite Hyq in Hp. destruct (Hpar x p Hx Hp) as (pc & Hpc & Hpid & Hpp).
    exists (if id pc =? pk then with_content s pc else pc). split.
    + apply list_elem_of_fmap. eauto.
    + rewrite Hyp, <- Hpp. by destruct (id pc =? pk).
  - intros r k Hr Hk. rewrite map_id_set_content. by eapply Hreact.
Qed.

Lemma Consistent_destroy d pk c :
  Consistent d -> findByPk (comments d) pk = Some c ->
  Consistent (destroy_comment pk d).
Proof.
  intros [Hseq Hnd Hids Hpost Huser Hpar Hreact] Hf.
  pose proof (delete_row_sublist pk (comments d)) as Hsub.
  assert (forall x, x ∈ delete_row pk (comments d) -> x ∈ comments d) as Hin.
  { intros x Hx. eapply elem_of_sublist; eauto. }
  constructor; simpl.
  - done.
  - eapply sublist_NoDup; [exact Hnd|]. by apply fmap_sublist.
  - auto.
  - auto.
  - auto.
  - intros x p Hx Hp. destruct (Hpar x p (Hin x Hx) Hp) as (pc & Hpc & <- & Hpp).
    exists pc. split; [|done]. by eapply delete_row_parent.
  - intros r k [Hr Hkeep]%elem_of_filter_bool Hk. rewrite Hk in Hkeep.
    apply negb_true_iff, andb_false_iff in Hkeep as [Hk1|Hk2].
    + apply bool_decide_eq_false in Hk1. exfalso. apply Hk1. by eapply Hreact.
    + apply negb_false_iff, bool_decide_eq_true in Hk2. done.
Qed.

Lemma Consistent_sample : Consistent (db sample_world).
Proof.
  constructor; simpl.
  - lia.
  - repeat constructor; rewrite ?elem_of_cons, ?elem_of_nil; intuition discriminate.
  - intros c Hc. unfold sample_rows in Hc.
    repeat (apply elem_of_cons in Hc as [->|Hc]); [..|by apply elem_of_nil in Hc];
      simpl; lia.
  - intros c Hc. unfold sample_rows in Hc.
    repeat (apply elem_of_cons in Hc as [->|Hc]); [..|by apply elem_of_nil in Hc];
      apply list_elem_of_In; simpl; tauto.
  - intros c Hc. unfold sample_rows in Hc.
    repeat (apply elem_of_cons in Hc as [->|Hc]); [..|by apply elem_of_nil in Hc];
      apply list_elem_of_In; simpl; tauto.
  - intros c p Hc. unfold sample_rows in Hc.
    repeat (apply elem_of_cons in Hc as [->|Hc]); [..|by apply elem_of_nil in Hc];
      simpl; intros [= <-].
    exists (mkComment 1 1 1 None "A" true 10). split; [|done].
    apply list_elem_of_In; simpl; tauto.
  - by intros r k ?%elem_of_nil.
Qed.

(** X3: each of [POST /], [PUT /:id] and [DELETE /:id] leaves a consistent store
    consistent: distinct ids below the sequence, existing posts and authors,
    parents that are comments of the same post, reactions on existing
    comments. *)
Theorem handlers_keep_store_consistent (w : World) :
  Consistent (db w) ->
  (forall b r w', post_comment b w = Some (r, w') -> Consistent (db w'))
  /\ (forall pk content' r w',
        put_comment pk content' w = Some (r, w') -> Consistent (db w'))
  /\ (forall pk r w', delete_comment pk w = Some (r, w') -> Consistent (db w')).
Proof.
  intros Hc. split; [|split].
  - intros b r w' [[-> _]|((_ & Hp & Hu) & Hpar & -> & _)]%post_comment_effect;
      [done|].
    apply Consistent_insert; simpl; auto.
  - intros pk s r w' [->|[_ ->]]%put_comment_effect; [done|].
    by apply Consistent_set_content.
  - intros pk r w' [->|[[c Hf] ->]]%delete_comment_effect; [done|].
    by eapply Consistent_destroy.
Qed.

Lemma handlers_keep_store_consistent_witness :
  (exists r w',
     post_comment (mkCreateBody 1 1 " D " (Some 3)) sample_world = Some (r, w')
     /\ comments (db w') = sample_rows ++ [mkComment 4 1 1 (Some 3) "D" true 100]
     /\ Consistent (db w'))
  /\ (exists r w',
        delete_comment 1 sample_world = Some (r, w')
        /\ comments (db w') = [mkComment 2 2 1 None "B" true 20]
        /\ Consistent (db w')).
Proof.
  destruct (handlers_keep_store_consistent sample_world Consistent_sample)
    as (Hpost & _ & Hdelete).
  split.
  - eexists _, _. split; [vm_compute; reflexivity|]. split; [reflexivity|].
    eapply (Hpost (mkCreateBody 1 1 " D " (Some 3))). vm_compute. reflexivity.
  - eexists _, _. split; [vm_compute; reflexivity|]. split; [reflexivity|].
    eapply (Hdelete 1). vm_compute. reflexivity.
Defined.

(** *** Stored contents *)





(** *** Depth of the threads under [PUT] and [DELETE] *)

Lemma Hops_set_content rows pk s c n :
  Hops rows c n ->
  Hops (map (fun c => if id c =? pk then with_content s c else c) rows)
       (if id c =? pk then with_content s c else c) n.
Proof.
  induction 1 as [c Hc|c p pc n Hp Ht Hf _ IH].
  - constructor. by destruct (id c =? pk).
  - eapply Hops_reply; [| | |exact IH].
    + instantiate (1 := p). by destruct (id c =? pk).
    + by destruct (id c =? pk).
    + by rewrite findByPk_set_content, Hf.
Qed.

Lemma Hops_delete_row rows pk c0 :
  NoDup (map id rows) -> findByPk rows pk = Some c0 ->
  forall x n, Hops rows x n -> x ∈ delete_row pk rows ->
              Hops (delete_row pk rows) x n.
Proof.
  intros Hnd Hf x n. induction 1 as [c Hc|c p pc n Hp Ht Hpc _ IH]; intros Hin.
  - by constructor.
  - pose proof Hpc as [<- Hpcin]%findByPk_id.
    assert (pc ∈ delete_row pk rows) as Hpc' by (by eapply delete_row_parent).
    eapply Hops_reply; [exact Hp|exact Ht| |by apply IH].
    apply findByPk_NoDup; [|done].
    eapply sublist_NoDup; [exact Hnd|]. apply fmap_sublist, delete_row_sublist.
Qed.

(** X5: [PUT /:id] and, on a table with distinct ids, [DELETE /:id] keep the
    depth invariant: an update changes no [parent_id], and a deletion takes a
    comment away together with everything below it, so that the chain from a
    remaining comment to its root remains. *)
Theorem put_and_delete_keep_depth (w : World) :
  DepthInv (comments (db w)) ->
  (forall pk content' r w',
     put_comment pk content' w = Some (r, w') -> DepthInv (comments (db w')))
  /\ (NoDup (map id (comments (db w))) ->
      forall pk r w',
        delete_comment pk w = Some (r, w') -> DepthInv (comments (db w'))).
Proof.
  intros Hinv. split.
  - intros pk s r w' [->|[_ ->]]%put_comment_effect; [done|].
    intros y (x & -> & Hx)%list_elem_of_fmap.
    destruct (Hinv x Hx) as (n & Hn & Hle). exists n. split; [|done].
    by apply Hops_set_content.
  - intros Hnd pk r w' [->|[[c Hf] ->]]%delete_comment_effect; [done|].
    intros x Hx. simpl in Hx.
    assert (x ∈ comments (db w)) as Hxin.
    { eapply elem_of_sublist; [exact Hx|apply delete_row_sublist]. }
    destruct (Hinv x Hxin) as (n & Hn & Hle). exists n. split; [|done].
    by eapply Hops_delete_row.
Qed.

Lemma put_and_delete_keep_depth_witness :
  (exists r w',
     put_comment 4 "D, edited" thread_world = Some (r, w')
     /\ DepthInv (comments (db w')))
  /\ (exists r w',
        delete_comment 4 thread_world = Some (r, w')
        /\ comments (db w')
            = [ mkComment 1 1 1 None "A" true 10;
                mkComment 2 1 1 None "B" true 20;
                mkComment 3 1 1 (Some 1) "C" true 30 ]
        /\ DepthInv (comments (db w'))).
Proof.
  destruct (put_and_delete_keep_depth thread_world DepthInv_thread)
    as (Hput & Hdelete).
  split.
  - eexists _, _. split; [vm_compute; reflexivity|].
    eapply (Hput 4 "D, edited"). vm_compute. reflexivity.
  - eexists _, _. split; [vm_compute; reflexivity|]. split; [reflexivity|].
    assert (NoDup (map id (comments (db thread_world)))) as Hnd.
    { repeat constructor; rewrite ?elem_of_cons, ?elem_of_nil;
        intuition discriminate. }
    eapply (Hdelete Hnd 4). vm_compute. reflexivity.
Defined.

(** *** Reactions under [DELETE] *)

(** X6: on a consistent store, [DELETE /:id] of an existing comment removes,
    with the subtree of the comment, exactly the reactions on the comments of
    that subtree. *)
Theorem delete_cascades_to_reactions (pk : Z) (w : World) (c : Comment) :
  Consistent (db w) ->
  findByPk (comments (db w)) pk = Some c ->
  exists msg w',
    delete_comment pk w = Some (Success 200 tt msg, w')
    /\ forall r, r ∈ reactions (db w')
         <-> r ∈ reactions (db w)
             /\ ~ exists x, InSubtree (comments (db w)) pk x
                            /\ comment_id r = Some (id x).
Proof.
  intros Hc Hf. pose proof Hf as [Hid Hcin]%findByPk_id.
  assert (isInt_min1 pk = true) as Hpk.
  { apply Z.leb_le. destruct (ids_drawn _ Hc c Hcin). lia. }
  unfold delete_comment, id_validators. rewrite Hpk.
  cbn [check handleValidationErrors].
  rewrite (bind_run _ _ _ _ _ (Comment_findByPk_run _ _)), Hf.
  eexists _, _. split; [reflexivity|]. simpl. rewrite Hid.
  intros r. unfold surviving_reactions. rewrite elem_of_filter_bool.
  split; intros [Hr Hkeep]; (split; [done|]).
  - intros (x & Hsub & Hx). rewrite Hx in Hkeep.
    pose proof (InSubtree_elem _ _ _ Hsub) as Hxin.
    apply negb_true_iff, andb_false_iff in Hkeep as [Hk|Hk].
    + apply bool_decide_eq_false in Hk. apply Hk. by apply list_elem_of_fmap_2.
    + apply negb_false_iff, bool_decide_eq_true in Hk.
      apply list_elem_of_fmap in Hk as (y & Hy & Hyin).
      pose proof Hyin as [Hyrows Hnsub]%(delete_row_spec _ _ _ Hf).
      assert (y = x) as ->; [|done].
      pose proof (findByPk_NoDup _ _ (ids_distinct _ Hc) Hyrows) as H1.
      pose proof (findByPk_NoDup _ _ (ids_distinct _ Hc) Hxin) as H2.
      congruence.
  - destruct (comment_id r) as [k|] eqn:Hk; [|done].
    apply negb_true_iff, andb_false_iff.
    destruct (decide (k ∈ map id (delete_row pk (comments (db w)))))
      as [Hin|Hnin]; [right; by apply negb_false_iff, bool_decide_eq_true|].
    left. apply bool_decide_eq_false. intros (x & -> & Hx)%list_elem_of_fmap.
    apply Hnin, list_elem_of_fmap_2, (delete_row_spec _ _ _ Hf).
    split; [done|]. intros Hsub. apply Hkeep. eauto.
Qed.

Ltac in_rows Hc :=
  repeat (apply elem_of_cons in Hc as [->|Hc]); [..|by apply elem_of_nil in Hc].

Ltac elem_now := apply list_elem_of_In; simpl; tauto.

Lemma Consistent_reacted : Consistent (db reacted_world).
Proof.
  constructor; simpl.
  - lia.
  - repeat constructor; rewrite ?elem_of_cons, ?elem_of_nil; intuition discriminate.
  - intros c Hc. unfold thread in Hc. in_rows Hc; simpl; lia.
  - intros c Hc. unfold thread in Hc. in_rows Hc; elem_now.
  - intros c Hc. unfold thread in Hc. in_rows Hc; elem_now.
  - intros c p Hc. unfold thread in Hc. in_rows Hc; simpl; intros [= <-];
      match goal with
      | |- exists pc, _ /\ id pc = ?p /\ _ =>
          let r := eval vm_compute in (findByPk thread p) in
          match r with Some ?x => exists x end
      end; (split; [elem_now|split; reflexivity]).
  - intros r k Hr. in_rows Hr; simpl; intros [= <-]; elem_now.
Qed.

Lemma delete_cascades_to_reactions_witness :
  exists msg w',
    delete_comment 3 reacted_world = Some (Success 200 tt msg, w')
    /\ reactions (db w') = [mkReaction (Some 2) "heart" "U+2764"]
    /\ forall r, r ∈ reactions (db w')
         <-> r ∈ reactions (db reacted_world)
             /\ ~ exists x, InSubtree thread 3 x /\ comment_id r = Some (id x).
Proof.
  destruct (delete_cascades_to_reactions 3 reacted_world
              (mkComment 3 1 1 (Some 1) "C" true 30) Consistent_reacted eq_refl)
    as (msg & w' & Hrun & Hreact).
  exists msg, w'. split; [exact Hrun|]. split; [|exact Hreact].
  vm_compute in Hrun. injection Hrun as _ <-. reflexivity.
Defined.

(** *** A request after another *)

(** X7: on a consistent store, after [DELETE /:id] of an existing comment, [GET
    /:id] answers 404 for that comment and for every comment that was below
    it. *)
Theorem delete_then_get_not_found (pk : Z) (w : World) (c : Comment) :
  Consistent (db w) ->
  findByPk (comments (db w)) pk = Some c ->
  exists msg w',
    delete_comment pk w = Some (Success 200 tt msg, w')
    /\ forall x, InSubtree (comments (db w)) pk x ->
         get_comment (id x) w'
         = Some (Failure 404 "Comment not found" "NOT_FOUND",
                 logged w' [Comment_findByPk_q (id x)]).
Proof.
  intros Hc Hf. pose proof Hf as [Hid Hcin]%findByPk_id.
  assert (isInt_min1 pk = true) as Hpk.
  { apply Z.leb_le. destruct (ids_drawn _ Hc c Hcin). lia. }
  unfold delete_comment, id_validators. rewrite Hpk.
  cbn [check handleValidationErrors].
  rewrite (bind_run _ _ _ _ _ (Comment_findByPk_run _ _)), Hf.
  eexists _, _. split; [reflexivity|]. rewrite Hid.
  intros x Hsub. pose proof (InSubtree_elem _ _ _ Hsub) as Hxin.
  unfold get_comment, id_validators.
  assert (isInt_min1 (id x) = true) as ->.
  { apply Z.leb_le. destruct (ids_drawn _ Hc x Hxin). lia. }
  cbn [check handleValidationErrors].
  rewrite (bind_run _ _ _ _ _ (Comment_findByPk_run _ _)).
  cbn [db comments destroy_comment logged].
  assert (findByPk (delete_row pk (comments (db w))) (id x) = None) as ->; [|done].
  apply findByPk_None. intros (y & Hy & Hyin)%list_elem_of_fmap.
  pose proof Hyin as [Hyrows Hnsub]%(delete_row_spec _ _ _ Hf).
  assert (y = x) as ->; [|done].
  pose proof (findByPk_NoDup _ _ (ids_distinct _ Hc) Hyrows) as H1.
  pose proof (findByPk_NoDup _ _ (ids_distinct _ Hc) Hxin) as H2.
  congruence.
Qed.

Lemma delete_then_get_not_found_witness :
  exists msg w',
    delete_comment 3 thread_world = Some (Success 200 tt msg, w')
    /\ get_comment 7 w'
       = Some (Failure 404 "Comment not found" "NOT_FOUND",
               logged w' [Comment_findByPk_q 7]).
Proof.
  assert (Consistent (db thread_world)) as Hc.
  { destruct Consistent_reacted. constructor; simpl in *; try done.
    by intros r k ?%elem_of_nil. }
  destruct (delete_then_get_not_found 3 thread_world
              (mkComment 3 1 1 (Some 1) "C" true 30) Hc eq_refl)
    as (msg & w' & Hrun & Hget).
  exists msg, w'. split; [exact Hrun|].
  apply (Hget (mkComment 7 1 1 (Some 6) "G" true 70)).
  eapply InSubtree_reply with (p := mkComment 6 1 1 (Some 5) "F" true 60);
    [elem_now|reflexivity|].
  eapply InSubtree_reply with (p := mkComment 5 1 1 (Some 4) "E" true 50);
    [elem_now|reflexivity|].
  eapply InSubtree_reply with (p := mkComment 4 1 1 (Some 3) "D" true 40);
    [elem_now|reflexivity|].
  eapply InSubtree_reply with (p := mkComment 3 1 1 (Some 1) "C" true 30);
    [elem_now|reflexivity|].
  apply InSubtree_self; [elem_now|reflexivity].
Defined.





(** *** Instance methods of the models *)

(** X10: [getDepth] asks for the depth of the parent: for a comment [n] hops
    below its root it returns [n - 1], so that a direct reply reports 0 as a
    top-level comment does. *)
Theorem getDepth_is_one_less (c : Comment) (w : World) (n : nat) :
  Hops (comments (db w)) c n ->
  exists qs, getDepth c w = Some (Nat.pred n, logged w qs).
Proof.
  unfold getDepth. destruct 1 as [c Hc|c p pc n Hp Ht Hf Hh].
  - exists []. rewrite logged_nil. unfold Comment_getCommentDepth.
    cbn [getCommentDepth_rec]. destruct (parent_id c) as [p|]; [|done].
    rewrite Hc. reflexivity.
  - rewrite Hp. simpl. eapply Comment_getCommentDepth_Hops; eauto.
    apply truthy_Some. by rewrite <- Hp.
Qed.

Lemma getDepth_is_one_less_witness :
  (exists qs, getDepth (mkComment 1 1 1 None "A" true 10) thread_world
              = Some (0%nat, logged thread_world qs))
  /\ (exists qs, getDepth (mkComment 3 1 1 (Some 1) "C" true 30) thread_world
                 = Some (0%nat, logged thread_world qs))
  /\ (exists qs, getDepth (mkComment 4 1 1 (Some 3) "D" true 40) thread_world
                 = Some (1%nat, logged thread_world qs)).
Proof.
  split; [|split].
  - apply (getDepth_is_one_less _ thread_world 0). hops.
  - apply (getDepth_is_one_less _ thread_world 1). hops.
  - apply (getDepth_is_one_less _ thread_world 2). hops.
Defined.

Lemma length_append s t :
  String.length (s +:+ t) = (String.length s + String.length t)%nat.
Proof. induction s as [|a s IH]; simpl; [done|]. by rewrite IH. Qed.

Lemma length_ltrim s : (String.length (ltrim s) <= String.length s)%nat.
Proof.
  induction s as [|a s IH]; simpl; [done|].
  destruct (is_space a); simpl; lia.
Qed.

Lemma length_rtrim s : (String.length (rtrim s) <= String.length s)%nat.
Proof.
  induction s as [|a s IH]; simpl; [done|].
  destruct (rtrim s); [destruct (is_space a)|]; simpl in *; lia.
Qed.

Lemma length_trim s : (String.length (trim s) <= String.length s)%nat.
Proof.
  unfold trim. etrans; [apply length_rtrim|apply length_ltrim].
Qed.

Lemma length_substring0 n s : (String.length (String.substring 0 n s) <= n)%nat.
Proof.
  revert s. induction n as [|n IH]; intros [|a s]; simpl; try lia.
  specialize (IH s). lia.
Qed.





(** X11: the preview is never more than three characters longer than the limit,
    and a content within the limit is its own preview. *)
Theorem getPreview_bounded (maxLength : nat) (content' : string) :
  (String.length (getPreview maxLength content') <= maxLength + 3)%nat
  /\ ((String.length content' <= maxLength)%nat ->
      getPreview maxLength content' = content').
Proof.
  unfold getPreview. destruct content' as [|a s]; [simpl; split; [lia|done]|].
  destruct (Nat.leb_spec (String.length (String a s)) maxLength) as [Hle|Hlt].
  - split; [lia|done].
  - split; [|lia]. rewrite length_append.
    pose proof (length_trim (String.substring 0 maxLength (String a s))).
    pose proof (length_substring0 maxLength (String a s)).
    simpl String.length at 2. lia.
Qed.





Lemma append_empty_r s : s +:+ "" = s.
Proof.
  induction s as [|a s IH]; [done|].
  change (String a (s +:+ "") = String a s). by rewrite IH.
Qed.








(** *** The post routes *)














(** X17: for a post whose privacy level is one of the three levels of the column,
    [canUserView] holds exactly for the author and, when the post is
    published and public, for everybody else. *)
Theorem canUserView_who (user : option Z) (post : Posts.Post) :
  Posts.isIn_privacy (Posts.privacy_level post) = true ->
  Posts.canUserView user post = true
  <-> user = Some (Posts.user_id post)
      \/ (Posts.is_published post = true /\ Posts.privacy_level post = "public").
Proof.
  unfold Posts.isIn_privacy, Posts.canUserView.
  destruct (Posts.is_published post); cbn [negb].
  - destruct (String.eqb_spec (Posts.privacy_level post) "public") as [Hp|Hp];
      [by intuition|].
    destruct (String.eqb_spec (Posts.privacy_level post) "friends") as [Hf|Hf];
      destruct (String.eqb_spec (Posts.privacy_level post) "private") as [Hv|Hv];
      simpl; try done; intros _;
      (destruct user as [u|]; [destruct (Z.eqb_spec u (Posts.user_id post))|]);
      split; try done; try (intros [[= ?]|[_ ?]]; done); try (by left; f_equal).
  - intros _. destruct user as [u|];
      [destruct (Z.eqb_spec u (Posts.user_id post))|];
      split; try done; try (intros [[= ?]|[? _]]; done); try (by left; f_equal).
Qed.

Lemma canUserView_who_witness :
  (Posts.canUserView (Some 2) (Posts.mkPost 4 2 "draft" "public" false 40) = true
   <-> Some 2 = Some 2 \/ (false = true /\ "public" = "public"))
  /\ (Posts.canUserView None (Posts.mkPost 3 1 "party" "friends" true 30) = true
      <-> None = Some 1 \/ (true = true /\ "friends" = "public")).
Proof.
  split.
  - exact (canUserView_who (Some 2) (Posts.mkPost 4 2 "draft" "public" false 40)
                           eq_refl).
  - exact (canUserView_who None (Posts.mkPost 3 1 "party" "friends" true 30)
                           eq_refl).
Defined.

(** X18: the access checks of the PostgreSQL [GET /api/posts/:id] against
    [canUserView]: the route lets through every viewer that the model
    admits, and besides them exactly the signed-in users who are not the
    author of a published post for friends. *)
Theorem access_checks_admit_more (user : option Z) (post : Posts.Post) :
  Posts.isIn_privacy (Posts.privacy_level post) = true ->
  (Posts.canUserView user post = true -> Posts.access_denied user post = false)
  /\ (Posts.access_denied user post = false
      /\ Posts.canUserView user post = false
      <-> Posts.is_published post = true
          /\ Posts.privacy_level post = "friends"
          /\ exists u, user = Some u /\ u <> Posts.user_id post).
Proof.
  unfold Posts.isIn_privacy, Posts.canUserView, Posts.access_denied.
  destruct (Posts.is_published post); cbn [negb andb].
  - destruct (String.eqb_spec (Posts.privacy_level post) "public") as [Hp|Hp].
    { rewrite Hp. simpl. intros _. split; [done|].
      split; [by intros [_ ?]|by intros (_ & ? & _)]. }
    destruct (String.eqb_spec (Posts.privacy_level post) "friends") as [Hf|Hf];
      destruct (String.eqb_spec (Posts.privacy_level post) "private") as [Hv|Hv];
      simpl; try done; try congruence; intros _.
    + destruct user as [u|]; simpl.
      * destruct (Z.eqb_spec u (Posts.user_id post)) as [->|Hne].
        -- split; [done|]. split; [by intros [_ ?]|].
           intros (_ & _ & u' & [= <-] & ?). done.
        -- split; [done|]. split; [|done]. intros _. eauto.
      * split; [done|]. split; [by intros [? _]|].
        by intros (_ & _ & u' & ? & _).
    + destruct user as [u|]; simpl.
      * destruct (Z.eqb_spec u (Posts.user_id post)) as [->|Hne].
        -- rewrite Z.eqb_refl. simpl. split; [done|].
           split; [by intros [_ ?]|by intros (_ & ? & _)].
        -- destruct (Z.eqb_spec (Posts.user_id post) u) as [|_]; [congruence|].
           simpl. split; [done|].
           split; [by intros [? _]|by intros (_ & ? & _)].
      * split; [done|]. split; [by intros [? _]|by intros (_ & ? & _)].
  - intros _. destruct user as [u|]; simpl.
    + destruct (Z.eqb_spec u (Posts.user_id post)) as [->|Hne].
      * rewrite Z.eqb_refl. simpl.
        split; [|split; [by intros [_ ?]|by intros (? & _)]].
        intros _. by rewrite !andb_false_r.
      * destruct (Z.eqb_spec (Posts.user_id post) u) as [|_]; [congruence|].
        simpl. split; [done|]. split; [by intros [? _]|by intros (? & _)].
    + split; [done|]. split; [by intros [? _]|by intros (? & _)].
Qed.

Lemma access_checks_admit_more_witness :
  Posts.access_denied (Some 2) (Posts.mkPost 3 1 "party" "friends" true 30) = false
  /\ Posts.canUserView (Some 2) (Posts.mkPost 3 1 "party" "friends" true 30) = false.
Proof.
  apply (access_checks_admit_more (Some 2)
           (Posts.mkPost 3 1 "party" "friends" true 30) eq_refl).
  split; [reflexivity|]. split; [reflexivity|]. exists 2. split; [reflexivity|discriminate].
Defined.

(** *** The single loop of [GET /api/posts/:id] *)

Section SinglePassProofs.
Context {A : Type} (row : A -> Comment).

Lemma set_all_snoc cs c : forall i (m : gmap Z nat),
  set_all row i (cs ++ [c]) m
  = <[id (row c) := (i + length cs)%nat]> (set_all row i cs m).
Proof.
  induction cs as [|x cs IH]; intros i m; simpl.
  - by rewrite Nat.add_0_r.
  - rewrite IH. f_equal. lia.
Qed.

Lemma NoDup_ids_prefix (pre suf : list A) :
  NoDup (map (fun c => id (row c)) (pre ++ suf)) ->
  NoDup (map (fun c => id (row c)) pre).
Proof. rewrite map_app. by intros [? _]%NoDup_app. Qed.

(** When every reply comes after its parent, the single loop links the
    objects as the two loops do. *)
Lemma link_each_link_all cs :
  NoDup (map (fun c => id (row c)) cs) -> ParentsFirst row cs ->
  forall suf pre b, cs = pre ++ suf ->
    link_each row (length pre) suf (set_all row 0 pre ∅, b)
    = (set_all row 0 cs ∅,
       link_all row (set_all row 0 cs ∅) (length pre) suf b).
Proof.
  intros Hnd Hpf. induction suf as [|c suf IH]; intros pre b Hcs.
  { rewrite app_nil_r in Hcs. by subst. }
  change (link_each row (length pre) (c :: suf) (set_all row 0 pre ∅, b))
    with (link_each row (S (length pre)) suf
            (link_one row (length pre) c (set_all row 0 pre ∅, b))).
  change (link_all row (set_all row 0 cs ∅) (length pre) (c :: suf) b)
    with (link_all row (set_all row 0 cs ∅) (S (length pre)) suf
            (link row (set_all row 0 cs ∅) (length pre) c b)).
  assert (cs = (pre ++ [c]) ++ suf) as Hcs' by (by rewrite <- app_assoc).
  assert (cs !! length pre = Some c) as Hc.
  { rewrite Hcs. by rewrite lookup_app_r, Nat.sub_diag by lia. }
  assert (link_one row (length pre) c (set_all row 0 pre ∅, b)
          = (set_all row 0 (pre ++ [c]) ∅,
             link row (set_all row 0 cs ∅) (length pre) c b)) as ->.
  { unfold link_one, link. cbn [fst snd]. rewrite set_all_snoc. simpl.
    destruct (parent_id (row c)) as [p|] eqn:Hp; [|done].
    destruct (Hpf _ _ _ Hc Hp) as (Hp0 & j & pc & Hj & Hpc & Hid).
    pose proof Hp0 as Ht. apply truthy_Some in Ht. rewrite Ht. simpl.
    rewrite <- Hid. rewrite (commentMap_NoDup row cs j pc Hnd Hpc).
    rewrite <- (set_all_snoc pre c 0 ∅).
    rewrite (commentMap_NoDup row (pre ++ [c]) j pc); [done| |].
    - rewrite Hcs' in Hnd. by apply NoDup_ids_prefix in Hnd.
    - rewrite Hcs' in Hpc. rewrite lookup_app_l in Hpc; [done|].
      rewrite length_app. simpl. lia. }
  replace (S (length pre)) with (length (pre ++ [c]))
    by (rewrite length_app; simpl; lia).
  by apply IH.
Qed.

Lemma assemble_single_pass_assemble cs :
  NoDup (map (fun c => id (row c)) cs) -> ParentsFirst row cs ->
  assemble_single_pass row cs = assemble row cs.
Proof.
  intros Hnd Hpf. unfold assemble_single_pass, assemble, build.
  by rewrite (link_each_link_all cs Hnd Hpf cs [] _ eq_refl).
Qed.

Lemma ParentsFirst_Hops cs :
  NoDup (map (fun c => id (row c)) cs) -> ParentsFirst row cs ->
  forall c, c ∈ cs -> exists n, Hops (map row cs) (row c) n.
Proof.
  intros Hnd Hpf.
  assert (forall i c, cs !! i = Some c -> exists n, Hops (map row cs) (row c) n)
    as Hall; [|by intros c [i Hi]%list_elem_of_lookup; eauto].
  intros i. induction i as [i IH] using lt_wf_ind. intros c Hc.
  destruct (parent_id (row c)) as [p|] eqn:Hp; cycle 1.
  { exists 0%nat. constructor. by rewrite Hp. }
  destruct (Hpf _ _ _ Hc Hp) as (Hp0 & j & pc & Hj & Hpc & Hid).
  destruct (IH j Hj pc Hpc) as [n Hn].
  exists (S n). eapply Hops_reply; [exact Hp| | |exact Hn].
  - rewrite Hp. by apply truthy_Some.
  - rewrite <- Hid. apply findByPk_NoDup.
    + by rewrite map_map.
    + apply list_elem_of_fmap_2. by eapply list_elem_of_lookup_2.
Qed.

(** The forest of the single loop over such a list holds every comment once,
    the parent before its replies. *)
Lemma single_pass_forest cs :
  NoDup (map (fun c => id (row c)) cs) -> ParentsFirst row cs ->
  exists forest,
    assemble_single_pass row cs = Some forest
    /\ flatten_forest forest ≡ₚ cs
    /\ forall c c', c ∈ cs -> c' ∈ cs ->
         parent_id (row c) = Some (id (row c')) ->
         Precedes (flatten_forest forest) c' c.
Proof.
  intros Hnd Hpf. rewrite (assemble_single_pass_assemble cs Hnd Hpf).
  pose proof (ParentsFirst_Hops cs Hnd Hpf) as Hhops.
  pose proof (build_Linked row cs) as HL.
  destruct (forest_of_Linked row cs _ _ Hnd Hhops HL) as (forest & Hf & Hperm & Hprec).
  exists forest. split; [done|]. split; [done|].
  intros c c' [i Hi]%list_elem_of_lookup [j Hj]%list_elem_of_lookup Hp.
  destruct (Hpf _ _ _ Hi Hp) as (Hp0 & _).
  assert (truthy (parent_id (row c)) = true) as Ht.
  { rewrite Hp. by apply truthy_Some. }
  assert (parent_ix row cs i = Some j) as Hpar
    by (eapply parent_ix_resolved; eauto).
  apply (Hprec j i c' c); [| |done|done].
  - econstructor; [|constructor]. by apply (linked_replies _ _ _ _ HL).
  - intros ->. destruct (Hhops c) as [n Hn]; [by eapply list_elem_of_lookup_2|].
    pose proof (Hops_Rank_ix row cs _ _ Hnd Hn i c Hi eq_refl) as HR.
    assert (Rank (parent_ix row cs) i (S n)) as HR' by (econstructor; eauto).
    pose proof (Rank_fun _ _ _ _ HR HR'). lia.
Qed.
End SinglePassProofs.

(** *** The recursive comment query *)

Lemma NoDup_rows rows : NoDup (map id rows) -> NoDup rows.
Proof. apply NoDup_fmap_1. Qed.

Lemma same_id rows x y :
  NoDup (map id rows) -> x ∈ rows -> y ∈ rows -> id x = id y -> x = y.
Proof.
  intros Hnd Hx Hy Hid.
  pose proof (findByPk_NoDup _ _ Hnd Hx) as H1.
  pose proof (findByPk_NoDup _ _ Hnd Hy) as H2. congruence.
Qed.

Lemma elem_of_tree_step working rows c :
  c ∈ tree_step working rows
  <-> c ∈ rows /\ is_published c = true
      /\ exists ct, ct ∈ working /\ parent_id c = Some (id ct).
Proof.
  unfold tree_step. rewrite list_elem_of_bind. split.
  - intros (x & (ct & Hc & Hct)%list_elem_of_bind & Hx).
    destruct (bool_decide _ && _) eqn:Hb; [|by apply elem_of_nil in Hc].
    apply list_elem_of_singleton in Hc as ->.
    apply andb_true_iff in Hb as [Hp%bool_decide_eq_true Hpub]. eauto.
  - intros (Hc & Hpub & ct & Hct & Hp). exists c. split; [|done].
    apply list_elem_of_bind. exists ct. split; [|done].
    rewrite Hpub, andb_true_r, bool_decide_eq_true_2 by done. by left.
Qed.

Lemma NoDup_tree_step working rows :
  NoDup (map id rows) -> NoDup working ->
  (forall ct, ct ∈ working -> ct ∈ rows) ->
  NoDup (tree_step working rows).
Proof.
  intros Hnd Hw Hsub. unfold tree_step.
  assert (forall (x : Comment) ct y,
            y ∈ (if bool_decide (parent_id x = Some (id ct)) && is_published x
                 then [x] else [])
            -> y = x /\ parent_id x = Some (id ct)) as Hin.
  { intros x ct y. destruct (bool_decide _ && _) eqn:Hb;
      [|by intros ?%elem_of_nil].
    intros ->%list_elem_of_singleton.
    apply andb_true_iff in Hb as [Hp%bool_decide_eq_true _]. done. }
  apply NoDup_bind; [| |by apply NoDup_rows].
  - intros x1 x2 y _ _ (ct1 & [-> _]%Hin & _)%list_elem_of_bind
      (ct2 & [? _]%Hin & _)%list_elem_of_bind. done.
  - intros x _. apply NoDup_bind; [| |done].
    + intros ct1 ct2 y H1 H2 [_ Hp1]%Hin [_ Hp2]%Hin.
      apply (same_id rows); auto. congruence.
    + intros ct _. destruct (bool_decide _ && _); [apply NoDup_singleton|constructor].
Qed.

Lemma Level_elem rows postId c k : Level rows postId c k -> c ∈ rows.
Proof. by destruct 1. Qed.

Lemma Level_published rows postId c k :
  Level rows postId c k -> is_published c = true.
Proof.
  destruct 1 as [c _ Ht|]; [|done]. unfold Pg.top_level in Ht.
  by apply andb_true_iff in Ht as [[_ ?]%andb_true_iff _].
Qed.

Lemma top_level_parent postId c : Pg.top_level postId c = true -> parent_id c = None.
Proof.
  unfold Pg.top_level. intros [_ Hp]%andb_true_iff. by destruct (parent_id c).
Qed.

Lemma Level_Rank rows postId c k :
  NoDup (map id rows) -> Level rows postId c k ->
  Rank (fun c => parent_id c ≫= findByPk rows) c k.
Proof.
  intros Hnd. induction 1 as [c Hc Ht|c p k Hc Hpub Hp Hl IH].
  - constructor. by rewrite (top_level_parent _ _ Ht).
  - econstructor; [|exact IH]. rewrite Hp. simpl.
    apply findByPk_NoDup; [done|]. by eapply Level_elem.
Qed.

Lemma Level_fun rows postId c k k' :
  NoDup (map id rows) ->
  Level rows postId c k -> Level rows postId c k' -> k = k'.
Proof.
  intros Hnd H1%(Level_Rank _ _ _ _ Hnd) H2%(Level_Rank _ _ _ _ Hnd).
  by eapply Rank_fun.
Qed.

Lemma Level_bound rows postId c k :
  NoDup (map id rows) -> Level rows postId c k -> (k < length rows)%nat.
Proof.
  intros Hnd Hl.
  eapply (Rank_bound (fun c => parent_id c ≫= findByPk rows) rows);
    [|by apply (Level_Rank _ postId)|by eapply Level_elem].
  intros a p _. destruct (parent_id a) as [q|]; simpl; [|done].
  by intros [_ ?]%findByPk_id.
Qed.

Lemma Level_ancestor rows postId c k d :
  Level rows postId c (d + k) -> exists a, Level rows postId a k.
Proof.
  revert c. induction d as [|d IH]; intros c Hl; [by exists c|].
  inversion Hl as [|? p ? _ _ _ Hp]; subst. by apply (IH p).
Qed.

Lemma Shown_Level rows postId c :
  Shown rows postId c <-> exists k, Level rows postId c k.
Proof.
  split.
  - induction 1 as [c Hc Ht|c p Hc Hpub Hp _ [k IH]].
    + exists 0%nat. by constructor.
    + exists (S k). by econstructor.
  - intros [k Hk]. induction Hk as [c Hc Ht|c p k Hc Hpub Hp _ IH].
    + by constructor.
    + by econstructor.
Qed.

Lemma comment_tree_nil fuel level rows :
  comment_tree fuel level [] rows = Some [].
Proof. by destruct fuel. Qed.

Lemma comment_tree_cons fuel level working rows :
  working <> [] ->
  comment_tree (S fuel) level working rows
  = (rest ← comment_tree fuel (level + 1) (tree_step working rows) rows;
     Some (map (fun c => (c, level)) working ++ rest)).
Proof. by destruct working. Qed.

(** The rounds of the query from round [k] on: they end, and leave every
    comment of the levels from [k] on once, with its level. *)
Lemma comment_tree_spec rows postId :
  NoDup (map id rows) ->
  forall fuel k working,
    NoDup working ->
    (forall c, c ∈ working <-> Level rows postId c k) ->
    (length rows < fuel + k)%nat ->
    exists found,
      comment_tree fuel (Z.of_nat k) working rows = Some found
      /\ NoDup (map fst found)
      /\ forall c l, (c, l) ∈ found
           <-> exists j, (k <= j)%nat /\ l = Z.of_nat j /\ Level rows postId c j.
Proof.
  intros Hnd. induction fuel as [|fuel IH]; intros k working Hw Hlevel Hfuel;
    (destruct (decide (working = [])) as [->|Hne];
     [ exists []; split; [apply comment_tree_nil|]; split; [constructor|];
       intros c l; split; [by intros ?%elem_of_nil|];
       intros (j & Hj & _ & Hl); exfalso;
       replace j with ((j - k) + k)%nat in Hl by lia;
       apply Level_ancestor in Hl as [a Ha]; apply Hlevel in Ha;
       by apply elem_of_nil in Ha
     | ]).
  - destruct working as [|c0 working]; [done|].
    assert (Level rows postId c0 k) as Hc0 by (apply Hlevel; by left).
    apply (Level_bound _ _ _ _ Hnd) in Hc0. lia.
  - assert (forall ct, ct ∈ working -> ct ∈ rows) as Hsub.
    { intros ct Hct%Hlevel. by eapply Level_elem. }
    destruct (IH (S k) (tree_step working rows)) as (rest & Hrest & Hndr & Hin).
    { by apply NoDup_tree_step. }
    { intros c. rewrite elem_of_tree_step. split.
      - intros (Hc & Hpub & ct & Hct%Hlevel & Hp). by econstructor.
      - intros Hl. inversion Hl as [|? p ? Hc Hpub Hp Hpl]; subst.
        split; [done|]. split; [done|]. exists p. split; [by apply Hlevel|done]. }
    { lia. }
    rewrite (comment_tree_cons _ _ _ _ Hne).
    replace (Z.of_nat k + 1) with (Z.of_nat (S k)) by lia.
    rewrite Hrest. simpl. eexists. split; [reflexivity|]. split.
    + rewrite map_app, map_map. simpl. rewrite map_id.
      apply NoDup_app. split; [done|]. split; [|done].
      intros c Hc%Hlevel (x & -> & Hx)%list_elem_of_fmap.
      destruct x as [c' l]. apply Hin in Hx as (j & Hj & _ & Hl). simpl in Hc.
      pose proof (Level_fun _ _ _ _ _ Hnd Hc Hl). lia.
    + intros c l. rewrite elem_of_app, Hin, list_elem_of_fmap. split.
      * intros [(x & [= -> ->] & Hx%Hlevel)|(j & Hj & -> & Hl)].
        -- exists k. auto.
        -- exists j. split; [lia|done].
      * intros (j & Hj & -> & Hl).
        destruct (decide (j = k)) as [->|Hjk].
        -- left. exists c. split; [done|]. by apply Hlevel.
        -- right. exists j. split; [lia|done].
Qed.

Lemma by_level_date_total a b : by_level_date a b <= 0 \/ by_level_date b a <= 0.
Proof.
  unfold by_level_date. rewrite (Z.eqb_sym (snd b)).
  destruct (Z.eqb_spec (snd a) (snd b)); lia.
Qed.

Lemma by_level_date_trans a b c :
  by_level_date a b <= 0 -> by_level_date b c <= 0 -> by_level_date a c <= 0.
Proof.
  unfold by_level_date.
  destruct (Z.eqb_spec (snd a) (snd b)), (Z.eqb_spec (snd b) (snd c)),
    (Z.eqb_spec (snd a) (snd c)); lia.
Qed.

Lemma insert_sorted_Sorted_total {B} (compare : B -> B -> Z) x l :
  (forall a b, compare a b <= 0 \/ compare b a <= 0) ->
  Sorted (fun a b => compare a b <= 0) l ->
  Sorted (fun a b => compare a b <= 0) (insert_sorted compare x l).
Proof.
  intros Htot. induction 1 as [|y l Hs IH Hhd]; simpl; [by repeat constructor|].
  destruct (Z.leb_spec (compare x y) 0) as [Hle|Hgt].
  - constructor; [by constructor|]. by constructor.
  - constructor; [done|].
    assert (compare y x <= 0) as Hyx by (destruct (Htot y x); [done|lia]).
    destruct Hhd as [|z l Hyz]; simpl; [by constructor|].
    destruct (compare x z <=? 0); by constructor.
Qed.

Lemma Array_sort_Sorted_total {B} (compare : B -> B -> Z) l :
  (forall a b, compare a b <= 0 \/ compare b a <= 0) ->
  Sorted (fun a b => compare a b <= 0) (Array_sort compare l).
Proof.
  intros Htot. induction l as [|x l IH]; simpl; [constructor|].
  by apply insert_sorted_Sorted_total.
Qed.

Lemma StronglySorted_lookup_lt {B} (R : B -> B -> Prop) l i j x y :
  StronglySorted R l -> (i < j)%nat -> l !! i = Some x -> l !! j = Some y ->
  R x y.
Proof.
  intros Hs. revert i j. induction Hs as [|z l Hs IH Hall]; intros i j Hij Hi Hj.
  - done.
  - destruct j as [|j]; [lia|]. destruct i as [|i].
    + injection Hi as ->. simpl in Hj.
      eapply (proj1 (Forall_forall _ _) Hall). by eapply list_elem_of_lookup_2.
    + simpl in Hi, Hj. apply (IH i j); [lia|done..].
Qed.

(** What the query returns on a table with distinct ids none of which is 0:
    the comments that the post shows, each once, every reply after its
    parent. *)
Lemma comment_tree_query_spec rows postId :
  NoDup (map id rows) -> (forall c, c ∈ rows -> id c <> 0) ->
  exists found,
    comment_tree_query postId rows = Some found
    /\ NoDup (map id (map fst found))
    /\ (forall c, c ∈ map fst found <-> Shown rows postId c)
    /\ ParentsFirst (fun c => c) (map fst found).
Proof.
  intros Hnd Hids. unfold comment_tree_query.
  destruct (comment_tree_spec rows postId Hnd (S (length rows)) 0
              (List.filter (Pg.top_level postId) rows))
    as (found & Hrun & Hndf & Hin).
  { eapply sublist_NoDup; [by apply NoDup_rows|apply sublist_filter_bool]. }
  { intros c. rewrite elem_of_filter_bool. split.
    - intros [? ?]. by constructor.
    - intros Hl. inversion Hl; subst. done. }
  { lia. }
  change (Z.of_nat 0) with 0 in Hrun. rewrite Hrun. simpl.
  set (sorted := Array_sort by_level_date found).
  assert (sorted ≡ₚ found) as Hperm by apply Array_sort_perm.
  assert (forall c l, (c, l) ∈ sorted
            <-> exists j, l = Z.of_nat j /\ Level rows postId c j) as Hsorted.
  { intros c l. rewrite Hperm, Hin. split.
    - intros (j & _ & ? & ?). eauto.
    - intros (j & ? & ?). exists j. split; [lia|done]. }
  assert (forall c, c ∈ map fst sorted <-> exists j, Level rows postId c j) as Hmem.
  { intros c. rewrite list_elem_of_fmap. split.
    - intros ([c' l] & -> & (j & _ & Hl)%Hsorted). eauto.
    - intros [j Hj]. exists (c, Z.of_nat j). split; [done|]. apply Hsorted. eauto. }
  assert (NoDup (map fst sorted)) as Hnds by (by rewrite Hperm).
  exists sorted. split; [done|]. split; [|split].
  - apply NoDup_fmap_2_strong; [|done].
    intros x y [j Hx]%Hmem [j' Hy]%Hmem Hid.
    apply (same_id rows); [done|by eapply Level_elem..|done].
  - intros c. by rewrite Hmem, Shown_Level.
  - intros i c p Hc Hp.
    rewrite list_lookup_fmap in Hc.
    destruct (sorted !! i) as [[c' l]|] eqn:Hi; [|done]. injection Hc as ->.
    assert ((c, l) ∈ sorted) as Hcl by (by eapply list_elem_of_lookup_2).
    apply Hsorted in Hcl as (j & -> & Hl).
    inversion Hl as [? ? Ht|? pc k Hcin Hpub Hpar Hpl]; subst.
    { apply top_level_parent in Ht. congruence. }
    assert (p = id pc) as -> by congruence.
    split; [apply Hids; by eapply Level_elem|].
    assert ((pc, Z.of_nat k) ∈ sorted) as [i' Hi']%list_elem_of_lookup.
    { apply Hsorted. eauto. }
    exists i', pc. split; [|split; [by rewrite list_lookup_fmap, Hi'|done]].
    destruct (decide (i' < i)%nat) as [|Hge]; [done|]. exfalso.
    destruct (decide (i' = i)) as [->|Hne].
    { rewrite Hi in Hi'. injection Hi' as -> ?. lia. }
    assert (by_level_date (c, Z.of_nat (S k)) (pc, Z.of_nat k) <= 0) as Hle.
    { eapply (StronglySorted_lookup_lt (fun a b => by_level_date a b <= 0) sorted i i');
        [|lia|done..].
      apply Sorted_StronglySorted; [intros ? ? ?; apply by_level_date_trans|].
      apply Array_sort_Sorted_total, by_level_date_total. }
    unfold by_level_date in Hle. cbn [fst snd] in Hle.
    destruct (Z.eqb_spec (Z.of_nat (S k)) (Z.of_nat k)); lia.
Qed.

(** X19: [GET /api/posts/:id] on a table of comments with distinct ids none of
    which is 0, for a post that the request may see: the recursive query ends,
    the single loop drops none of its rows, and the forest of the answer
    holds, each once, exactly the published comments that lead to a published
    top-level comment of the post through published comments, every comment
    before its replies. *)
Theorem get_post_shows_reachable_comments (user : option Z) (pk : Z)
    (s : Posts.Store) (post : Posts.Post) :
  isInt_min1 pk = true ->
  List.find (fun p => Posts.id p =? pk) (Posts.posts_table s) = Some post ->
  Posts.access_denied user post = false ->
  NoDup (map id (Posts.comments_table s)) ->
  (forall c, c ∈ Posts.comments_table s -> id c <> 0) ->
  exists forest,
    Posts.get_post user pk s
    = Some (Success 200 (Posts.mkPostData post forest) "")
    /\ NoDup (flatten_forest forest)
    /\ (forall c, c ∈ flatten_forest forest
                  <-> Shown (Posts.comments_table s) pk c)
    /\ forall c c',
         c ∈ flatten_forest forest -> c' ∈ flatten_forest forest ->
         parent_id c = Some (id c') ->
         Precedes (flatten_forest forest) c' c.
Proof.
  intros Hpk Hfind Hacc Hnd Hids. unfold Posts.get_post.
  rewrite Hpk, Hfind, Hacc. cbn [negb].
  destruct (comment_tree_query_spec (Posts.comments_table s) pk Hnd Hids)
    as (found & -> & Hndf & Hmem & Hpf).
  destruct (single_pass_forest (fun c => c) (map fst found) Hndf Hpf)
    as (forest & Hforest & Hperm & Hprec).
  simpl. rewrite Hforest. simpl. exists forest. split; [done|]. split; [|split].
  - rewrite Hperm. by apply NoDup_fmap_1 in Hndf.
  - intros c. by rewrite Hperm, Hmem.
  - intros c c' Hc Hc'. rewrite Hperm in Hc, Hc'. by apply Hprec.
Qed.

Lemma get_post_shows_reachable_comments_witness :
  exists forest,
    Posts.get_post None 1 sample_store
    = Some (Success 200
              (Posts.mkPostData (Posts.mkPost 1 1 "first" "public" true 10) forest)
              "")
    /\ NoDup (flatten_forest forest)
    /\ flatten_forest forest
       = [ mkComment 1 1 1 None "A" true 10;
           mkComment 3 1 1 (Some 1) "C" true 30;
           mkComment 4 1 1 (Some 3) "D" true 40;
           mkComment 5 1 1 (Some 4) "E" true 50;
           mkComment 6 1 1 (Some 5) "F" true 60;
           mkComment 7 1 1 (Some 6) "G" true 70;
           mkComment 2 1 1 None "B" true 20 ].
Proof.
  destruct (get_post_shows_reachable_comments None 1 sample_store
              (Posts.mkPost 1 1 "first" "public" true 10) eq_refl eq_refl eq_refl)
    as (forest & Hrun & Hnd & _).
  - repeat constructor; rewrite ?elem_of_cons, ?elem_of_nil; intuition discriminate.
  - intros c Hc. simpl in Hc. unfold thread in Hc.
    repeat (apply elem_of_cons in Hc as [->|Hc]); [..|by apply elem_of_nil in Hc];
      discriminate.
  - exists forest. split; [exact Hrun|]. split; [exact Hnd|].
    vm_compute in Hrun. injection Hrun as <-. reflexivity.
Defined.

(** *** The two builders *)

(** X20: on a list with distinct ids in which every reply comes after its parent
    and no parent has the id 0, as the recursive query returns it, the single
    loop of [GET /api/posts/:id] builds the forest that the two loops of the
    comment routes and of [getCommentTree] build. *)
Theorem builders_agree {A} (row : A -> Comment) (cs : list A) :
  NoDup (map (fun c => id (row c)) cs) -> ParentsFirst row cs ->
  assemble_single_pass row cs = assemble row cs
  /\ is_Some (assemble row cs).
Proof.
  intros Hnd Hpf. split; [by apply assemble_single_pass_assemble|].
  apply assemble_total.
Qed.

Lemma builders_agree_witness :
  assemble_single_pass (fun c => c) (take 4 thread)
  = assemble (fun c => c) (take 4 thread)
  /\ is_Some (assemble (fun c => c) (take 4 thread)).
Proof.
  apply builders_agree.
  - repeat constructor; rewrite ?elem_of_cons, ?elem_of_nil; intuition discriminate.
  - intros i c p Hc Hp.
    destruct i as [|[|[|[|i]]]]; simpl in Hc; try discriminate;
      injection Hc as <-; simpl in Hp; try discriminate; injection Hp as <-;
      (split; [discriminate|]).
    + exists 0%nat. eexists. split; [lia|]. split; reflexivity.
    + exists 2%nat. eexists. split; [lia|]. split; reflexivity.
Defined.

(** *** All the comments of a post *)

Lemma Hops_within rows cs :
  NoDup (map id cs) ->
  (forall c p pc, c ∈ cs -> parent_id c = Some p -> truthy (Some p) = true ->
     findByPk rows p = Some pc -> pc ∈ cs) ->
  forall c n, Hops rows c n -> c ∈ cs -> Hops cs c n.
Proof.
  intros Hnd Hclosed c n. induction 1 as [c Hc|c p pc n Hp Ht Hf _ IH]; intros Hin.
  - by constructor.
  - assert (pc ∈ cs) as Hpc.
    { eapply Hclosed; eauto. by rewrite <- Hp. }
    eapply Hops_reply; [exact Hp|exact Ht| |by apply IH].
    apply findByPk_id in Hf as [<- _]. by apply findByPk_NoDup.
Qed.

(** The published comments of a post lead to a root among themselves. *)
Lemma of_post_Hops d postId cs :
  Consistent d -> DepthInv (comments d) -> PublishedParents (comments d) ->
  cs ≡ₚ List.filter (of_post postId) (comments d) ->
  NoDup (map id cs)
  /\ forall c, c ∈ cs -> exists n, Hops cs c n.
Proof.
  intros Hc Hinv Hpub Hperm.
  assert (forall c, c ∈ cs <-> c ∈ comments d /\ of_post postId c = true) as Hin.
  { intros c. by rewrite Hperm, elem_of_filter_bool. }
  assert (NoDup (map id cs)) as Hnd.
  { rewrite Hperm. eapply sublist_NoDup; [apply (ids_distinct _ Hc)|].
    apply fmap_sublist, sublist_filter_bool. }
  split; [done|]. intros c Hcin. pose proof Hcin as [Hrows Hof]%Hin.
  destruct (Hinv c Hrows) as (n & Hn & _). exists n.
  apply (Hops_within (comments d)); [done| |done|done].
  intros x p pc [Hx Hxof]%Hin Hp _ Hf. apply Hin.
  pose proof Hf as [Hid Hpc]%findByPk_id. split; [done|].
  destruct (parent_resolves _ Hc x p Hx Hp) as (pc' & Hpc' & Hid' & Hpost).
  assert (pc' = pc) as ->.
  { apply (same_id (comments d)); [apply (ids_distinct _ Hc)|done..|congruence]. }
  unfold of_post in *. apply andb_true_iff in Hxof as [Hxp Hxpub].
  apply andb_true_iff. split; [by rewrite Hpost|].
  apply (Hpub x pc); auto. congruence.
Qed.

Lemma assemble_sorted_forest {A} (row : A -> Comment) sort (cs : list A) :
  NoDup (map (fun c => id (row c)) cs) ->
  (forall c, c ∈ cs -> exists n, Hops (map row cs) (row c) n) ->
  exists forest,
    assemble_sorted row sort cs = Some forest /\ flatten_forest forest ≡ₚ cs.
Proof.
  intros Hnd Hhops. pose proof (build_Linked row cs) as HL.
  destruct (assemble_sorted_total row sort cs) as [forest Hf].
  exists forest. split; [done|].
  unfold assemble_sorted in Hf.
  destruct (sortReplies _ _ _ _ _) as [h'|] eqn:Hh; [|discriminate Hf].
  apply sortReplies_spec in Hh as [Hres _].
  pose proof (Linked_Resorted row sort _ _ _ _ Hres HL) as HL'.
  destruct (forest_of_Linked row cs _ _ Hnd Hhops HL') as (f & Hf' & Hperm & _).
  simpl in Hf. rewrite Hf' in Hf. by injection Hf as <-.
Qed.

(** X21: [Comment.getCommentTree(postId)] on a consistent store of bounded depth
    in which published replies have published parents: the forest holds every
    published comment of the post once, each comment before its replies. *)
Theorem getCommentTree_shows_all (postId : Z) (w : World) :
  Consistent (db w) -> DepthInv (comments (db w)) ->
  PublishedParents (comments (db w)) ->
  exists forest w',
    Comment_getCommentTree postId w = Some (forest, w')
    /\ db w' = db w
    /\ flatten_forest forest ≡ₚ List.filter (of_post postId) (comments (db w))
    /\ forall c c', c ∈ flatten_forest forest -> c' ∈ flatten_forest forest ->
         parent_id c = Some (id c') -> Precedes (flatten_forest forest) c' c.
Proof.
  intros Hc Hinv Hpub. unfold Comment_getCommentTree.
  unfold mbind at 1 2, Async_bind at 1 2, issue, read. cbn [db].
  set (cs := order_by_created_at "oldest" _).
  assert (cs ≡ₚ List.filter (of_post postId) (comments (db w))) as Hperm
    by apply Array_sort_perm.
  destruct (of_post_Hops (db w) postId cs Hc Hinv Hpub Hperm) as [Hnd Hhops].
  pose proof (build_Linked (fun c : Comment => c) cs) as HL.
  destruct (forest_of_Linked (fun c : Comment => c) cs
              (heap (build (fun c : Comment => c) cs))
              (rootComments (build (fun c : Comment => c) cs)))
    as (forest & Hf & Hflat & Hprec).
  { done. }
  { intros c Hcin. rewrite map_id. by apply Hhops. }
  { done. }
  unfold assemble. rewrite Hf. eexists _, _. split; [reflexivity|].
  split; [done|]. split; [by rewrite Hflat|].
  intros c c' Hcin Hcin' Hp. rewrite Hflat in Hcin, Hcin'.
  pose proof Hcin as [i Hi]%list_elem_of_lookup.
  pose proof Hcin' as [j Hj]%list_elem_of_lookup.
  assert (id c' <> 0) as Hid0.
  { assert (c' ∈ comments (db w)) as Hrows.
    { rewrite Hperm in Hcin'. by apply elem_of_filter_bool in Hcin' as [? _]. }
    destruct (ids_drawn _ Hc c' Hrows). lia. }
  assert (truthy (parent_id c) = true) as Ht.
  { rewrite Hp. by apply truthy_Some. }
  assert (parent_ix (fun c => c) cs i = Some j) as Hpar
    by (eapply (parent_ix_resolved (fun c : Comment => c)); eauto).
  apply (Hprec j i c' c); [| |done|done].
  - econstructor; [|constructor]. by apply (linked_replies _ _ _ _ HL).
  - intros ->. destruct (Hhops c Hcin) as [n Hn].
    assert (Hops (map (fun c => c) cs) c n) as Hn' by (by rewrite map_id).
    pose proof (Hops_Rank_ix (fun c : Comment => c) cs _ _ Hnd Hn' i c Hi eq_refl)
      as HR.
    assert (Rank (parent_ix (fun c => c) cs) i (S n)) as HR'
      by (econstructor; eauto).
    pose proof (Rank_fun _ _ _ _ HR HR'). lia.
Qed.

Lemma Consistent_thread : Consistent (db thread_world).
Proof.
  destruct Consistent_reacted. constructor; simpl in *; try done.
  by intros r k ?%elem_of_nil.
Qed.

Lemma PublishedParents_thread : PublishedParents thread.
Proof.
  intros c pc _ Hpc _ _. unfold thread in Hpc.
  repeat (apply elem_of_cons in Hpc as [->|Hpc]); [..|by apply elem_of_nil in Hpc];
    reflexivity.
Qed.

Lemma getCommentTree_shows_all_witness :
  exists forest w',
    Comment_getCommentTree 1 thread_world = Some (forest, w')
    /\ db w' = db thread_world
    /\ flatten_forest forest ≡ₚ thread.
Proof.
  destruct (getCommentTree_shows_all 1 thread_world Consistent_thread
              DepthInv_thread PublishedParents_thread)
    as (forest & w' & Hrun & Hdb & Hflat & _).
  exists forest, w'. split; [exact Hrun|]. split; [exact Hdb|]. exact Hflat.
Defined.

(** X22: the Sequelize [GET /api/comments/post/:postId] on a consistent store of
    bounded depth in which published replies have published parents: when
    the published comments of the post are no more than [limit], the forest
    of the answer holds each of them once, and [total_count] is their
    number. *)
Theorem listing_shows_all_when_it_fits (postId : Z) (q : ListQuery) (w : World) :
  listing_validators postId q = [] -> postId ∈ posts (db w) ->
  Consistent (db w) -> DepthInv (comments (db w)) ->
  PublishedParents (comments (db w)) ->
  Z.of_nat (length (List.filter (of_post postId) (comments (db w))))
    <= limit_or (q_limit q) 50 ->
  exists d w',
    get_post_comments postId q w = Some (Success 200 d "", w')
    /\ db w' = db w
    /\ map fst (flatten_forest (l_comments d))
       ≡ₚ List.filter (of_post postId) (comments (db w))
    /\ l_total_count d
       = length (List.filter (of_post postId) (comments (db w))).
Proof.
  intros Hv Hpost Hc Hinv Hpub Hfit. unfold get_post_comments.
  rewrite Hv. cbn [handleValidationErrors].
  rewrite (bind_run _ _ _ _ _ (Post_findByPk_run _ _)), (find_eqb_Some _ _ Hpost).
  unfold mbind at 1 2 3, Async_bind at 1 2 3, issue, read. cbn [db logged].
  set (sort := default "oldest" (q_sort q)).
  set (filtered := List.filter (of_post postId) (comments (db w))) in *.
  assert (sql_limit (limit_or (q_limit q) 50) (order_by_created_at sort filtered)
          = order_by_created_at sort filtered) as ->.
  { unfold sql_limit. apply take_ge.
    unfold order_by_created_at. rewrite Array_sort_perm. lia. }
  set (cs := order_by_created_at sort filtered).
  assert (cs ≡ₚ filtered) as Hperm by apply Array_sort_perm.
  destruct (of_post_Hops (db w) postId cs Hc Hinv Hpub Hperm) as [Hnd Hhops].
  set (processed := map _ cs).
  assert (map fst processed = cs) as Hfst.
  { unfold processed. rewrite map_map. simpl. apply map_id. }
  destruct (assemble_sorted_forest fst sort processed) as (forest & Hf & Hflat).
  { rewrite <- (map_map fst id processed). by rewrite Hfst. }
  { intros x Hx. rewrite Hfst. apply Hhops. rewrite <- Hfst.
    by apply list_elem_of_fmap_2. }
  rewrite Hf. eexists _, _. split; [reflexivity|]. split; [done|].
  cbn [l_comments l_total_count]. split.
  - by rewrite Hflat, Hfst.
  - by rewrite Hperm.
Qed.

Lemma listing_shows_all_when_it_fits_witness :
  exists d w',
    get_post_comments 1 (mkListQuery (Some "newest") (Some 7) None) thread_world
    = Some (Success 200 d "", w')
    /\ db w' = db thread_world
    /\ map fst (flatten_forest (l_comments d)) ≡ₚ thread
    /\ l_total_count d = 7%nat.
Proof.
  apply (listing_shows_all_when_it_fits 1
           (mkListQuery (Some "newest") (Some 7) None) thread_world eq_refl).
  - apply list_elem_of_In; simpl; tauto.
  - apply Consistent_thread.
  - apply DepthInv_thread.
  - apply PublishedParents_thread.
  - simpl. lia.
Defined.

(** *** [POST /] and the hook of the model *)

(** [getCommentDepth] depends on the table only. *)
Lemma getCommentDepth_rec_db fuel : forall cid w n w' w2,
  getCommentDepth_rec fuel cid w = Some (n, w') ->
  comments (db w2) = comments (db w) ->
  exists w2', getCommentDepth_rec fuel cid w2 = Some (n, w2')
              /\ db w2' = db w2.
Proof.
  induction fuel as [|fuel IH]; intros cid w n w' w2; simpl; [done|].
  destruct cid as [pk|]; [|intros [= <- <-] _; eauto].
  destruct (negb (truthy (Some pk))); [intros [= <- <-] _; eauto|].
  rewrite !(bind_run _ _ _ _ _ (Comment_findByPk_run pk _)).
  intros Hrun Hdb. rewrite Hdb.
  destruct (findByPk (comments (db w)) pk) as [c|]; [|injection Hrun as <- <-; eauto].
  destruct (negb (truthy (parent_id c))); [injection Hrun as <- <-; eauto|].
  unfold mbind, Async_bind in *.
  destruct (getCommentDepth_rec fuel (parent_id c) (logged w _))
    as [[d w1]|] eqn:Hrec; [|done].
  injection Hrun as <- <-.
  destruct (IH _ _ _ _ (logged w2 [Comment_findByPk_q pk]) Hrec) as (w2' & -> & Hdb');
    [done|]. eauto.
Qed.

(** A run of the parent checks that lets the handler go on is a run that the
    hook [beforeCreate] repeats with the same outcome. *)
Lemma beforeCreate_after_check post parent w w1 w2 content' user :
  check_parent post parent w = Some (None, w1) ->
  db w2 = db w ->
  exists w2', beforeCreate (mkValues post user parent content') w2
              = Some (inr tt, w2')
              /\ db w2' = db w2.
Proof.
  unfold check_parent, beforeCreate. cbn [v_parent_id v_post_id].
  destruct parent as [p|]; [|intros _ _; eauto].
  destruct (truthy (Some p)); [|intros _ _; eauto].
  rewrite !(bind_run _ _ _ _ _ (Comment_findByPk_run p _)).
  intros Hrun Hdb. rewrite Hdb.
  destruct (findByPk (comments (db w)) p) as [pc|]; [|done].
  destruct (negb (post_id pc =? post)); [done|].
  unfold mbind, Async_bind in *.
  destruct (Comment_getCommentDepth (Some p) (logged w _)) as [[d w']|] eqn:Hd;
    [|done].
  unfold Comment_getCommentDepth in *.
  destruct (getCommentDepth_rec_db _ _ _ _ _ (logged w2 [Comment_findByPk_q p]) Hd)
    as (w2' & Hd2 & Hdb2); [cbn [db logged]; by rewrite Hdb|].
  cbn [db logged] in Hd2, Hdb2 |- *. rewrite Hdb, Hd2.
  destruct (5 <=? d)%nat; [done|]. eexists. split; [reflexivity|congruence].
Qed.

(** X23: [POST /] never leaves its answer to the error middleware: the length
    check and the hook [beforeCreate] of the model accept whatever the
    validators and the parent checks of the route have accepted.  A run is
    answered 400, 404 or 201, and 201 exactly when the row is stored. *)
Theorem post_comment_never_errors (b : CreateBody) (w w' : World)
    (r : Response (option Comment)) :
  post_comment b w = Some (r, w') ->
  (forall e, r <> NextError e)
  /\ (statusOf r = 400 \/ statusOf r = 404 \/ statusOf r = 201)%nat
  /\ (statusOf r = 201%nat <-> db w' <> db w).
Proof.
  unfold post_comment.
  destruct (create_validators b) as [|e es] eqn:Hv;
    [|intros [= <- <-]; simpl; split; [done|split; [auto|split; [lia|done]]]].
  cbn [handleValidationErrors].
  rewrite (bind_run _ _ _ _ _ (Post_findByPk_run _ _)).
  destruct (List.find _ (posts (db w))) as [x|];
    [|intros [= <- <-]; simpl; split; [done|split; [auto|split; [lia|done]]]].
  rewrite (bind_run _ _ _ _ _ (User_findByPk_run _ _)). cbn [logged db].
  destruct (List.find _ (users (db w))) as [y|];
    [|intros [= <- <-]; simpl; split; [done|split; [auto|split; [lia|done]]]].
  rewrite logged_logged. unfold mbind at 1, Async_bind at 1.
  destruct (check_parent _ _ _) as [[early w1]|] eqn:Hcheck; [|done].
  pose proof Hcheck as [[qs ->] _]%check_parent_inv.
  destruct early as [r0|].
  { intros [= <- <-]. revert Hcheck. unfold check_parent.
    destruct (b_parent_id b) as [p|]; [|done].
    destruct (truthy (Some p)); [|done].
    rewrite (bind_run _ _ _ _ _ (Comment_findByPk_run p _)).
    destruct (findByPk _ p) as [pc|];
      [|intros [= <-]; simpl; split; [done|split; [auto|split; [lia|done]]]].
    destruct (negb (post_id pc =? b_post_id b));
      [intros [= <-]; simpl; split; [done|split; [auto|split; [lia|done]]]|].
    unfold mbind, Async_bind.
    destruct (Comment_getCommentDepth _ _) as [[d w1]|]; [|done].
    destruct (5 <=? d)%nat; [|done].
    intros [= <-]; simpl; split; [done|split; [auto|split; [lia|done]]]. }
  apply create_validators_nil in Hv as (_ & _ & Hlen & _).
  set (w1 := logged (logged w _) qs) in *.
  destruct (beforeCreate_after_check _ _ _ _ w1
              (trim (b_content b)) (b_user_id b) Hcheck eq_refl)
    as (w2 & Hhook & Hdb2).
  pose proof Hhook as [qs' ->]%beforeCreate_logged.
  assert (isLength 1 2000 (trim (trim (b_content b))) = true) as Hlen'
    by (by rewrite trim_idem).
  pose proof (Comment_create_pass
                (mkValues (b_post_id b) (b_user_id b) (b_parent_id b)
                          (trim (b_content b))) w1 qs' Hlen' Hhook) as Hc.
  cbn zeta in Hc.
  rewrite (bind_run _ _ _ _ _ Hc).
  rewrite (bind_run _ _ _ _ _ (Comment_findByPk_run _ _)).
  intros [= <- <-]. simpl. split; [done|]. split; [auto|]. split; [|done].
  intros _ Heq. apply (f_equal comments_id_seq) in Heq. simpl in Heq. lia.
Qed.

Lemma post_comment_never_errors_witness :
  exists r w',
    post_comment (mkCreateBody 1 1 "H" (Some 7)) thread_world = Some (r, w')
    /\ (forall e, r <> NextError e)
    /\ (statusOf r = 400 \/ statusOf r = 404 \/ statusOf r = 201)%nat
    /\ (statusOf r = 201%nat <-> db w' <> db thread_world).
Proof.
  eexists _, _. split; [vm_compute; reflexivity|].
  eapply (post_comment_never_errors (mkCreateBody 1 1 "H" (Some 7)) thread_world).
  vm_compute. reflexivity.
Defined.
